(** * A shallow embedding of the [binary] codec (package [binary])

    The development follows the Go sources: [parseTag] (tag resolver),
    [Marshal] / [encodeField] / [encodeStruct] (encoder),
    [Unmarshal] / [UnmarshalPartial] / [decodeField] / [decodeStruct]
    (decoder).  The library calls the package relies on ([binary.Write],
    [binary.Read], [bytes.Reader.Read], [strconv.ParseUint], [reflect]) are
    embedded by what they do on the values the package hands them. *)

From Stdlib Require Import String Ascii.
From Stdlib.Strings Require Import Byte.
From Stdlib Require Import ZArith List Bool Lia.
Import ListNotations.

Local Open Scope string_scope.
Local Open Scope list_scope.
Local Open Scope Z_scope.

(** ** Bytes and little-endian integers *)

Module LE.

Definition Z_of_byte (b : byte) : Z := Z.of_N (Byte.to_N b).

(** [byte(x)]: the conversion keeps the low eight bits. *)
Definition byte_of_Z (z : Z) : byte :=
  match Byte.of_N (Z.to_N (z mod 256)) with
  | Some b => b
  | None => x00
  end.

(** [binary.LittleEndian.PutUintN]: byte [i] is [byte(v >> (8*i))]. *)
Fixpoint le_bytes (w : nat) (n : Z) : list byte :=
  match w with
  | O => []
  | S w' => byte_of_Z n :: le_bytes w' (Z.shiftr n 8)
  end.

(** [binary.LittleEndian.UintN]: the sum of [b[i] << (8*i)]. *)
Fixpoint le_value (bs : list byte) : Z :=
  match bs with
  | [] => 0
  | b :: bs' => Z.lor (Z_of_byte b) (Z.shiftl (le_value bs') 8)
  end.

(** Conversion of an unsigned [8*w]-bit pattern to the signed integer of
    the same width ([int32(u)] and the like). *)
Definition to_signed (w : nat) (u : Z) : Z :=
  if u <? 2 ^ (8 * Z.of_nat w - 1) then u else u - 2 ^ (8 * Z.of_nat w).

(** [uint32(n)] on a non-negative [int]. *)
Definition uint32 (n : Z) : Z := n mod 2 ^ 32.

End LE.
Export LE.

(** ** Errors and results *)

(** The scalar kinds of [reflect.Kind] the two switches name. *)
Inductive scalar : Type :=
| Uint8 | Uint16 | Uint32 | Uint64
| Int8 | Int16 | Int32 | Int64 | Int
| Float32 | Float64
| Bool.

Inductive error : Type :=
| EOF                                   (* io.EOF *)
| ErrUnexpectedEOF                      (* io.ErrUnexpectedEOF *)
| ErrInvalidType                        (* binary.Read / binary.Write on a Go int *)
| ErrUnsupportedType (kind : string)    (* "unsupported type: %s" *)
| ErrNilPointer                         (* "cannot encode nil pointer" *)
| ErrNotPointer                         (* "only pointers are supported for unmarshaling" *)
| ErrNilTarget                          (* "cannot unmarshal into nil pointer" *)
| ErrTrailing (remaining : nat)         (* "warning: %d bytes of data remaining ..." *)
| ErrValue (e : error)                  (* "error (un)marshaling value: %w" *)
| ErrField (name : string) (e : error)  (* "error encoding/decoding/(un)marshaling field %s: %w" *)
| ErrCustom (msg : string)              (* an error of a user codec *)
| Panic.                                (* a reflect panic: value and type disagree *)

Inductive result (A : Type) : Type :=
| Ok (a : A)
| Err (e : error).
Arguments Ok {A} a.
Arguments Err {A} e.

Definition bindR {A B} (r : result A) (k : A -> result B) : result B :=
  match r with
  | Ok a => k a
  | Err e => Err e
  end.

(** The insufficient-data errors of the decoder. *)
Definition insufficient (e : error) : bool :=
  match e with
  | EOF | ErrUnexpectedEOF => true
  | _ => false
  end.

(** ** The decode cursor: [bytes.Reader] *)

(** A [bytes.Reader] is its unread bytes; [buf.Len()] is their number. *)
Definition Reader : Type := list byte.

(** A decoding step returns its result and the reader it leaves. *)
Definition Dec (A : Type) : Type := Reader -> result A * Reader.

Definition ret {A} (a : A) : Dec A := fun r => (Ok a, r).
Definition fail {A} (e : error) : Dec A := fun r => (Err e, r).
Definition bindD {A B} (m : Dec A) (k : A -> Dec B) : Dec B :=
  fun r => match m r with
           | (Ok a, r') => k a r'
           | (Err e, r') => (Err e, r')
           end.

Declare Scope dec_scope.
Delimit Scope dec_scope with dec.
Notation "x <- m ;; k" := (bindD m (fun x => k))
  (at level 61, m at next level, right associativity) : dec_scope.

(** [data = make([]byte, n); _, err = buf.Read(data)]: at the end of the
    input [Read] answers [io.EOF], whatever [n] is; otherwise it copies the
    bytes there are, at most [n], and reports no error.  The buffer keeps
    its zero bytes where nothing was copied. *)
Definition Read (n : nat) : Dec (list byte) :=
  fun r => match r with
           | [] => (Err EOF, r)
           | _ => (Ok (firstn n r ++ repeat x00 (n - length r)), skipn n r)
           end.

(** [io.ReadFull] on [w > 0] bytes, as [binary.Read] calls it: [io.EOF] when
    nothing is left, [io.ErrUnexpectedEOF] (the rest consumed) when fewer
    than [w] bytes are left. *)
Definition ReadFull (w : nat) : Dec (list byte) :=
  fun r => match r with
           | [] => (Err EOF, r)
           | _ => if (length r <? w)%nat then (Err ErrUnexpectedEOF, [])
                  else (Ok (firstn w r), skipn w r)
           end.

(** [binary.Read(buf, binary.LittleEndian, &length)] for a [uint32]. *)
Definition read_uint32 : Dec Z :=
  (bs <- ReadFull 4 ;; ret (le_value bs))%dec.

(** [binary.Write(buf, binary.LittleEndian, length)] for a [uint32]. *)
Definition put_uint32 (n : Z) : list byte := le_bytes 4 n.

(** ** Length-tag resolver: [parseTag] *)

Module Tag.

Definition is_digit (c : ascii) : bool :=
  let n := nat_of_ascii c in (48 <=? n)%nat && (n <=? 57)%nat.

Definition digit (c : ascii) : Z := Z.of_nat (nat_of_ascii c) - 48.

Fixpoint parse_digits (s : string) (acc : Z) : option Z :=
  match s with
  | EmptyString => Some acc
  | String c s' =>
      if is_digit c then parse_digits s' (10 * acc + digit c) else None
  end.

(** [strconv.ParseUint(s, 10, 32)]: a non-empty run of decimal digits whose
    value fits 32 bits. *)
Definition ParseUint32 (s : string) : option Z :=
  match s with
  | EmptyString => None
  | _ => match parse_digits s 0 with
         | Some n => if n <? 2 ^ 32 then Some n else None
         | None => None
         end
  end.

(** [strings.Split(s, ":")]. *)
Fixpoint split_colon (s : string) : list string :=
  match s with
  | EmptyString => [EmptyString]
  | String c s' =>
      if Ascii.eqb c ":"%char then EmptyString :: split_colon s'
      else match split_colon s' with
           | p :: ps => String c p :: ps
           | [] => [String c EmptyString]
           end
  end.

(** [parseTag]: [None] stands for every error the function returns; its
    callers only test [err == nil]. *)
Definition parseTag (tag : string) : option Z :=
  if String.eqb tag "" then None
  else if String.eqb tag "-" then None
  else match ParseUint32 tag with
       | Some n => Some n
       | None =>
           if String.prefix "len:" tag then
             match split_colon tag with
             | [_; p] => ParseUint32 p
             | _ => None
             end
           else None
       end.

End Tag.
Export Tag.


(** ** Types and values

    A [reflect.Value] pairs a type with data.  The switches of the package
    look at the type only ([Kind()], [Type().Elem()], [Type().Len()], the
    struct's field table), so the two are kept apart: [ty] is the type,
    [value] the data.  Pairs that disagree cannot be built in Go; the
    functions answer [Panic] on them.

    A pointer owns its pointee, so the heap is a tree: recursive types and
    aliasing are outside the model.  A defined type is identified with its
    underlying type, except for struct types, which keep their name. *)

Inductive ty : Type :=
| TScalar (k : scalar)
| TString
| TSlice (e : ty)
| TArray (n : nat) (e : ty)
| TStruct (name : string) (fs : fields)
| TPtr (e : ty)
| TUnsupported (kind : string)          (* chan, func, map, interface, ... *)
with fields : Type :=
| FNil
| FCons (name : string) (exported : bool) (tag : string) (t : ty)
        (rest : fields).

Scheme ty_fields_ind := Induction for ty Sort Prop
  with fields_ty_ind := Induction for fields Sort Prop.
Combined Scheme ty_mutind from ty_fields_ind, fields_ty_ind.

(** Integers of every width are a [Z] in the range of their type; a float is
    its IEEE-754 bit pattern ([math.Float32bits], [math.Float64bits]), which
    is all [binary.Write] and [binary.Read] look at; a string is its bytes.
    [VSlice None] is the nil slice and [VPtr None] the nil pointer. *)
#[local] Set Warnings "-register-all".
Inductive value : Type :=
| VBool (b : bool)
| VInt (n : Z)
| VFloat (bits : Z)
| VString (s : list byte)
| VSlice (xs : option (list value))
| VArray (xs : list value)
| VStruct (vs : list value)
| VPtr (p : option value)
| VNone.

(** [reflect.Zero(t)], also what [reflect.New(t).Elem()] and the elements of
    [reflect.MakeSlice] hold. *)
Fixpoint zero (t : ty) : value :=
  match t with
  | TScalar Bool => VBool false
  | TScalar (Float32 | Float64) => VFloat 0
  | TScalar _ => VInt 0
  | TString => VString []
  | TSlice _ => VSlice None
  | TArray n e => VArray (repeat (zero e) n)
  | TStruct _ fs => VStruct (zeros fs)
  | TPtr _ => VPtr None
  | TUnsupported _ => VNone
  end
with zeros (fs : fields) : list value :=
  match fs with
  | FNil => []
  | FCons _ _ _ t rest => zero t :: zeros rest
  end.

(** [t.Elem().Kind() == reflect.Uint8] *)
Definition is_uint8 (t : ty) : bool :=
  match t with
  | TScalar Uint8 => true
  | _ => false
  end.

(** [field.Kind() == reflect.Struct] *)
Definition is_struct (t : ty) : bool :=
  match t with
  | TStruct _ _ => true
  | _ => false
  end.

(** [len(x)] as a Go [int]. *)
Definition len {A} (l : list A) : Z := Z.of_nat (length l).

(** The elements of a slice value; a nil slice has none. *)
Definition elems (xs : option (list value)) : list value :=
  match xs with
  | Some l => l
  | None => []
  end.

(** [field.Bytes()], and the loop [data[i] = byte(field.Index(i).Uint())]. *)
Definition bytes_of (xs : list value) : list byte :=
  map (fun v => match v with VInt n => byte_of_Z n | _ => x00 end) xs.

(** The [uint8] values of a byte buffer. *)
Definition values_of (bs : list byte) : list value :=
  map (fun b => VInt (Z_of_byte b)) bs.

(** [l[i] = x]; out of range Go panics, which well-typed calls never reach. *)
Fixpoint upd (i : nat) (x : value) (l : list value) : list value :=
  match l, i with
  | [], _ => []
  | _ :: l', O => x :: l'
  | y :: l', S i' => y :: upd i' x l'
  end.

(** ** Primitive codec: [binary.Write] and [binary.Read] on scalars *)

Definition width (k : scalar) : nat :=
  match k with
  | Uint8 | Int8 | Bool => 1
  | Uint16 | Int16 => 2
  | Uint32 | Int32 | Float32 => 4
  | Uint64 | Int64 | Float64 | Int => 8
  end%nat.

(** [binary.Write(buf, binary.LittleEndian, field.Interface())]: the bytes it
    appends.  The platform-sized [int] is not a fixed-size type for
    [encoding/binary], which refuses it. *)
Definition write_scalar (k : scalar) (v : value) : result (list byte) :=
  match k, v with
  | Int, VInt _ => Err ErrInvalidType
  | Bool, VBool b => Ok [if b then x01 else x00]
  | (Float32 | Float64), VFloat bits => Ok (le_bytes (width k) bits)
  | (Uint8 | Uint16 | Uint32 | Uint64 | Int8 | Int16 | Int32 | Int64), VInt n =>
      Ok (le_bytes (width k) n)
  | _, _ => Err Panic
  end.

(** [binary.Read(buf, binary.LittleEndian, field.Addr().Interface())] for the
    scalar kinds. *)
Definition read_scalar (k : scalar) : Dec value :=
  match k with
  | Int => fail ErrInvalidType
  | Bool => (bs <- ReadFull 1 ;; ret (VBool (negb (le_value bs =? 0))))%dec
  | Float32 | Float64 => (bs <- ReadFull (width k) ;; ret (VFloat (le_value bs)))%dec
  | Uint8 | Uint16 | Uint32 | Uint64 =>
      (bs <- ReadFull (width k) ;; ret (VInt (le_value bs)))%dec
  | Int8 | Int16 | Int32 | Int64 =>
      (bs <- ReadFull (width k) ;;
       ret (VInt (to_signed (width k) (le_value bs))))%dec
  end.

(** ** Variable-length codec: strings and byte sequences *)

(** The fixed framing of [encodeString] and [encodeBytes]: truncate to
    [length], or copy into a zeroed buffer of [length] bytes. *)
Definition fixed_payload (data : list byte) (length : Z) : list byte :=
  if uint32 (len data) >? length then firstn (Z.to_nat length) data
  else if uint32 (len data) <? length then
         firstn (Z.to_nat length) data
           ++ repeat x00 (Z.to_nat length - List.length data)
       else data.

(** [encodeBytes]: the bytes appended to the buffer ([buf.Write] on a
    [bytes.Buffer] does not fail). *)
Definition encodeBytes (b : list byte) (tag : string) : list byte :=
  let default := put_uint32 (uint32 (len b)) ++ b in
  if negb (String.eqb tag "") then
    match parseTag tag with
    | Some length => fixed_payload b length
    | None => default
    end
  else default.

(** [encodeString]: [data := []byte(s)], then the same steps. *)
Definition encodeString (s : list byte) (tag : string) : list byte :=
  let data := s in
  let default := put_uint32 (uint32 (len data)) ++ data in
  if negb (String.eqb tag "") then
    match parseTag tag with
    | Some length => fixed_payload data length
    | None => default
    end
  else default.

(** [bytes.TrimRight(data, "\x00")] *)
Fixpoint TrimRight_zeros (data : list byte) : list byte :=
  match data with
  | [] => []
  | b :: rest =>
      match TrimRight_zeros rest with
      | [] => if Byte.eqb b x00 then [] else [b]
      | rest' => b :: rest'
      end
  end.

(** The default framing on the decoding side: a length, then
    [make([]byte, length)] filled by [buf.Read]. *)
Definition read_prefixed : Dec (list byte) :=
  (length <- read_uint32 ;; Read (Z.to_nat length))%dec.

Definition decodeString (tag : string) : Dec value :=
  let default := (data <- read_prefixed ;; ret (VString data))%dec in
  if negb (String.eqb tag "") then
    match parseTag tag with
    | Some length =>
        (data <- Read (Z.to_nat length) ;;
         ret (VString (TrimRight_zeros data)))%dec
    | None => default
    end
  else default.

Definition decodeBytes (tag : string) : Dec value :=
  let default :=
    (data <- read_prefixed ;; ret (VSlice (Some (values_of data))))%dec in
  if negb (String.eqb tag "") then
    match parseTag tag with
    | Some length =>
        (data <- Read (Z.to_nat length) ;;
         ret (VSlice (Some (values_of data))))%dec
    | None => default
    end
  else default.

(** The two loops that end [decodeByteArray]: the first [copyLen] elements
    are set from [data], the others up to [arrayLen] to zero. *)
Definition fill_array (arrayLen : nat) (data : list byte) : value :=
  let copyLen := Nat.min (List.length data) arrayLen in
  VArray (values_of (firstn copyLen data)
            ++ repeat (VInt 0) (arrayLen - copyLen)).

Definition decodeByteArray (arrayLen : nat) (tag : string) : Dec value :=
  let default := (data <- read_prefixed ;; ret (fill_array arrayLen data))%dec in
  if negb (String.eqb tag "") then
    match parseTag tag with
    | Some length =>
        (data <- Read (Z.to_nat length) ;; ret (fill_array arrayLen data))%dec
    | None => default
    end
  else default.

(** ** Container codec: slices and arrays

    The element codec is the recursive call of the engine, handed over as
    [encElem] / [decElem] (always with the empty tag). *)

(** [for i := lo; i < lo + n; i++ { body }] over an encode buffer: the bytes
    the loop appends, or its first error. *)
Fixpoint forE (body : nat -> result (list byte)) (i n : nat)
  : result (list byte) :=
  match n with
  | O => Ok []
  | S n' => bindR (body i) (fun b =>
            bindR (forE body (S i) n') (fun bs => Ok (b ++ bs)))
  end.

(** The same loop on the decoding side, threading the container [s]. *)
Fixpoint forD {St : Type} (body : nat -> St -> Dec St) (i n : nat) (s : St)
  : Dec St :=
  match n with
  | O => ret s
  | S n' => (s' <- body i s ;; forD body (S i) n' s')%dec
  end.

Section Containers.

Variable encElem : value -> result (list byte).
Variable decElem : value -> Dec value.
(** [reflect.Zero(elemType)] *)
Variable zeroElem : value.

(** [encodeSlice] and [encodeArray] have the same body; [xs] holds the
    elements, [slice.Len()] or [array.Len()] of them. *)
Definition encodeSlice (xs : list value) (tag : string)
  : result (list byte) :=
  let default :=
    let length := uint32 (len xs) in
    bindR (forE (fun i => encElem (nth i xs zeroElem)) 0 (Z.to_nat length))
          (fun bs => Ok (put_uint32 length ++ bs)) in
  if negb (String.eqb tag "") then
    match parseTag tag with
    | Some length =>
        let sliceLen := uint32 (len xs) in
        forE (fun i => encElem (if Z.of_nat i <? sliceLen
                                then nth i xs zeroElem
                                else zeroElem))
             0 (Z.to_nat length)
    | None => default
    end
  else default.

Definition encodeArray := encodeSlice.

(** The element loop of [decodeSlice]: [elem := newSlice.Index(i)] is
    decoded in place. *)
Definition decodeSlice_loop (length : nat) : Dec value :=
  (newSlice <- forD (fun i s => x <- decElem (nth i s zeroElem) ;;
                                ret (upd i x s))
                    0 length (repeat zeroElem length) ;;
   ret (VSlice (Some newSlice)))%dec.

Definition decodeSlice (tag : string) : Dec value :=
  let default :=
    (length <- read_uint32 ;; decodeSlice_loop (Z.to_nat length))%dec in
  if negb (String.eqb tag "") then
    match parseTag tag with
    | Some length => decodeSlice_loop (Z.to_nat length)
    | None => default
    end
  else default.

(** The body of the first loop of [decodeArray], over the array [a] being
    decoded into: an element past [arrayLen] goes to a temporary. *)
Definition decodeArray_body (arrayLen : Z) (i : nat) (a : list value)
  : Dec (list value) :=
  if Z.of_nat i <? arrayLen
  then (x <- decElem (nth i a zeroElem) ;; ret (upd i x a))%dec
  else (_ <- decElem zeroElem ;; ret a)%dec.

(** The two loops of [decodeArray]; the second zeroes the positions from
    [length] on. *)
Definition decodeArray_loop (arrayLen : Z) (arr : list value) (length : Z)
  : Dec value :=
  (arr' <- forD (decodeArray_body arrayLen) 0 (Z.to_nat length) arr ;;
   ret (VArray (fold_left (fun a i => upd i zeroElem a)
                          (seq (Z.to_nat length)
                               (Z.to_nat arrayLen - Z.to_nat length))
                          arr')))%dec.

Definition decodeArray (n : nat) (arr : list value) (tag : string)
  : Dec value :=
  let arrayLen := uint32 (Z.of_nat n) in
  let default :=
    (length <- read_uint32 ;; decodeArray_loop arrayLen arr length)%dec in
  if negb (String.eqb tag "") then
    match parseTag tag with
    | Some length => decodeArray_loop arrayLen arr length
    | None => default
    end
  else default.

End Containers.

(** ** The engine

    The custom codec capability is a property of the dynamic type:
    [marshaler t] is the [MarshalBinary] method of [t] when [t] implements
    [BinaryMarshaler], [unmarshaler t] the [UnmarshalBinary] method when [t]
    implements [BinaryUnmarshaler].  A method is given by what it returns;
    [UnmarshalBinary] takes its receiver and returns the receiver it
    leaves. *)

Definition mapErr {A} (f : error -> error) (m : Dec A) : Dec A :=
  fun r => match m r with
           | (Ok a, r') => (Ok a, r')
           | (Err e, r') => (Err (f e), r')
           end.

Section Engine.

Variable marshaler : ty -> option (value -> result (list byte)).
Variable unmarshaler : ty -> option (list byte -> value -> result value).

(** [encodeField] and [encodeStruct]: the bytes appended to the buffer.
    The buffer is append-only and is dropped on an error, so the appended
    bytes are all a call contributes. *)
Fixpoint encodeField (t : ty) (v : value) (tag : string) {struct t}
  : result (list byte) :=
  match t with
  | TPtr e =>
      match v with
      | VPtr None => Err ErrNilPointer
      | VPtr (Some x) => encodeField e x tag
      | _ => Err Panic
      end
  | TScalar k => write_scalar k v
  | TString =>
      match v with
      | VString s => Ok (encodeString s tag)
      | _ => Err Panic
      end
  | TSlice e =>
      match v with
      | VSlice xs =>
          if is_uint8 e then Ok (encodeBytes (bytes_of (elems xs)) tag)
          else encodeSlice (fun x => encodeField e x "") (zero e)
                           (elems xs) tag
      | _ => Err Panic
      end
  | TArray _ e =>
      match v with
      | VArray xs =>
          if is_uint8 e then Ok (encodeBytes (bytes_of xs) tag)
          else encodeArray (fun x => encodeField e x "") (zero e) xs tag
      | _ => Err Panic
      end
  | TStruct _ fs =>
      match v with
      | VStruct vs => encodeStruct fs vs
      | _ => Err Panic
      end
  | TUnsupported kind => Err (ErrUnsupportedType kind)
  end
with encodeStruct (fs : fields) (vs : list value) {struct fs}
  : result (list byte) :=
  match fs, vs with
  | FNil, [] => Ok []
  | FCons name exported tag t rest, v :: vs' =>
      if negb exported then encodeStruct rest vs'
      else
        match marshaler t with
        | Some MarshalBinary =>
            match MarshalBinary v with
            | Err e => Err (ErrField name e)
            | Ok fieldData =>
                bindR (encodeStruct rest vs') (fun bs =>
                Ok (put_uint32 (uint32 (len fieldData)) ++ fieldData ++ bs))
            end
        | None =>
            if String.eqb tag "-" then encodeStruct rest vs'
            else
              match encodeField t v tag with
              | Err e => Err (ErrField name e)
              | Ok b => bindR (encodeStruct rest vs') (fun bs => Ok (b ++ bs))
              end
        end
  | _, _ => Err Panic
  end.

(** [Marshal]: [t] is the dynamic type of the argument. *)
Definition Marshal (t : ty) (v : value) : result (list byte) :=
  match marshaler t with
  | Some MarshalBinary => MarshalBinary v
  | None =>
      match encodeField t v "" with
      | Err e => Err (ErrValue e)
      | Ok b => Ok b
      end
  end.

(** [decodeField] and [decodeStruct]: [cur] is what the target holds when
    the call starts, the result what it holds when the call returns
    without an error.  What a failed call leaves in the target is not
    modelled. *)
Fixpoint decodeField (t : ty) (cur : value) (tag : string) {struct t}
  : Dec value :=
  match t with
  | TPtr e =>
      match cur with
      | VPtr None =>
          (x <- decodeField e (zero e) tag ;; ret (VPtr (Some x)))%dec
      | VPtr (Some c) =>
          (x <- decodeField e c tag ;; ret (VPtr (Some x)))%dec
      | _ => fail Panic
      end
  | TScalar Bool => fail (ErrUnsupportedType "bool")
  | TScalar k => read_scalar k
  | TString => decodeString tag
  | TSlice e =>
      if is_uint8 e then decodeBytes tag
      else decodeSlice (fun c => decodeField e c "") (zero e) tag
  | TArray n e =>
      if is_uint8 e then decodeByteArray n tag
      else
        match cur with
        | VArray arr =>
            decodeArray (fun c => decodeField e c "") (zero e) n arr tag
        | _ => fail Panic
        end
  | TStruct _ fs =>
      match cur with
      | VStruct vs => (vs' <- decodeStruct fs vs ;; ret (VStruct vs'))%dec
      | _ => fail Panic
      end
  | TUnsupported kind => fail (ErrUnsupportedType kind)
  end
with decodeStruct (fs : fields) (vs : list value) {struct fs}
  : Dec (list value) :=
  match fs, vs with
  | FNil, [] => ret []
  | FCons name exported tag t rest, v :: vs' =>
      if negb exported then
        (vs'' <- decodeStruct rest vs' ;; ret (v :: vs''))%dec
      else
        match (if is_struct t then unmarshaler (TPtr t) else None) with
        | Some UnmarshalBinary =>
            (length <- read_uint32 ;;
             data <- Read (Z.to_nat length) ;;
             match UnmarshalBinary data (VPtr (Some v)) with
             | Err e => fail (ErrField name e)
             | Ok (VPtr (Some v')) =>
                 vs'' <- decodeStruct rest vs' ;; ret (v' :: vs'')
             | Ok _ => fail Panic
             end)%dec
        | None =>
            if String.eqb tag "-" then
              (vs'' <- decodeStruct rest vs' ;; ret (v :: vs''))%dec
            else
              (v' <- mapErr (ErrField name) (decodeField t v tag) ;;
               vs'' <- decodeStruct rest vs' ;; ret (v' :: vs''))%dec
        end
  | _, _ => fail Panic
  end.

(** [UnmarshalPartial]: [t] and [v] are the dynamic type and the value of
    the argument; the answer is [remaining] with, in place of [err == nil],
    the value the argument holds afterwards. *)
Definition UnmarshalPartial (data : list byte) (t : ty) (v : value)
  : nat * result value :=
  match unmarshaler t with
  | Some UnmarshalBinary => (O, UnmarshalBinary data v)
  | None =>
      match t with
      | TPtr e =>
          match v with
          | VPtr None => (length data, Err ErrNilTarget)
          | VPtr (Some elem) =>
              match decodeField e elem "" data with
              | (Err err, buf) => (length buf, Err (ErrValue err))
              | (Ok elem', buf) => (length buf, Ok (VPtr (Some elem')))
              end
          | _ => (length data, Err Panic)
          end
      | _ => (length data, Err ErrNotPointer)
      end
  end.

Definition Unmarshal (data : list byte) (t : ty) (v : value)
  : result value :=
  match UnmarshalPartial data t v with
  | (_, Err err) => Err err
  | (remaining, Ok v') =>
      if (0 <? remaining)%nat then Err (ErrTrailing remaining) else Ok v'
  end.

End Engine.

(** ** Instances of the custom codec capability *)

(** No type implements [BinaryMarshaler] / [BinaryUnmarshaler]. *)
Definition no_marshaler : ty -> option (value -> result (list byte)) :=
  fun _ => None.
Definition no_unmarshaler
  : ty -> option (list byte -> value -> result value) :=
  fun _ => None.

(** The bytes of an ASCII string literal. *)
Definition bytes (s : string) : list byte := list_byte_of_string s.

(** [CustomType] of the package's tests: [MarshalBinary] has a value
    receiver, so [CustomType] and [*CustomType] both implement
    [BinaryMarshaler]; [UnmarshalBinary] has a pointer receiver, so only
    [*CustomType] implements [BinaryUnmarshaler]. *)
Module TestCustom.

Definition CustomType : ty :=
  TStruct "CustomType" (FCons "Value" true "" TString FNil).

Definition is_CustomType (t : ty) : bool :=
  match t with
  | TStruct name _ => String.eqb name "CustomType"
  | _ => false
  end.

(** [return []byte("custom:" + c.Value), nil] *)
Definition MarshalBinary (c : value) : result (list byte) :=
  match c with
  | VStruct [VString Value]
  | VPtr (Some (VStruct [VString Value])) => Ok (bytes "custom:" ++ Value)
  | _ => Err Panic
  end.

Fixpoint bytes_eqb (a b : list byte) : bool :=
  match a, b with
  | [], [] => true
  | x :: a', y :: b' => Byte.eqb x y && bytes_eqb a' b'
  | _, _ => false
  end.

(** [if len(data) < 7 || string(data[:7]) != "custom:" { return nil }],
    then [c.Value = string(data[7:])]. *)
Definition UnmarshalBinary (data : list byte) (c : value) : result value :=
  match c with
  | VPtr (Some (VStruct [VString _])) =>
      if (len data <? 7) || negb (bytes_eqb (firstn 7 data) (bytes "custom:"))
      then Ok c
      else Ok (VPtr (Some (VStruct [VString (skipn 7 data)])))
  | _ => Err Panic
  end.

Definition marshaler (t : ty) : option (value -> result (list byte)) :=
  match t with
  | TPtr e => if is_CustomType e then Some MarshalBinary else None
  | _ => if is_CustomType t then Some MarshalBinary else None
  end.

Definition unmarshaler (t : ty)
  : option (list byte -> value -> result value) :=
  match t with
  | TPtr e => if is_CustomType e then Some UnmarshalBinary else None
  | _ => None
  end.

(** [CustomType] of the README: there [MarshalBinary] has a pointer
    receiver, so only [*CustomType] implements [BinaryMarshaler]. *)
Definition readme_marshaler (t : ty)
  : option (value -> result (list byte)) :=
  match t with
  | TPtr e => if is_CustomType e then Some MarshalBinary else None
  | _ => None
  end.

End TestCustom.

(** ** Values of a type

    [in_range k v]: [v] is a value of the scalar kind [k]. *)
Definition in_range (k : scalar) (v : value) : bool :=
  match k, v with
  | Bool, VBool _ => true
  | (Float32 | Float64), VFloat bits =>
      (0 <=? bits) && (bits <? 2 ^ (8 * Z.of_nat (width k)))
  | (Uint8 | Uint16 | Uint32 | Uint64), VInt n =>
      (0 <=? n) && (n <? 2 ^ (8 * Z.of_nat (width k)))
  | (Int8 | Int16 | Int32 | Int64 | Int), VInt n =>
      (- 2 ^ (8 * Z.of_nat (width k) - 1) <=? n)
      && (n <? 2 ^ (8 * Z.of_nat (width k) - 1))
  | _, _ => false
  end.

(** [has_type t v]: [v] is a value of type [t], and every string and slice
    in it is shorter than [2^32], the most a 4-byte length or count can
    say. *)
Fixpoint has_type (t : ty) (v : value) : bool :=
  match t, v with
  | TScalar k, _ => in_range k v
  | TString, VString s => len s <? 2 ^ 32
  | TSlice e, VSlice xs =>
      (len (elems xs) <? 2 ^ 32) && forallb (has_type e) (elems xs)
  | TArray n e, VArray xs =>
      (length xs =? n)%nat && forallb (has_type e) xs
  | TStruct _ fs, VStruct vs => have_types fs vs
  | TPtr e, VPtr None => true
  | TPtr e, VPtr (Some x) => has_type e x
  | TUnsupported _, VNone => true
  | _, _ => false
  end
with have_types (fs : fields) (vs : list value) : bool :=
  match fs, vs with
  | FNil, [] => true
  | FCons _ _ _ t rest, v :: vs' => has_type t v && have_types rest vs'
  | _, _ => false
  end.

(** The scalar kinds [encoding/binary] lays out and [decodeField] sends to
    [binary.Read]. *)
Definition fixed_width (k : scalar) : bool :=
  match k with
  | Bool | Int => false
  | _ => true
  end.

(** The integer [binary.Write] lays out for a scalar value. *)
Definition raw (v : value) : Z :=
  match v with
  | VInt n => n
  | VFloat bits => bits
  | VBool b => if b then 1 else 0
  | _ => 0
  end.

(** ** Types of the package's tests and examples *)

Module Samples.

(** [struct { A uint32; B int16; C uint8 }] *)
Definition SimpleStruct : ty :=
  TStruct "SimpleStruct"
    (FCons "A" true "" (TScalar Uint32)
    (FCons "B" true "" (TScalar Int16)
    (FCons "C" true "" (TScalar Uint8) FNil))).

(** A struct with the one exported field [name] of type [t], tagged
    [binary:"tag"]. *)
Definition one_field (name tag : string) (t : ty) : ty :=
  TStruct "TestStruct" (FCons name true tag t FNil).

(** [struct { Data T `binary:"-"`; Number uint32; Name string }] of the
    ignore-tag tests. *)
Definition IgnoreStruct (t : ty) : ty :=
  TStruct "TestStruct"
    (FCons "Data" true "-" t
    (FCons "Number" true "" (TScalar Uint32)
    (FCons "Name" true "" TString FNil))).

(** [struct { Custom CustomType `binary:"tag"`; Number uint32 }] *)
Definition StructWithCustomType (tag : string) : ty :=
  TStruct "StructWithCustomType"
    (FCons "Custom" true tag TestCustom.CustomType
    (FCons "Number" true "" (TScalar Uint32) FNil)).

(** [struct { a uint32; B uint32 }], the first field unexported. *)
Definition Hidden : ty :=
  TStruct "Hidden"
    (FCons "a" false "" (TScalar Uint32)
    (FCons "B" true "" (TScalar Uint32) FNil)).

Definition ints (l : list Z) : list value := map VInt l.

End Samples.

(** ** Field tables *)

(** The fields of [fs1] followed by those of [fs2]. *)
Fixpoint fapp (fs1 fs2 : fields) : fields :=
  match fs1 with
  | FNil => fs2
  | FCons name exported tag t rest => FCons name exported tag t (fapp rest fs2)
  end.

(** [NumField()] *)
Fixpoint NumField (fs : fields) : nat :=
  match fs with
  | FNil => O
  | FCons _ _ _ _ rest => S (NumField rest)
  end.

(** What a decoding step answers once its result is post-processed by [f]. *)
Definition mapOk {A B} (f : A -> B) (x : result A * Reader)
  : result B * Reader :=
  match x with
  | (Ok a, r) => (Ok (f a), r)
  | (Err e, r) => (Err e, r)
  end.

(** ** Sequences, as the specification words them *)

(** The encodings of the elements of [l], one after the other, or the
    first error. *)
Fixpoint encode_all (enc : value -> result (list byte)) (l : list value)
  : result (list byte) :=
  match l with
  | [] => Ok []
  | x :: l' => bindR (enc x) (fun b =>
               bindR (encode_all enc l') (fun bs => Ok (b ++ bs)))
  end.

(** Decoding one element after the other from the cursor, the [i]-th into
    the [i]-th target; the decoded elements in order, or the first error. *)
Fixpoint decode_all (dec : value -> Dec value) (targets : list value)
  : Dec (list value) :=
  match targets with
  | [] => ret []
  | c :: cs => (x <- dec c ;; xs <- decode_all dec cs ;; ret (x :: xs))%dec
  end.

(** Exactly [n] elements: the first [min n (length xs)] elements of [xs],
    then the zero value [z]. *)
Definition fixed_elems (n : nat) (xs : list value) (z : value) : list value :=
  firstn n xs ++ repeat z (n - length xs).

(** ** What a round trip yields

    [skipped exported tag]: the field is passed over by both walkers
    (unexported, or tagged "-"). *)
Definition skipped (exported : bool) (tag : string) : bool :=
  negb exported || String.eqb tag "-".

(** The types the round-trip theorems cover: fixed-width integers and
    floats (not [bool], which the decoder lacks, nor the platform [int],
    which [encoding/binary] refuses), strings, slices, arrays shorter than
    [2^32], pointers, and structs whose fields are such types or are
    skipped. *)
Fixpoint plain (t : ty) : bool :=
  match t with
  | TScalar k => fixed_width k
  | TString => true
  | TSlice e => plain e
  | TArray n e => (Z.of_nat n <? 2 ^ 32) && plain e
  | TStruct _ fs => plain_fields fs
  | TPtr e => plain e
  | TUnsupported _ => false
  end
with plain_fields (fs : fields) : bool :=
  match fs with
  | FNil => true
  | FCons _ exported tag t rest =>
      (skipped exported tag || plain t) && plain_fields rest
  end.

Fixpoint zipWith {A B C} (f : A -> B -> C) (l1 : list A) (l2 : list B)
  : list C :=
  match l1, l2 with
  | a :: l1', b :: l2' => f a b :: zipWith f l1' l2'
  | _, _ => []
  end.

(** [expected t tag cur v]: what a target of type [t] that held [cur] holds
    after decoding, under [tag], the bytes [v] was encoded to under [tag].
    - a string under a tag [n] is cut or zero-padded to [n] bytes and then
      loses its trailing zero bytes; a byte slice keeps them;
    - a byte array is refilled from the bytes written, zero past them;
    - a slice comes back non-nil, under a tag [n] with exactly [n]
      elements;
    - an array receives the elements written while it has slots and is
      zero from position [n] on;
    - a skipped field keeps what the target held;
    - a nil pointer target is allocated. *)
Fixpoint expected (t : ty) (tag : string) (cur v : value) : value :=
  match t with
  | TScalar _ => v
  | TString =>
      match parseTag tag, v with
      | Some n, VString s => VString (TrimRight_zeros (fixed_payload s n))
      | _, _ => v
      end
  | TSlice e =>
      match v with
      | VSlice xs =>
          if is_uint8 e then
            match parseTag tag with
            | Some n =>
                VSlice (Some (values_of
                                (fixed_payload (bytes_of (elems xs)) n)))
            | None => VSlice (Some (values_of (bytes_of (elems xs))))
            end
          else
            match parseTag tag with
            | Some n =>
                VSlice (Some (map (expected e "" (zero e))
                                  (fixed_elems (Z.to_nat n) (elems xs)
                                               (zero e))))
            | None => VSlice (Some (map (expected e "" (zero e)) (elems xs)))
            end
      | _ => v
      end
  | TArray N e =>
      match cur, v with
      | VArray cs, VArray xs =>
          if is_uint8 e then
            match parseTag tag with
            | Some n => fill_array N (fixed_payload (bytes_of xs) n)
            | None => fill_array N (bytes_of xs)
            end
          else
            match parseTag tag with
            | Some n =>
                VArray (firstn N (zipWith (expected e "")
                                    (fixed_elems (Z.to_nat n) cs (zero e))
                                    (fixed_elems (Z.to_nat n) xs (zero e)))
                          ++ repeat (zero e) (N - Z.to_nat n))
            | None => VArray (zipWith (expected e "") cs xs)
            end
      | _, _ => v
      end
  | TStruct _ fs =>
      match cur, v with
      | VStruct cs, VStruct vs => VStruct (expected_fields fs cs vs)
      | _, _ => v
      end
  | TPtr e =>
      match v with
      | VPtr (Some x) =>
          VPtr (Some (expected e tag
                        (match cur with VPtr (Some c) => c | _ => zero e end)
                        x))
      | _ => v
      end
  | TUnsupported _ => v
  end
with expected_fields (fs : fields) (cs vs : list value) : list value :=
  match fs, cs, vs with
  | FCons _ exported tag t rest, c :: cs', v :: vs' =>
      (if skipped exported tag then c else expected t tag c v)
        :: expected_fields rest cs' vs'
  | _, _, _ => []
  end.

Definition is_nil {A} (l : list A) : bool :=
  match l with
  | [] => true
  | _ => false
  end.

(** [solid t tag v]: encoded under [tag], [v] holds no empty payload: no
    empty string or byte sequence, no byte field of fixed length zero.
    Decoding such a value never asks [buf.Read] for zero bytes. *)
Fixpoint solid (t : ty) (tag : string) (v : value) : bool :=
  match t with
  | TScalar _ => true
  | TString =>
      match parseTag tag, v with
      | Some n, _ => 0 <? n
      | None, VString s => negb (is_nil s)
      | None, _ => false
      end
  | TSlice e =>
      match v with
      | VSlice xs =>
          if is_uint8 e then
            match parseTag tag with
            | Some n => 0 <? n
            | None => negb (is_nil (elems xs))
            end
          else
            match parseTag tag with
            | Some n => forallb (solid e "")
                                (fixed_elems (Z.to_nat n) (elems xs) (zero e))
            | None => forallb (solid e "") (elems xs)
            end
      | _ => false
      end
  | TArray N e =>
      match v with
      | VArray xs =>
          if is_uint8 e then
            match parseTag tag with
            | Some n => 0 <? n
            | None => negb (is_nil xs)
            end
          else
            match parseTag tag with
            | Some n => forallb (solid e "")
                                (fixed_elems (Z.to_nat n) xs (zero e))
            | None => forallb (solid e "") xs
            end
      | _ => false
      end
  | TStruct _ fs =>
      match v with
      | VStruct vs => solid_fields fs vs
      | _ => false
      end
  | TPtr e =>
      match v with
      | VPtr (Some x) => solid e tag x
      | _ => false
      end
  | TUnsupported _ => false
  end
with solid_fields (fs : fields) (vs : list value) : bool :=
  match fs, vs with
  | FNil, _ => true
  | FCons _ exported tag t rest, v :: vs' =>
      (skipped exported tag || solid t tag v) && solid_fields rest vs'
  | _, _ => false
  end.

(** [exact t v]: nothing in [v] is lost or normalised by a round trip: no
    nil slice, no nil pointer, no skipped field, no tag that resolves to a
    length. *)
Fixpoint exact (t : ty) (v : value) : bool :=
  match t, v with
  | TScalar _, _ => true
  | TString, _ => true
  | TSlice e, VSlice (Some xs) => forallb (exact e) xs
  | TArray _ e, VArray xs => forallb (exact e) xs
  | TStruct _ fs, VStruct vs => exact_fields fs vs
  | TPtr e, VPtr (Some x) => exact e x
  | _, _ => false
  end
with exact_fields (fs : fields) (vs : list value) : bool :=
  match fs, vs with
  | FNil, _ => true
  | FCons _ exported tag t rest, v :: vs' =>
      negb (skipped exported tag)
      && match parseTag tag with None => true | Some _ => false end
      && exact t v && exact_fields rest vs'
  | _, _ => false
  end.

(** A record with every kind of field the round trip treats differently:
    [struct { A uint32; B int16; Name string; Data []uint32 `binary:"5"`;
    Code string `binary:"4"`; hidden uint8; Skip []byte `binary:"-"`;
    Next *[2]uint16 }]. *)
Definition Mixed : ty :=
  TStruct "Mixed"
    (FCons "A" true "" (TScalar Uint32)
    (FCons "B" true "" (TScalar Int16)
    (FCons "Name" true "" TString
    (FCons "Data" true "5" (TSlice (TScalar Uint32))
    (FCons "Code" true "4" TString
    (FCons "hidden" false "" (TScalar Uint8)
    (FCons "Skip" true "-" (TSlice (TScalar Uint8))
    (FCons "Next" true "" (TPtr (TArray 2 (TScalar Uint16))) FNil)))))))).

Definition mixed_value : value :=
  VStruct [VInt 12345; VInt (-100); VString (bytes "hello");
           VSlice (Some (map VInt [1; 2; 3]));
           VString (bytes "ab");
           VInt 9;
           VSlice (Some (map VInt [1; 2]));
           VPtr (Some (VArray (map VInt [7; 8])))].

(** What [mixed_value] comes back as in a zero target. *)
Definition mixed_back : value :=
  VStruct [VInt 12345; VInt (-100); VString (bytes "hello");
           VSlice (Some (map VInt [1; 2; 3; 0; 0]));
           VString (bytes "ab");
           VInt 0;
           VSlice None;
           VPtr (Some (VArray (map VInt [7; 8])))].

(** The bytes [Marshal] lays out for [mixed_value]. *)
Definition mixed_bytes : list byte :=
  le_bytes 4 12345 ++ le_bytes 2 (2 ^ 16 - 100)
    ++ put_uint32 5 ++ bytes "hello"
    ++ le_bytes 4 1 ++ le_bytes 4 2 ++ le_bytes 4 3
    ++ le_bytes 4 0 ++ le_bytes 4 0
    ++ bytes "ab" ++ [x00; x00]
    ++ put_uint32 2 ++ le_bytes 2 7 ++ le_bytes 2 8.

(** [struct { Name string; Numbers []int32; Pair [2]uint8 }], no tag. *)
Definition Plain3 : ty :=
  TStruct "Plain3"
    (FCons "Name" true "" TString
    (FCons "Numbers" true "" (TSlice (TScalar Int32))
    (FCons "Pair" true "" (TArray 2 (TScalar Uint8)) FNil))).

Definition plain3_value : value :=
  VStruct [VString (bytes "hello");
           VSlice (Some (map VInt [1; -2; 3]));
           VArray (map VInt [4; 5])].

(** [struct { Name string; Tags []string `binary:"3"`; N uint32 }] with an
    empty [Name] and one tag: empty strings, none of them read last. *)
Definition Loose : ty :=
  TStruct "Loose"
    (FCons "Name" true "" TString
    (FCons "Tags" true "3" (TSlice TString)
    (FCons "N" true "" (TScalar Uint32) FNil))).

Definition loose_value : value :=
  VStruct [VString []; VSlice (Some [VString (bytes "a")]); VInt 7].

(** The bytes [Marshal] lays out for [loose_value]. *)
Definition loose_bytes : list byte :=
  put_uint32 0
    ++ (put_uint32 1 ++ bytes "a") ++ put_uint32 0 ++ put_uint32 0
    ++ le_bytes 4 7.

(** [struct { Names []string `binary:"3"` }] holding ["a", "b"]: the third
    element written is an empty string, and it is read last. *)
Definition Padded : ty :=
  TStruct "Padded" (FCons "Names" true "3" (TSlice TString) FNil).

Definition padded_value : value :=
  VStruct [VSlice (Some [VString (bytes "a"); VString (bytes "b")])].

Definition padded_bytes : list byte :=
  (put_uint32 1 ++ bytes "a") ++ (put_uint32 1 ++ bytes "b") ++ put_uint32 0.

(** ** The cursor only advances *)

(** [advances d]: whatever [d] answers, the reader it leaves is what is left
    of the reader it was given after some bytes were consumed. *)
Definition advances {A} (d : Dec A) : Prop :=
  forall r : Reader, exists consumed, r = consumed ++ snd (d r).

(** ** What a successful step returns *)

(** [yields P d]: every value [d] returns without an error satisfies [P]. *)
Definition yields {A} (P : A -> Prop) (d : Dec A) : Prop :=
  forall (r : Reader) (a : A) (r' : Reader), d r = (Ok a, r') -> P a.


(** ** Where the round trip holds

    [buf.Read] answers [io.EOF] when it is called at the end of the input,
    also for a buffer of zero bytes.  The decoders of strings and byte
    sequences call it for every payload, so an empty payload can only be
    read while bytes follow it.  What decides is the last read the decoder
    makes on the bytes of a value. *)
Inductive last_read : Type :=
| NoRead       (* no byte is written for the value and nothing is read *)
| EmptyRead    (* the last read is [buf.Read] for a payload of zero bytes *)
| FullRead.    (* the last read takes at least one byte *)

(** The last read of two steps, [a] before [b]. *)
Definition then_read (a b : last_read) : last_read :=
  match b with
  | NoRead => a
  | _ => b
  end.

(** The last read of a sequence of steps. *)
Fixpoint reads_of (l : list last_read) : last_read :=
  match l with
  | [] => NoRead
  | a :: l' => then_read a (reads_of l')
  end.

(** The read of a payload of [n] bytes. *)
Definition payload_read (n : Z) : last_read :=
  if 0 <? n then FullRead else EmptyRead.

(** [ending t tag v]: the last read of [decodeField] on the bytes
    [encodeField] writes for [v] under [tag].  A string or a byte sequence
    is a payload of the tag's length, or of its own length after the count
    when there is no tag; a scalar and the count of a sequence are reads of
    at least one byte; a sequence under a tag [n] is its [n] elements (the
    padding included) and a record its fields that are not skipped. *)
Fixpoint ending (t : ty) (tag : string) (v : value) : last_read :=
  match t with
  | TScalar _ => FullRead
  | TString =>
      match v with
      | VString s =>
          payload_read match parseTag tag with
                       | Some n => n
                       | None => len s
                       end
      | _ => NoRead
      end
  | TSlice e =>
      match v with
      | VSlice xs =>
          if is_uint8 e then
            payload_read match parseTag tag with
                         | Some n => n
                         | None => len (elems xs)
                         end
          else
            match parseTag tag with
            | Some n =>
                reads_of (map (ending e "")
                              (fixed_elems (Z.to_nat n) (elems xs) (zero e)))
            | None =>
                then_read FullRead (reads_of (map (ending e "") (elems xs)))
            end
      | _ => NoRead
      end
  | TArray _ e =>
      match v with
      | VArray xs =>
          if is_uint8 e then
            payload_read match parseTag tag with
                         | Some n => n
                         | None => len xs
                         end
          else
            match parseTag tag with
            | Some n =>
                reads_of (map (ending e "")
                              (fixed_elems (Z.to_nat n) xs (zero e)))
            | None => then_read FullRead (reads_of (map (ending e "") xs))
            end
      | _ => NoRead
      end
  | TStruct _ fs =>
      match v with
      | VStruct vs => ending_fields fs vs
      | _ => NoRead
      end
  | TPtr e =>
      match v with
      | VPtr (Some x) => ending e tag x
      | _ => NoRead
      end
  | TUnsupported _ => NoRead
  end
with ending_fields (fs : fields) (vs : list value) : last_read :=
  match fs, vs with
  | FCons _ exported tag t rest, v :: vs' =>
      then_read (if skipped exported tag then NoRead else ending t tag v)
                (ending_fields rest vs')
  | _, _ => NoRead
  end.

(** [ends_empty t tag v]: the bytes of [v] end with an empty payload: the
    last string or byte sequence in them has no byte (it is empty, or its
    tag has length zero, or it pads a sequence under a tag) and no byte is
    written after it. *)
Definition ends_empty (t : ty) (tag : string) (v : value) : bool :=
  match ending t tag v with
  | EmptyRead => true
  | _ => false
  end.

(** ** Where the custom codecs are consulted *)

Definition no_codec {A} (o : option A) : bool :=
  match o with
  | None => true
  | Some _ => false
  end.

Section CodecFree.

Variable marshaler : ty -> option (value -> result (list byte)).
Variable unmarshaler : ty -> option (list byte -> value -> result value).

(** [codec_free t]: inside a value of type [t] the two walkers meet no
    custom codec.  [encodeStruct] asks every exported field for
    [BinaryMarshaler], before it reads the tag; [decodeStruct] asks a
    pointer to every exported field of struct kind for [BinaryUnmarshaler],
    before it reads the tag; the elements of slices and arrays and the
    target of a pointer are not asked.  The fields both skip ("-" without
    codec, unexported) are not entered. *)
Fixpoint codec_free (t : ty) : bool :=
  match t with
  | TSlice e => codec_free e
  | TArray _ e => codec_free e
  | TPtr e => codec_free e
  | TStruct _ fs => codec_free_fields fs
  | _ => true
  end
with codec_free_fields (fs : fields) : bool :=
  match fs with
  | FNil => true
  | FCons _ exported tag t rest =>
      (negb exported
       || (no_codec (marshaler t)
           && (negb (is_struct t) || no_codec (unmarshaler (TPtr t)))
           && (String.eqb tag "-" || codec_free t)))
      && codec_free_fields rest
  end.

End CodecFree.

(** ** Fixed-width elements on the wire *)

(** The bytes of a sequence of scalars of kind [k], one after the other. *)
Definition layout (k : scalar) (vals : list value) : list byte :=
  flat_map (fun x => le_bytes (width k) (raw x)) vals.
(** * Properties *)

(** The cases of the package's own [TestParseTag], and a value past 32 bits. *)
Example parseTag_tests :
  parseTag "" = None /\ parseTag "-" = None /\ parseTag "10" = Some 10 /\
  parseTag "len:20" = Some 20 /\ parseTag "len:abc" = None /\
  parseTag "invalid" = None /\ parseTag "4294967296" = None.
Proof. repeat split; reflexivity. Qed.

(** ** Little-endian integers *)

Lemma Z_of_byte_range b : 0 <= Z_of_byte b < 256.
Proof.
  unfold Z_of_byte. pose proof (Byte.to_N_bounded b). lia.
Qed.

Lemma Z_of_byte_of_Z z : Z_of_byte (byte_of_Z z) = z mod 256.
Proof.
  unfold Z_of_byte, byte_of_Z.
  assert (Hr : 0 <= z mod 256 < 256) by (apply Z.mod_pos_bound; lia).
  destruct (Byte.of_N (Z.to_N (z mod 256))) as [b|] eqn:E.
  - apply Byte.to_of_N in E. rewrite E. lia.
  - apply Byte.of_N_None_iff in E. lia.
Qed.

Lemma byte_of_Z_of_byte b : byte_of_Z (Z_of_byte b) = b.
Proof.
  unfold byte_of_Z, Z_of_byte.
  pose proof (Byte.to_N_bounded b).
  rewrite Z.mod_small by lia.
  rewrite N2Z.id, Byte.of_to_N. reflexivity.
Qed.

Lemma lor_shiftl_add a b : 0 <= a < 256 -> Z.lor a (Z.shiftl b 8) = a + 256 * b.
Proof.
  intros Ha.
  rewrite Z.shiftl_mul_pow2 by lia.
  change (2 ^ 8) with 256.
  rewrite <- Z.lxor_lor, <- Z.add_nocarry_lxor; try lia.
  all: apply Z.bits_inj'; intros n Hn; rewrite Z.land_spec, Z.bits_0;
    destruct (Z.ltb_spec n 8).
  all: try (replace (b * 256) with (b * 2 ^ 8) by lia; rewrite Z.mul_pow2_bits_low by lia; apply andb_false_r).
  all: replace a with (a mod 2 ^ 8) by (apply Z.mod_small; lia);
       rewrite Z.mod_pow2_bits_high by lia; reflexivity.
Qed.

Lemma le_value_cons b bs : le_value (b :: bs) = Z_of_byte b + 256 * le_value bs.
Proof. simpl. apply lor_shiftl_add, Z_of_byte_range. Qed.

Lemma le_bytes_length w n : length (le_bytes w n) = w.
Proof. revert n; induction w; simpl; intros; auto. Qed.

Lemma le_value_le_bytes w n : le_value (le_bytes w n) = n mod 2 ^ (8 * Z.of_nat w).
Proof.
  revert n. induction w as [|w IH]; intros n.
  - simpl. rewrite Z.mod_1_r. reflexivity.
  - cbn [le_bytes]. rewrite le_value_cons, Z_of_byte_of_Z, IH.
    rewrite Z.shiftr_div_pow2 by lia. change (2 ^ 8) with 256.
    replace (8 * Z.of_nat (S w)) with (8 + 8 * Z.of_nat w) by lia.
    rewrite Z.pow_add_r by lia. change (2 ^ 8) with 256.
    rewrite Z.rem_mul_r by lia. reflexivity.
Qed.

Lemma le_value_range bs : 0 <= le_value bs < 2 ^ (8 * len bs).
Proof.
  induction bs as [|b bs IH]; unfold len in *.
  - simpl. lia.
  - rewrite le_value_cons. pose proof (Z_of_byte_range b).
    replace (8 * Z.of_nat (length (b :: bs))) with (8 + 8 * Z.of_nat (length bs)) by (simpl length; lia).
    rewrite Z.pow_add_r by lia. change (2 ^ 8) with 256. lia.
Qed.

Lemma to_signed_mod w n : (0 < w)%nat ->
  - 2 ^ (8 * Z.of_nat w - 1) <= n < 2 ^ (8 * Z.of_nat w - 1) ->
  to_signed w (n mod 2 ^ (8 * Z.of_nat w)) = n.
Proof.
  intros Hw Hn. unfold to_signed.
  assert (E : 2 ^ (8 * Z.of_nat w) = 2 * 2 ^ (8 * Z.of_nat w - 1)).
  { rewrite <- Z.pow_succ_r by lia. f_equal. lia. }
  destruct (Z.ltb_spec (n mod 2 ^ (8 * Z.of_nat w)) (2 ^ (8 * Z.of_nat w - 1))) as [H|H].
  - destruct (Z.neg_nonneg_cases n) as [Hneg|Hpos].
    + exfalso. rewrite <- (Z.mod_add n 1) in H by lia.
      rewrite Z.mod_small in H by lia. lia.
    + apply Z.mod_small. lia.
  - destruct (Z.neg_nonneg_cases n) as [Hneg|Hpos].
    + rewrite <- (Z.mod_add n 1) by lia. rewrite Z.mod_small by lia. lia.
    + rewrite Z.mod_small in H by lia. lia.
Qed.

(** ** The reader *)

Lemma ReadFull_app (w : nat) (bs rest : list byte) :
  length bs = w -> (0 < w)%nat ->
  ReadFull w (bs ++ rest) = (Ok bs, rest).
Proof.
  intros Hl Hw. unfold ReadFull.
  destruct (bs ++ rest) eqn:E.
  - destruct bs; simpl in *; [lia | discriminate].
  - rewrite <- E. rewrite length_app.
    destruct (Nat.ltb_spec (length bs + length rest) w); [lia|].
    rewrite <- Hl, firstn_app, firstn_all, Nat.sub_diag, firstn_O, app_nil_r.
    rewrite skipn_app, skipn_all, Nat.sub_diag. reflexivity.
Qed.

Lemma ReadFull_short (w : nat) (r : list byte) :
  (length r < w)%nat ->
  exists e r', ReadFull w r = (Err e, r') /\ insufficient e = true.
Proof.
  intros H. unfold ReadFull. destruct r as [|b r].
  - exists EOF, []. auto.
  - destruct (Nat.ltb_spec (length (b :: r)) w); [|lia].
    exists ErrUnexpectedEOF, []. auto.
Qed.

Lemma ReadFull_enough (w : nat) (r : list byte) :
  (0 < w <= length r)%nat ->
  ReadFull w r = (Ok (firstn w r), skipn w r).
Proof.
  intros H. unfold ReadFull. destruct r as [|b r]; [simpl in H; lia|].
  destruct (Nat.ltb_spec (length (b :: r)) w); [lia | reflexivity].
Qed.

Lemma Read_app (n : nat) (bs rest : list byte) :
  length bs = n -> bs ++ rest <> [] ->
  Read n (bs ++ rest) = (Ok bs, rest).
Proof.
  intros Hl Hne. unfold Read.
  destruct (bs ++ rest) eqn:E; [congruence|].
  rewrite <- E, length_app, <- Hl.
  rewrite firstn_app, firstn_all, Nat.sub_diag, firstn_O, app_nil_r.
  replace (length bs - (length bs + length rest))%nat with O by lia.
  rewrite skipn_app, skipn_all, Nat.sub_diag. simpl. rewrite app_nil_r.
  reflexivity.
Qed.

Lemma read_uint32_put (n : Z) (rest : list byte) :
  0 <= n < 2 ^ 32 ->
  read_uint32 (put_uint32 n ++ rest) = (Ok n, rest).
Proof.
  intros H. unfold read_uint32, put_uint32, bindD.
  rewrite ReadFull_app by (try apply le_bytes_length; lia).
  unfold ret. rewrite le_value_le_bytes. change (8 * Z.of_nat 4) with 32.
  rewrite Z.mod_small by lia. reflexivity.
Qed.

(** ** Primitive codec *)

Lemma width_pos k : (0 < width k)%nat.
Proof. destruct k; simpl; lia. Qed.

Lemma write_scalar_ok (k : scalar) (v : value) :
  k <> Int -> in_range k v = true ->
  write_scalar k v = Ok (le_bytes (width k) (raw v)).
Proof.
  intros Hk Hr.
  destruct k; try congruence; destruct v; simpl in Hr; try discriminate;
    cbn [write_scalar raw]; try reflexivity.
  all: destruct b; reflexivity.
Qed.

Lemma write_scalar_length (k : scalar) (v : value) (bs : list byte) :
  write_scalar k v = Ok bs -> length bs = width k.
Proof.
  destruct k, v; simpl; intros H; inversion H; subst;
    try apply le_bytes_length; reflexivity.
Qed.

(** Decoding the bytes of a scalar gives the scalar back, whatever follows
    it and whatever the target held. *)
Lemma scalar_roundtrip (k : scalar) (v : value) (rest : list byte) :
  fixed_width k = true -> in_range k v = true ->
  read_scalar k (le_bytes (width k) (raw v) ++ rest) = (Ok v, rest).
Proof.
  intros Hk Hr.
  destruct k; try discriminate; destruct v; simpl in Hr; try discriminate.
  all: apply andb_prop in Hr; destruct Hr as [H1 H2];
    apply Z.leb_le in H1; apply Z.ltb_lt in H2.
  all: unfold read_scalar, bindD; rewrite ReadFull_app
         by (try apply le_bytes_length; cbn [width]; lia).
  all: unfold ret; rewrite le_value_le_bytes; cbn [raw].
  all: try (rewrite to_signed_mod by (cbn [width] in *; lia); reflexivity).
  all: rewrite Z.mod_small by (cbn [width] in *; lia); reflexivity.
Qed.

(** With fewer bytes than the width left, [binary.Read] fails with one of
    the two end-of-input errors. *)
Lemma read_scalar_short (k : scalar) (r : list byte) :
  fixed_width k = true -> (length r < width k)%nat ->
  exists e r', read_scalar k r = (Err e, r') /\ insufficient e = true.
Proof.
  intros Hk Hl.
  destruct (ReadFull_short (width k) r Hl) as (e & r' & E & He).
  exists e, r'. split; [|exact He].
  destruct k; try discriminate; unfold read_scalar, bindD; rewrite E;
    reflexivity.
Qed.

(** With at least the width left, it succeeds and consumes exactly the
    width. *)
Lemma read_scalar_enough (k : scalar) (r : list byte) :
  fixed_width k = true -> (width k <= length r)%nat ->
  exists v, read_scalar k r = (Ok v, skipn (width k) r)
            /\ in_range k v = true.
Proof.
  intros Hk Hl.
  pose proof (width_pos k) as Hw.
  pose proof (le_value_range (firstn (width k) r)) as Hv.
  unfold len in Hv. rewrite length_firstn, Nat.min_l in Hv by lia.
  destruct k; try discriminate; unfold read_scalar, bindD;
    rewrite ReadFull_enough by lia; unfold ret; eexists; split;
    try reflexivity; cbn [in_range].
  all: try (apply andb_true_intro; split;
            [apply Z.leb_le | apply Z.ltb_lt]; lia).
  all: unfold to_signed; cbn [width] in *;
    match goal with
    | |- context [?a <? ?b] => destruct (Z.ltb_spec a b)
    end;
    (apply andb_true_intro; split; [apply Z.leb_le | apply Z.ltb_lt]); lia.
Qed.

Lemma decodeField_scalar u (k : scalar) (cur : value) (tag : string) :
  fixed_width k = true ->
  decodeField u (TScalar k) cur tag = read_scalar k.
Proof. destruct k; try discriminate; reflexivity. Qed.

(** C3 (code defect).  The claim promises that a boolean is written as one
    0/1 byte and read back from one byte.  [encodeField] does write it, but
    the switch of [decodeField] has no [reflect.Bool] case: whatever the
    input, decoding into a boolean ends in "unsupported type: bool" and
    reads nothing. *)
Theorem C3_bool_written_but_never_read :
  (forall b, Marshal no_marshaler (TScalar Bool) (VBool b)
             = Ok [if b then x01 else x00])
  /\ (forall u cur tag r,
         decodeField u (TScalar Bool) cur tag r
         = (Err (ErrUnsupportedType "bool"), r))
  /\ UnmarshalPartial no_unmarshaler [x01] (TPtr (TScalar Bool))
                      (VPtr (Some (VBool false)))
     = (1%nat, Err (ErrValue (ErrUnsupportedType "bool"))).
Proof.
  split; [|split].
  - intros []; reflexivity.
  - reflexivity.
  - reflexivity.
Qed.

(** ** Variable-length codec *)

(** The test [tag != ""] before [parseTag] changes nothing: [parseTag]
    refuses the empty tag. *)
Lemma tag_dispatch {A} (tag : string) (f : Z -> A) (d : A) :
  (if negb (String.eqb tag "") then
     match parseTag tag with Some n => f n | None => d end
   else d)
  = match parseTag tag with Some n => f n | None => d end.
Proof.
  destruct (String.eqb_spec tag "") as [->|]; reflexivity.
Qed.

Lemma ParseUint32_range s n : ParseUint32 s = Some n -> 0 <= n < 2 ^ 32.
Proof.
  assert (G : forall s acc m, 0 <= acc -> parse_digits s acc = Some m -> 0 <= m).
  { induction s0 as [|c s0 IH]; cbn [parse_digits]; intros acc m Ha H.
    - inversion H; subst; lia.
    - destruct (is_digit c) eqn:Ed; [|discriminate].
      apply IH in H; [exact H|].
      unfold is_digit in Ed. cbv zeta in Ed.
      apply andb_prop in Ed. destruct Ed as [E1 _].
      apply Nat.leb_le in E1. unfold digit. lia. }
  unfold ParseUint32. destruct s; [discriminate|].
  destruct (parse_digits (String a s) 0) eqn:E; [|discriminate].
  destruct (Z.ltb_spec z (2 ^ 32)); [|discriminate].
  intros Hs; inversion Hs; subst. apply G in E; lia.
Qed.

Lemma parseTag_range tag n : parseTag tag = Some n -> 0 <= n < 2 ^ 32.
Proof.
  unfold parseTag.
  destruct (String.eqb tag ""); [discriminate|].
  destruct (String.eqb tag "-"); [discriminate|].
  destruct (ParseUint32 tag) eqn:E.
  - intros H; inversion H; subst. eapply ParseUint32_range; eauto.
  - destruct (prefix "len:" tag); [|discriminate].
    destruct (split_colon tag) as [|? [|p [|? ?]]]; try discriminate.
    apply ParseUint32_range.
Qed.

(** Fixed framing writes exactly [n] bytes: the payload cut at [n], or the
    whole payload followed by zero bytes. *)
Lemma fixed_payload_spec (data : list byte) (n : Z) :
  len data < 2 ^ 32 -> 0 <= n ->
  fixed_payload data n
  = firstn (Z.to_nat n) data ++ repeat x00 (Z.to_nat n - length data).
Proof.
  intros Hd Hn. unfold fixed_payload, uint32, len in *.
  rewrite Z.mod_small by lia.
  destruct (Z.gtb_spec (Z.of_nat (length data)) n).
  - replace (Z.to_nat n - length data)%nat with O by lia.
    simpl. rewrite app_nil_r. reflexivity.
  - destruct (Z.ltb_spec (Z.of_nat (length data)) n); [reflexivity|].
    assert (Z.to_nat n = length data) as -> by lia.
    rewrite firstn_all, Nat.sub_diag. simpl. rewrite app_nil_r. reflexivity.
Qed.

Lemma fixed_payload_length (data : list byte) (n : Z) :
  len data < 2 ^ 32 -> 0 <= n ->
  length (fixed_payload data n) = Z.to_nat n.
Proof.
  intros Hd Hn. rewrite fixed_payload_spec by assumption.
  rewrite length_app, length_firstn, repeat_length. lia.
Qed.

(** [Read] when the input is not at its end but shorter than the buffer: no
    error, the missing bytes stay zero. *)
Lemma Read_short (n : nat) (r : list byte) :
  r <> [] -> (length r <= n)%nat ->
  Read n r = (Ok (r ++ repeat x00 (n - length r)), []).
Proof.
  intros Hne Hl. unfold Read. destruct r as [|b r]; [congruence|].
  rewrite firstn_all2, skipn_all2 by lia. reflexivity.
Qed.

Lemma Read_enough (n : nat) (r : list byte) :
  r <> [] -> (n <= length r)%nat ->
  Read n r = (Ok (firstn n r), skipn n r).
Proof.
  intros Hne Hl. unfold Read. destruct r as [|b r]; [congruence|].
  replace (n - length (b :: r))%nat with O by lia.
  simpl repeat. rewrite app_nil_r. reflexivity.
Qed.

(** Default framing, payload shorter than its prefix says but not empty:
    the decoder accepts it and pads. *)
Lemma read_prefixed_short (L : Z) (p : list byte) :
  0 <= L < 2 ^ 32 -> p <> [] -> len p < L ->
  read_prefixed (put_uint32 L ++ p)
  = (Ok (p ++ repeat x00 (Z.to_nat L - length p)), []).
Proof.
  intros HL Hp Hlen. unfold read_prefixed, bindD.
  rewrite read_uint32_put by assumption.
  apply Read_short; [assumption | unfold len in Hlen; lia].
Qed.

(** C4 (code defect).  The claim promises an insufficient-data error
    whenever fewer than [L] payload bytes follow the prefix.  The decoder
    tests only the error of [buf.Read], not the count it returns: with the
    prefix 5 and the two bytes "ab" after it, [decodeString] and
    [decodeBytes] succeed, with the payload "ab" followed by three zero
    bytes.  Only an input that ends right after the prefix fails. *)
Theorem C4_short_payload_accepted :
  decodeString "" ([x05; x00; x00; x00] ++ bytes "ab")
  = (Ok (VString (bytes "ab" ++ [x00; x00; x00])), [])
  /\ decodeBytes "" ([x05; x00; x00; x00] ++ bytes "ab")
     = (Ok (VSlice (Some (values_of (bytes "ab" ++ [x00; x00; x00])))), [])
  /\ Unmarshal no_unmarshaler ([x05; x00; x00; x00] ++ bytes "ab")
               (TPtr TString) (VPtr (Some (VString [])))
     = Ok (VPtr (Some (VString (bytes "ab" ++ [x00; x00; x00]))))
  /\ (exists e, fst (decodeString "" [x05; x00; x00; x00]) = Err e
                /\ insufficient e = true).
Proof.
  repeat split; try reflexivity.
  exists EOF. split; reflexivity.
Qed.

(** Fixed framing on the decoding side, with at least [n] bytes left and the
    input not at its end: exactly [n] bytes are read; a string loses its
    trailing zero bytes, a byte slice keeps them. *)
Lemma decodeString_fixed (tag : string) (n : Z) (r : list byte) :
  parseTag tag = Some n -> r <> [] -> (Z.to_nat n <= length r)%nat ->
  decodeString tag r
  = (Ok (VString (TrimRight_zeros (firstn (Z.to_nat n) r))),
     skipn (Z.to_nat n) r).
Proof.
  intros Ht Hne Hl. unfold decodeString. rewrite tag_dispatch, Ht.
  unfold bindD. rewrite Read_enough by assumption. reflexivity.
Qed.

Lemma decodeBytes_fixed (tag : string) (n : Z) (r : list byte) :
  parseTag tag = Some n -> r <> [] -> (Z.to_nat n <= length r)%nat ->
  decodeBytes tag r
  = (Ok (VSlice (Some (values_of (firstn (Z.to_nat n) r)))),
     skipn (Z.to_nat n) r).
Proof.
  intros Ht Hne Hl. unfold decodeBytes. rewrite tag_dispatch, Ht.
  unfold bindD. rewrite Read_enough by assumption. reflexivity.
Qed.

Lemma encodeString_fixed (tag : string) (n : Z) (s : list byte) :
  parseTag tag = Some n -> len s < 2 ^ 32 ->
  encodeString s tag
  = firstn (Z.to_nat n) s ++ repeat x00 (Z.to_nat n - length s).
Proof.
  intros Ht Hs. unfold encodeString. rewrite tag_dispatch, Ht.
  apply fixed_payload_spec; [assumption | apply parseTag_range in Ht; lia].
Qed.

Lemma encodeBytes_fixed (tag : string) (n : Z) (b : list byte) :
  parseTag tag = Some n -> len b < 2 ^ 32 ->
  encodeBytes b tag
  = firstn (Z.to_nat n) b ++ repeat x00 (Z.to_nat n - length b).
Proof.
  intros Ht Hs. unfold encodeBytes. rewrite tag_dispatch, Ht.
  apply fixed_payload_spec; [assumption | apply parseTag_range in Ht; lia].
Qed.

(** C5 (code defect).  The encoding half of the claim holds
    ([encodeString_fixed], [encodeBytes_fixed]), and so does the decoding
    half while at least [n] bytes are left ([decodeString_fixed],
    [decodeBytes_fixed]).  But the decoder does not read exactly [n] bytes
    in general, because it tests only the error of [buf.Read]: for a field
    tagged "10" and the three bytes "abc" as input it reads three bytes and
    succeeds; and for a field tagged "0" it fails with [io.EOF] on the empty
    encoding [Marshal] itself produced. *)
Theorem C5_fixed_read_is_not_exact :
  UnmarshalPartial no_unmarshaler (bytes "abc")
    (TPtr (Samples.one_field "Name" "10" TString))
    (VPtr (Some (VStruct [VString []])))
  = (0%nat, Ok (VPtr (Some (VStruct [VString (bytes "abc")]))))
  /\ UnmarshalPartial no_unmarshaler (bytes "abc")
       (TPtr (Samples.one_field "Data" "10" (TSlice (TScalar Uint8))))
       (VPtr (Some (VStruct [VSlice None])))
     = (0%nat,
        Ok (VPtr (Some (VStruct
              [VSlice (Some (values_of (bytes "abc" ++ repeat x00 7)))]))))
  /\ Marshal no_marshaler (Samples.one_field "Name" "0" TString)
             (VStruct [VString (bytes "abc")]) = Ok []
  /\ Unmarshal no_unmarshaler []
       (TPtr (Samples.one_field "Name" "0" TString))
       (VPtr (Some (VStruct [VString []])))
     = Err (ErrValue (ErrField "Name" EOF)).
Proof. repeat split; reflexivity. Qed.

(** ** Custom codec override *)

(** C8.  A top-level value that implements the self-encode capability is
    encoded by its own [MarshalBinary] and nothing else; a top-level target
    that implements the self-decode capability receives the whole input, and
    the remaining count reported is zero whatever the method did with the
    input. *)
Theorem C8_custom_codec_short_circuit
  (m : ty -> option (value -> result (list byte)))
  (u : ty -> option (list byte -> value -> result value))
  (t t' : ty) (v v' : value) (data : list byte)
  (MarshalBinary : value -> result (list byte))
  (UnmarshalBinary : list byte -> value -> result value) :
  m t = Some MarshalBinary ->
  u t' = Some UnmarshalBinary ->
  Marshal m t v = MarshalBinary v
  /\ UnmarshalPartial u data t' v' = (0%nat, UnmarshalBinary data v').
Proof.
  intros Hm Hu. unfold Marshal, UnmarshalPartial. rewrite Hm, Hu.
  split; reflexivity.
Qed.

(** [CustomType] of the tests: its own framing on the way out; on the way
    in, the trailing bytes end up in the value and none is reported left. *)
Lemma C8_custom_codec_witness :
  Marshal TestCustom.marshaler TestCustom.CustomType
          (VStruct [VString (bytes "test")])
  = Ok (bytes "custom:test")
  /\ UnmarshalPartial TestCustom.unmarshaler
       (bytes "custom:test" ++ [x01; x02; x03])
       (TPtr TestCustom.CustomType) (VPtr (Some (VStruct [VString []])))
     = (0%nat,
        Ok (VPtr (Some (VStruct [VString (bytes "test" ++ [x01; x02; x03])])))).
Proof.
  exact (C8_custom_codec_short_circuit
           TestCustom.marshaler TestCustom.unmarshaler
           TestCustom.CustomType (TPtr TestCustom.CustomType)
           (VStruct [VString (bytes "test")])
           (VPtr (Some (VStruct [VString []])))
           (bytes "custom:test" ++ [x01; x02; x03])
           TestCustom.MarshalBinary TestCustom.UnmarshalBinary
           eq_refl eq_refl).
Defined.

(** ** Pointers *)

(** C9, as amended.  With no custom codec on the pointer type or its
    element type, [Marshal] of a non-nil pointer is [Marshal] of its
    pointee, byte for byte and error for error, and [Marshal] of a nil
    pointer fails.  Whatever the codecs, [encodeField] encodes a non-nil
    pointer as its pointee under any tag; decoding into a nil pointer
    allocates a zero pointee and decodes into it, decoding into a non-nil
    pointer decodes into the pointee it has. *)
Theorem C9_pointer_handling
  (m : ty -> option (value -> result (list byte)))
  (u : ty -> option (list byte -> value -> result value))
  (t : ty) (v cur : value) (tag : string) (r : Reader) :
  m (TPtr t) = None -> m t = None ->
  Marshal m (TPtr t) (VPtr (Some v)) = Marshal m t v
  /\ encodeField m (TPtr t) (VPtr (Some v)) tag = encodeField m t v tag
  /\ Marshal m (TPtr t) (VPtr None) = Err (ErrValue ErrNilPointer)
  /\ decodeField u (TPtr t) (VPtr None) tag r
     = mapOk (fun x => VPtr (Some x)) (decodeField u t (zero t) tag r)
  /\ decodeField u (TPtr t) (VPtr (Some cur)) tag r
     = mapOk (fun x => VPtr (Some x)) (decodeField u t cur tag r).
Proof.
  intros Hp Ht. unfold Marshal. rewrite Hp, Ht.
  repeat split; reflexivity.
Qed.

Lemma C9_pointer_witness :
  Marshal no_marshaler (TPtr (TScalar Uint32)) (VPtr (Some (VInt 7)))
  = Marshal no_marshaler (TScalar Uint32) (VInt 7)
  /\ encodeField no_marshaler (TPtr (TScalar Uint32)) (VPtr (Some (VInt 7))) ""
     = encodeField no_marshaler (TScalar Uint32) (VInt 7) ""
  /\ Marshal no_marshaler (TPtr (TScalar Uint32)) (VPtr None)
     = Err (ErrValue ErrNilPointer)
  /\ decodeField no_unmarshaler (TPtr (TScalar Uint32)) (VPtr None) ""
       [x07; x00; x00; x00]
     = mapOk (fun x => VPtr (Some x))
         (decodeField no_unmarshaler (TScalar Uint32) (zero (TScalar Uint32))
            "" [x07; x00; x00; x00])
  /\ decodeField no_unmarshaler (TPtr (TScalar Uint32))
       (VPtr (Some (VInt 1))) "" [x07; x00; x00; x00]
     = mapOk (fun x => VPtr (Some x))
         (decodeField no_unmarshaler (TScalar Uint32) (VInt 1)
            "" [x07; x00; x00; x00]).
Proof.
  exact (C9_pointer_handling no_marshaler no_unmarshaler (TScalar Uint32)
           (VInt 7) (VInt 1) "" [x07; x00; x00; x00] eq_refl eq_refl).
Defined.

(** C9 as stated fails by design when only the pointer type has the
    self-encode capability, as for [CustomType] of the README, whose
    [MarshalBinary] has a pointer receiver: [Marshal(&c)] is the output of
    [MarshalBinary], [Marshal(c)] is the structural encoding of the
    record. *)
Lemma C9_pointer_receiver_codec :
  Marshal TestCustom.readme_marshaler (TPtr TestCustom.CustomType)
          (VPtr (Some (VStruct [VString (bytes "x")])))
  = Ok (bytes "custom:x")
  /\ Marshal TestCustom.readme_marshaler TestCustom.CustomType
             (VStruct [VString (bytes "x")])
     = Ok ([x01; x00; x00; x00] ++ bytes "x")
  /\ Marshal TestCustom.readme_marshaler (TPtr TestCustom.CustomType)
             (VPtr (Some (VStruct [VString (bytes "x")])))
     <> Marshal TestCustom.readme_marshaler TestCustom.CustomType
                (VStruct [VString (bytes "x")]).
Proof.
  split; [reflexivity|]. split; [reflexivity|].
  intros H. vm_compute in H. discriminate H.
Qed.

(** ** Nil slices *)

(** For a slice the container codec handles (element kind other than
    [uint8]) and without a custom codec: the nil slice and the empty slice
    both marshal to the four zero bytes of a zero count, and unmarshalling
    these bytes leaves the target an empty, non-nil slice whatever it
    held. *)
Lemma nil_slice_roundtrips_to_empty
  (m : ty -> option (value -> result (list byte)))
  (u : ty -> option (list byte -> value -> result value))
  (e : ty) (cur : value) :
  is_uint8 e = false ->
  m (TSlice e) = None -> u (TPtr (TSlice e)) = None ->
  Marshal m (TSlice e) (VSlice None) = Ok [x00; x00; x00; x00]
  /\ Marshal m (TSlice e) (VSlice (Some [])) = Ok [x00; x00; x00; x00]
  /\ Unmarshal u [x00; x00; x00; x00] (TPtr (TSlice e)) (VPtr (Some cur))
     = Ok (VPtr (Some (VSlice (Some [])))).
Proof.
  intros He Hm Hu. unfold Marshal, Unmarshal, UnmarshalPartial.
  rewrite Hm, Hu. cbn [encodeField decodeField]. rewrite He.
  repeat split; reflexivity.
Qed.

(** C10 (code defect).  The claim holds for every slice that
    [encodeSlice] and [decodeSlice] handle ([nil_slice_roundtrips_to_empty];
    here [[]uint32], as in the package's [TestEncodeNilSlice]).  A nil
    [[]byte] goes through [encodeBytes] and [decodeBytes] instead: it also
    marshals to the four zero bytes, like the empty [[]byte], but
    unmarshalling them fails, because [decodeBytes] asks [buf.Read] for zero
    bytes at the end of the input and gets [io.EOF]. *)
Theorem C10_nil_byte_slice_not_read_back :
  Marshal no_marshaler (TSlice (TScalar Uint32)) (VSlice None)
  = Ok [x00; x00; x00; x00]
  /\ Unmarshal no_unmarshaler [x00; x00; x00; x00]
       (TPtr (TSlice (TScalar Uint32))) (VPtr (Some (VSlice None)))
     = Ok (VPtr (Some (VSlice (Some []))))
  /\ Marshal no_marshaler (TSlice (TScalar Uint8)) (VSlice None)
     = Ok [x00; x00; x00; x00]
  /\ Marshal no_marshaler (TSlice (TScalar Uint8)) (VSlice (Some []))
     = Ok [x00; x00; x00; x00]
  /\ Unmarshal no_unmarshaler [x00; x00; x00; x00]
       (TPtr (TSlice (TScalar Uint8))) (VPtr (Some (VSlice None)))
     = Err (ErrValue EOF).
Proof. repeat split; reflexivity. Qed.

(** ** The decoding monad *)

Lemma bindD_ext {A B} (m : Dec A) (k1 k2 : A -> Dec B) (r : Reader) :
  (forall a r', k1 a r' = k2 a r') -> bindD m k1 r = bindD m k2 r.
Proof.
  intros H. unfold bindD. destruct (m r) as [[a|e] r']; [apply H|reflexivity].
Qed.

Lemma mapOk_bindD {A B C} (f : B -> C) (m : Dec A) (k : A -> Dec B)
  (r : Reader) :
  mapOk f (bindD m k r) = bindD m (fun a r' => mapOk f (k a r')) r.
Proof.
  unfold bindD. destruct (m r) as [[a|e] r']; reflexivity.
Qed.

(** ** Record codec: excluded fields *)

Lemma encodeStruct_drop_excluded
  (m : ty -> option (value -> result (list byte)))
  (name : string) (exported : bool) (t : ty) (fs2 : fields)
  (v : value) (vs2 : list value) :
  (exported = true -> m t = None) ->
  forall (fs1 : fields) (vs1 : list value),
    length vs1 = NumField fs1 ->
    encodeStruct m (fapp fs1 (FCons name exported "-" t fs2))
                 (vs1 ++ v :: vs2)
    = encodeStruct m (fapp fs1 fs2) (vs1 ++ vs2).
Proof.
  intros Hm.
  induction fs1 as [|n0 e0 tag0 t0 fs1 IH]; intros [|v0 vs1] Hl;
    try discriminate Hl.
  - cbn [fapp app encodeStruct].
    destruct exported; [rewrite (Hm eq_refl)|]; reflexivity.
  - cbn [fapp app encodeStruct]. injection Hl as Hl.
    rewrite (IH vs1 Hl). reflexivity.
Qed.

Lemma decodeStruct_keep_excluded
  (u : ty -> option (list byte -> value -> result value))
  (name : string) (exported : bool) (t : ty) (fs2 : fields)
  (v : value) (vs2 : list value) :
  (exported = true -> is_struct t = true -> u (TPtr t) = None) ->
  forall (fs1 : fields) (vs1 : list value) (r : Reader),
    length vs1 = NumField fs1 ->
    decodeStruct u (fapp fs1 (FCons name exported "-" t fs2))
                 (vs1 ++ v :: vs2) r
    = mapOk (fun vs' => firstn (NumField fs1) vs'
                          ++ v :: skipn (NumField fs1) vs')
            (decodeStruct u (fapp fs1 fs2) (vs1 ++ vs2) r).
Proof.
  intros Hu.
  induction fs1 as [|n0 e0 tag0 t0 fs1 IH]; intros [|v0 vs1] r Hl;
    try discriminate Hl.
  - cbn [fapp app decodeStruct NumField firstn skipn].
    destruct exported; cbn [negb].
    + replace (if is_struct t then u (TPtr t) else None)
        with (@None (list byte -> value -> result value))
        by (destruct (is_struct t);
            [rewrite (Hu eq_refl eq_refl)|]; reflexivity).
      unfold bindD, mapOk, ret. cbn [String.eqb Ascii.eqb Bool.eqb].
      destruct (decodeStruct u fs2 vs2 r) as [[vs'|e] r']; reflexivity.
    + unfold bindD, mapOk, ret.
      destruct (decodeStruct u fs2 vs2 r) as [[vs'|e] r']; reflexivity.
  - injection Hl as Hl.
    cbn [fapp app decodeStruct NumField].
    assert (K : forall (x : value) (r1 : Reader),
               bindD (decodeStruct u
                        (fapp fs1 (FCons name exported "-" t fs2))
                        (vs1 ++ v :: vs2))
                     (fun vs'' => ret (x :: vs'')) r1
               = mapOk (fun vs' => firstn (S (NumField fs1)) vs'
                                     ++ v :: skipn (S (NumField fs1)) vs')
                   (bindD (decodeStruct u (fapp fs1 fs2) (vs1 ++ vs2))
                          (fun vs'' => ret (x :: vs'')) r1)).
    { intros x r1. unfold bindD. rewrite (IH vs1 r1 Hl). unfold mapOk, ret.
      destruct (decodeStruct u (fapp fs1 fs2) (vs1 ++ vs2) r1)
        as [[vs'|e] r2]; reflexivity. }
    destruct (negb e0); [apply K|].
    destruct (if is_struct t0 then u (TPtr t0) else None) as [UB|].
    { rewrite mapOk_bindD. apply bindD_ext. intros L r1.
      rewrite mapOk_bindD. apply bindD_ext. intros data r2.
      destruct (UB data (VPtr (Some v0))) as [[| | | | | | |[v'|]|]|e];
        try reflexivity.
      apply K. }
    destruct (String.eqb tag0 "-"); [apply K|].
    rewrite mapOk_bindD. apply bindD_ext. intros v' r1. apply K.
Qed.

(** C7, as amended.  A field tagged "-" is passed over by both walkers
    when it is unexported, or when its type does not implement
    [BinaryMarshaler] and, for a field of struct kind, a pointer to its
    type does not implement [BinaryUnmarshaler].  It then contributes
    nothing to the encoding: the record encodes as the record without that
    field does.  Decoding reads the same bytes as for the record without the
    field, gives the other fields the same values in the same order, and
    leaves the excluded field holding what it held before. *)
Theorem C7_excluded_field_is_skipped
  (m : ty -> option (value -> result (list byte)))
  (u : ty -> option (list byte -> value -> result value))
  (fs1 fs2 : fields) (name : string) (exported : bool) (t : ty)
  (vs1 vs2 : list value) (v : value)
  (cs1 cs2 : list value) (c : value) (r : Reader) :
  (exported = true -> m t = None) ->
  (exported = true -> is_struct t = true -> u (TPtr t) = None) ->
  length vs1 = NumField fs1 -> length cs1 = NumField fs1 ->
  encodeStruct m (fapp fs1 (FCons name exported "-" t fs2)) (vs1 ++ v :: vs2)
  = encodeStruct m (fapp fs1 fs2) (vs1 ++ vs2)
  /\ decodeStruct u (fapp fs1 (FCons name exported "-" t fs2))
                  (cs1 ++ c :: cs2) r
     = mapOk (fun cs' => firstn (NumField fs1) cs'
                           ++ c :: skipn (NumField fs1) cs')
             (decodeStruct u (fapp fs1 fs2) (cs1 ++ cs2) r).
Proof.
  intros Hm Hu Hl Hc. split.
  - apply encodeStruct_drop_excluded; assumption.
  - apply decodeStruct_keep_excluded; assumption.
Qed.

(** In a program where [CustomType] has its codec:
    [struct { Number uint32; Inner SimpleStruct `binary:"-"`; Name string }]
    with [Number = 42], [Inner = {1, 2, 3}], [Name = "test"], decoded into a
    target whose [Inner] holds [{7, 8, 9}].  [SimpleStruct] is of struct
    kind and has no codec. *)
Lemma C7_excluded_field_witness :
  encodeStruct TestCustom.marshaler
    (fapp (FCons "Number" true "" (TScalar Uint32) FNil)
          (FCons "Inner" true "-" Samples.SimpleStruct
                 (FCons "Name" true "" TString FNil)))
    ([VInt 42] ++ VStruct (Samples.ints [1; 2; 3])
               :: [VString (bytes "test")])
  = encodeStruct TestCustom.marshaler
      (fapp (FCons "Number" true "" (TScalar Uint32) FNil)
            (FCons "Name" true "" TString FNil))
      ([VInt 42] ++ [VString (bytes "test")])
  /\ decodeStruct TestCustom.unmarshaler
       (fapp (FCons "Number" true "" (TScalar Uint32) FNil)
             (FCons "Inner" true "-" Samples.SimpleStruct
                    (FCons "Name" true "" TString FNil)))
       ([VInt 0] ++ VStruct (Samples.ints [7; 8; 9]) :: [VString []])
       ([x2a; x00; x00; x00; x04; x00; x00; x00] ++ bytes "test")
     = mapOk (fun cs' => firstn 1 cs'
                           ++ VStruct (Samples.ints [7; 8; 9]) :: skipn 1 cs')
         (decodeStruct TestCustom.unmarshaler
            (fapp (FCons "Number" true "" (TScalar Uint32) FNil)
                  (FCons "Name" true "" TString FNil))
            ([VInt 0] ++ [VString []])
            ([x2a; x00; x00; x00; x04; x00; x00; x00] ++ bytes "test")).
Proof.
  exact (C7_excluded_field_is_skipped TestCustom.marshaler
           TestCustom.unmarshaler
           (FCons "Number" true "" (TScalar Uint32) FNil)
           (FCons "Name" true "" TString FNil)
           "Inner" true Samples.SimpleStruct
           [VInt 42] [VString (bytes "test")]
           (VStruct (Samples.ints [1; 2; 3]))
           [VInt 0] [VString []] (VStruct (Samples.ints [7; 8; 9]))
           ([x2a; x00; x00; x00; x04; x00; x00; x00] ++ bytes "test")
           (fun _ => eq_refl) (fun _ _ => eq_refl) eq_refl eq_refl).
Defined.

(** ** Container codec: loops *)

Lemma bindD_assoc {A B C} (m : Dec A) (k1 : A -> Dec B) (k2 : B -> Dec C)
  (r : Reader) :
  bindD (bindD m k1) k2 r = bindD m (fun a => bindD (k1 a) k2) r.
Proof.
  unfold bindD. destruct (m r) as [[a|e] r']; reflexivity.
Qed.

Lemma fixed_elems_length n xs z : length (fixed_elems n xs z) = n.
Proof.
  unfold fixed_elems. rewrite length_app, length_firstn, repeat_length. lia.
Qed.

Lemma firstn_S_nth (xs : list value) (z : value) (n : nat) :
  (n < length xs)%nat -> firstn (S n) xs = firstn n xs ++ [nth n xs z].
Proof.
  revert n. induction xs as [|x xs IH]; intros n H; simpl in H; [lia|].
  destruct n as [|n]; [reflexivity|].
  cbn [firstn nth app]. rewrite <- IH by lia. reflexivity.
Qed.

Lemma map_nth_seq_fixed (xs : list value) (z : value) (n : nat) :
  map (fun i => nth i xs z) (seq 0 n) = fixed_elems n xs z.
Proof.
  unfold fixed_elems. induction n as [|n IH].
  - reflexivity.
  - rewrite seq_S, map_app, IH. cbn [map Nat.add].
    destruct (Nat.lt_ge_cases n (length xs)) as [H|H].
    + replace (n - length xs)%nat with O by lia.
      replace (S n - length xs)%nat with O by lia.
      cbn [repeat]. rewrite !app_nil_r.
      symmetry. apply firstn_S_nth. exact H.
    + rewrite nth_overflow by lia.
      rewrite !firstn_all2 by lia.
      replace (S n - length xs)%nat with (S (n - length xs)) by lia.
      rewrite <- app_assoc. f_equal.
      change [z] with (repeat z 1). rewrite <- repeat_app.
      f_equal. lia.
Qed.

Lemma forE_encode_all (enc : value -> result (list byte)) (g : nat -> value)
  (n i : nat) :
  forE (fun j => enc (g j)) i n = encode_all enc (map g (seq i n)).
Proof.
  revert i. induction n as [|n IH]; intros i; cbn [forE seq map encode_all].
  - reflexivity.
  - rewrite IH. reflexivity.
Qed.

(** The elements the fixed loop of [encodeSlice] picks are the first [n]
    of the sequence, then zero values. *)
Lemma encodeSlice_fixed (enc : value -> result (list byte)) (z : value)
  (xs : list value) (tag : string) (n : Z) :
  parseTag tag = Some n -> len xs < 2 ^ 32 ->
  encodeSlice enc z xs tag = encode_all enc (fixed_elems (Z.to_nat n) xs z).
Proof.
  intros Ht Hx. unfold encodeSlice. rewrite tag_dispatch, Ht.
  rewrite (forE_encode_all enc
             (fun i => if Z.of_nat i <? uint32 (len xs)
                       then nth i xs z else z)).
  rewrite <- map_nth_seq_fixed. f_equal. apply map_ext. intros i.
  unfold uint32, len in *. rewrite Z.mod_small by lia.
  destruct (Z.ltb_spec (Z.of_nat i) (Z.of_nat (length xs))); [reflexivity|].
  rewrite nth_overflow by lia. reflexivity.
Qed.

(** The default loop of [encodeSlice] writes the count and every element. *)
Lemma encodeSlice_default (enc : value -> result (list byte)) (z : value)
  (xs : list value) (tag : string) :
  parseTag tag = None -> len xs < 2 ^ 32 ->
  encodeSlice enc z xs tag
  = bindR (encode_all enc xs) (fun bs => Ok (put_uint32 (len xs) ++ bs)).
Proof.
  intros Ht Hx. unfold encodeSlice. rewrite tag_dispatch, Ht.
  unfold uint32, len in *. rewrite Z.mod_small by lia.
  rewrite (forE_encode_all enc (fun i => nth i xs z)), Nat2Z.id.
  rewrite map_nth_seq_fixed. unfold fixed_elems.
  rewrite firstn_all, Nat.sub_diag. cbn [repeat]. rewrite app_nil_r.
  reflexivity.
Qed.

Lemma upd_middle (done rest : list value) (y x : value) :
  upd (length done) x (done ++ y :: rest) = done ++ x :: rest.
Proof.
  induction done as [|d done IH]; cbn [length app upd]; [reflexivity|].
  rewrite IH. reflexivity.
Qed.

Lemma upd_length (i : nat) (x : value) (l : list value) :
  length (upd i x l) = length l.
Proof.
  revert i. induction l as [|y l IH]; intros [|i]; cbn [upd length];
    try reflexivity.
  rewrite IH. reflexivity.
Qed.

Lemma forD_add {St} (body : nat -> St -> Dec St) (k1 k2 i : nat) (s : St)
  (r : Reader) :
  forD body i (k1 + k2) s r
  = bindD (forD body i k1 s) (fun s' => forD body (i + k1) k2 s') r.
Proof.
  revert i s r. induction k1 as [|k1 IH]; intros i s r.
  - cbn [Nat.add forD]. unfold bindD, ret. rewrite Nat.add_0_r. reflexivity.
  - cbn [Nat.add forD]. rewrite bindD_assoc. apply bindD_ext.
    intros s' r'. rewrite IH. replace (S i + k1)%nat with (i + S k1)%nat by lia.
    reflexivity.
Qed.

Lemma decode_all_app (dec : value -> Dec value) (l1 l2 : list value)
  (r : Reader) :
  decode_all dec (l1 ++ l2) r
  = bindD (decode_all dec l1)
          (fun ys1 => bindD (decode_all dec l2)
                            (fun ys2 => ret (ys1 ++ ys2))) r.
Proof.
  revert r. induction l1 as [|c l1 IH]; intros r; cbn [app decode_all].
  - unfold bindD at 1. unfold ret at 1. unfold bindD, ret.
    destruct (decode_all dec l2 r) as [[ys|e] r']; reflexivity.
  - rewrite bindD_assoc. apply bindD_ext. intros x r1.
    rewrite bindD_assoc. unfold bindD at 1. rewrite IH.
    unfold bindD, ret.
    destruct (decode_all dec l1 r1) as [[ys1|e] r2]; [|reflexivity].
    destruct (decode_all dec l2 r2) as [[ys2|e] r3]; reflexivity.
Qed.

Lemma decode_all_length (dec : value -> Dec value) (l ys : list value)
  (r r' : Reader) :
  decode_all dec l r = (Ok ys, r') -> length ys = length l.
Proof.
  revert ys r r'. induction l as [|c l IH]; intros ys r r' H;
    cbn [decode_all] in H.
  - inversion H; reflexivity.
  - unfold bindD, ret in H.
    destruct (dec c r) as [[x|e] r1]; [|discriminate].
    destruct (decode_all dec l r1) as [[xs|e] r2] eqn:E; [|discriminate].
    inversion H; subst. cbn [length]. f_equal. eapply IH; eauto.
Qed.

Section ArrayLoop.

Variable dec : value -> Dec value.
Variable z : value.
Variable arrayLen : Z.

(** While the index is inside the array, the loop decodes into the slots
    one after the other and leaves the rest of the array alone. *)
Lemma forD_slots (ts done tail : list value) (r : Reader) :
  Z.of_nat (length done + length ts) <= arrayLen ->
  forD (decodeArray_body dec z arrayLen) (length done) (length ts) (done ++ ts ++ tail) r
  = mapOk (fun ys => done ++ ys ++ tail) (decode_all dec ts r).
Proof.
  revert done r. induction ts as [|t ts IH]; intros done r H.
  - reflexivity.
  - cbn [length forD decode_all]. cbn [length] in H.
    unfold decodeArray_body at 1.
    destruct (Z.ltb_spec (Z.of_nat (length done)) arrayLen); [|lia].
    cbn [app]. rewrite nth_middle.
    rewrite bindD_assoc, mapOk_bindD. apply bindD_ext. intros x r1.
    unfold bindD at 1. unfold ret at 1.
    rewrite upd_middle.
    replace (done ++ x :: ts ++ tail) with ((done ++ [x]) ++ ts ++ tail)
      by (rewrite <- app_assoc; reflexivity).
    replace (S (length done)) with (length (done ++ [x]))
      by (rewrite length_app; simpl; lia).
    rewrite IH by (rewrite length_app; simpl; lia).
    unfold bindD, mapOk, ret.
    destruct (decode_all dec ts r1) as [[ys|e] r2]; [|reflexivity].
    rewrite <- app_assoc. reflexivity.
Qed.

(** Past the end of the array, the loop decodes into temporaries and leaves
    the array alone. *)
Lemma forD_temporaries (k i : nat) (a : list value) (r : Reader) :
  arrayLen <= Z.of_nat i ->
  forD (decodeArray_body dec z arrayLen) i k a r = mapOk (fun _ => a) (decode_all dec (repeat z k) r).
Proof.
  revert i r. induction k as [|k IH]; intros i r H.
  - reflexivity.
  - cbn [forD repeat decode_all]. unfold decodeArray_body at 1.
    destruct (Z.ltb_spec (Z.of_nat i) arrayLen); [lia|].
    rewrite bindD_assoc, mapOk_bindD. apply bindD_ext. intros x r1.
    unfold bindD at 1. unfold ret at 1. rewrite IH by lia.
    unfold bindD, mapOk, ret.
    destruct (decode_all dec (repeat z k) r1) as [[ys|e] r2]; reflexivity.
Qed.

End ArrayLoop.

(** The second loop of [decodeArray]: positions [n] to the end are zeroed. *)
Lemma zero_from (z : value) (done : list value) (k : nat) (tail : list value) :
  length tail = k ->
  fold_left (fun a i => upd i z a) (seq (length done) k) (done ++ tail)
  = done ++ repeat z k.
Proof.
  revert done tail. induction k as [|k IH]; intros done tail H.
  - destruct tail; [|discriminate]. reflexivity.
  - destruct tail as [|y tail]; [discriminate|]. injection H as H.
    cbn [seq fold_left repeat]. rewrite upd_middle.
    replace (done ++ z :: tail) with ((done ++ [z]) ++ tail)
      by (rewrite <- app_assoc; reflexivity).
    replace (S (length done)) with (length (done ++ [z]))
      by (rewrite length_app; simpl; lia).
    rewrite IH by assumption. rewrite <- app_assoc. reflexivity.
Qed.

(** The element loop of [decodeSlice] decodes [length] elements in order,
    each into a fresh zero element. *)
Lemma forD_fresh (dec : value -> Dec value) (z : value)
  (ts done : list value) (r : Reader) :
  forD (fun i s => bindD (dec (nth i s z)) (fun x => ret (upd i x s)))
       (length done) (length ts) (done ++ ts) r
  = mapOk (fun ys => done ++ ys) (decode_all dec ts r).
Proof.
  revert done r. induction ts as [|t ts IH]; intros done r.
  - cbn [length forD decode_all]. unfold ret, mapOk.
    rewrite app_nil_r. reflexivity.
  - cbn [length forD decode_all]. rewrite nth_middle.
    rewrite bindD_assoc, mapOk_bindD. apply bindD_ext. intros x r1.
    unfold bindD at 1. unfold ret at 1. rewrite upd_middle.
    replace (done ++ x :: ts) with ((done ++ [x]) ++ ts)
      by (rewrite <- app_assoc; reflexivity).
    replace (S (length done)) with (length (done ++ [x]))
      by (rewrite length_app; simpl; lia).
    rewrite IH. unfold bindD, mapOk, ret.
    destruct (decode_all dec ts r1) as [[ys|e] r2]; [|reflexivity].
    rewrite <- app_assoc. reflexivity.
Qed.

Lemma decodeSlice_loop_spec (dec : value -> Dec value) (z : value)
  (n : nat) (r : Reader) :
  decodeSlice_loop dec z n r
  = mapOk (fun ys => VSlice (Some ys)) (decode_all dec (repeat z n) r).
Proof.
  unfold decodeSlice_loop, bindD.
  pose proof (forD_fresh dec z (repeat z n) [] r) as H.
  cbn [length app] in H. rewrite repeat_length in H.
  unfold bindD in H. rewrite H. unfold mapOk, ret.
  destruct (decode_all dec (repeat z n) r) as [[ys|e] r']; reflexivity.
Qed.

(** The two loops of [decodeArray] on an array of [length arr] elements and
    a count [n]: [n] elements are decoded in order, into the array's slots
    while there are slots and into temporaries after; the array keeps the
    elements decoded into its slots and is zero from position [n] on. *)
Lemma decodeArray_loop_spec (dec : value -> Dec value) (z : value)
  (arr : list value) (n : Z) (r : Reader) :
  decodeArray_loop dec z (Z.of_nat (length arr)) arr n r
  = mapOk (fun ys => VArray (firstn (length arr) ys
                               ++ repeat z (length arr - Z.to_nat n)))
          (decode_all dec (fixed_elems (Z.to_nat n) arr z) r).
Proof.
  unfold decodeArray_loop, fixed_elems. rewrite Nat2Z.id.
  set (k := Z.to_nat n). set (N := length arr).
  destruct (Nat.le_gt_cases k N) as [Hk|Hk].
  - replace (k - N)%nat with O by lia. cbn [repeat]. rewrite app_nil_r.
    pose proof (forD_slots dec z (Z.of_nat N) (firstn k arr) []
                  (skipn k arr) r) as H.
    cbn [length app] in H. rewrite length_firstn, Nat.min_l in H by exact Hk.
    rewrite firstn_skipn in H. unfold bindD. rewrite H by lia.
    destruct (decode_all dec (firstn k arr) r) as [[ys|e] r'] eqn:E;
      [|reflexivity].
    apply decode_all_length in E.
    rewrite length_firstn, Nat.min_l in E by exact Hk.
    unfold mapOk, ret. f_equal. f_equal.
    rewrite <- E at 1.
    rewrite zero_from by (rewrite length_skipn; reflexivity).
    rewrite firstn_all2 by lia. reflexivity.
  - replace (N - k)%nat with O by lia. cbn [seq fold_left repeat].
    rewrite firstn_all2 by (fold N; lia).
    replace k with (N + (k - N))%nat at 1 by lia.
    unfold bindD at 1. rewrite forD_add.
    pose proof (forD_slots dec z (Z.of_nat N) arr [] [] r) as H.
    cbn [length app] in H. rewrite app_nil_r in H. fold N in H.
    unfold bindD at 1. rewrite H by lia.
    rewrite decode_all_app. unfold bindD.
    destruct (decode_all dec arr r) as [[ys|e] r1] eqn:E; [|reflexivity].
    apply decode_all_length in E.
    cbn [mapOk]. rewrite forD_temporaries by lia.
    unfold mapOk, ret.
    destruct (decode_all dec (repeat z (k - N)) r1) as [[ys2|e] r2];
      [|reflexivity].
    rewrite app_nil_r. fold N in E. rewrite <- E.
    rewrite firstn_app, firstn_all, Nat.sub_diag, firstn_O, !app_nil_r.
    reflexivity.
Qed.

Lemma forallb_repeat {A} (f : A -> bool) (x : A) (n : nat) :
  f x = true -> forallb f (repeat x n) = true.
Proof.
  intros H. induction n as [|n IH]; cbn [repeat forallb]; [reflexivity|].
  rewrite H, IH. reflexivity.
Qed.

Lemma forallb_firstn {A} (f : A -> bool) (n : nat) (l : list A) :
  forallb f l = true -> forallb f (firstn n l) = true.
Proof.
  revert n. induction l as [|x l IH]; intros [|n] H; try reflexivity.
  cbn [forallb firstn] in *. apply andb_prop in H. destruct H as [H1 H2].
  rewrite H1, IH by exact H2. reflexivity.
Qed.

Lemma forallb_fixed_elems (f : value -> bool) (n : nat) (l : list value)
  (z : value) :
  forallb f l = true -> f z = true -> forallb f (fixed_elems n l z) = true.
Proof.
  intros Hl Hz. unfold fixed_elems. rewrite forallb_app.
  rewrite forallb_firstn by exact Hl. apply forallb_repeat, Hz.
Qed.

(** The encodings of two sequences, one after the other. *)
Lemma encode_all_app (enc : value -> result (list byte))
  (l1 l2 : list value) :
  encode_all enc (l1 ++ l2)
  = bindR (encode_all enc l1) (fun a =>
    bindR (encode_all enc l2) (fun b => Ok (a ++ b))).
Proof.
  induction l1 as [|x l1 IH]; cbn [app encode_all bindR].
  - destruct (encode_all enc l2); reflexivity.
  - destruct (enc x) as [b|e]; cbn [bindR]; [|reflexivity].
    rewrite IH. destruct (encode_all enc l1) as [a|e]; cbn [bindR];
      [|reflexivity].
    destruct (encode_all enc l2) as [c|e]; cbn [bindR]; [|reflexivity].
    rewrite app_assoc. reflexivity.
Qed.

(** Padding with a zero value that cannot be encoded is refused: with the
    error of the zero value when the elements before it are encodable. *)
Lemma encode_all_padding (enc : value -> result (list byte))
  (xs : list value) (z : value) (n : nat) (err : error) :
  (length xs < n)%nat -> enc z = Err err ->
  exists err',
    encode_all enc (fixed_elems n xs z) = Err err'
    /\ (forall bs, encode_all enc xs = Ok bs -> err' = err).
Proof.
  intros Hl Hz. unfold fixed_elems.
  rewrite firstn_all2 by lia. rewrite encode_all_app.
  destruct (n - length xs)%nat as [|k] eqn:E; [lia|].
  cbn [repeat encode_all]. rewrite Hz. cbn [bindR].
  destruct (encode_all enc xs) as [bs|e]; cbn [bindR].
  - exists err. split; [reflexivity|]. intros; reflexivity.
  - exists e. split; [reflexivity|]. intros bs H. discriminate H.
Qed.

Lemma layout_length (k : scalar) (vals : list value) :
  length (layout k vals) = (length vals * width k)%nat.
Proof.
  unfold layout. induction vals as [|x vals IH]; [reflexivity|].
  cbn [flat_map length]. rewrite length_app, le_bytes_length, IH.
  cbn [Nat.mul]. reflexivity.
Qed.

(** Scalars of a fixed-width kind, one after the other. *)
Lemma encode_all_scalars
  (m : ty -> option (value -> result (list byte)))
  (k : scalar) (vals : list value) :
  fixed_width k = true -> forallb (in_range k) vals = true ->
  encode_all (fun x => encodeField m (TScalar k) x "") vals
  = Ok (layout k vals).
Proof.
  intros Hk. induction vals as [|x vals IH]; intros H; [reflexivity|].
  cbn [forallb] in H. apply andb_prop in H. destruct H as [Hx Hv].
  cbn [encode_all]. rewrite (IH Hv). cbn [encodeField].
  rewrite write_scalar_ok by (try assumption; intros ->; discriminate Hk).
  reflexivity.
Qed.

Lemma decode_all_scalars
  (u : ty -> option (list byte -> value -> result value))
  (k : scalar) (vals cs : list value) (rest : list byte) :
  fixed_width k = true -> forallb (in_range k) vals = true ->
  length cs = length vals ->
  decode_all (fun c => decodeField u (TScalar k) c "") cs
             (layout k vals ++ rest)
  = (Ok vals, rest).
Proof.
  intros Hk. revert cs.
  induction vals as [|x vals IH]; intros [|c cs] H Hl;
    try discriminate Hl; [reflexivity|].
  cbn [forallb] in H. apply andb_prop in H. destruct H as [Hx Hv].
  injection Hl as Hl.
  cbn [decode_all]. unfold layout. cbn [flat_map]. fold (layout k vals).
  rewrite <- app_assoc. unfold bindD.
  rewrite decodeField_scalar by exact Hk.
  rewrite scalar_roundtrip by assumption.
  rewrite (IH cs Hv Hl). reflexivity.
Qed.

Lemma zero_in_range (k : scalar) : in_range k (zero (TScalar k)) = true.
Proof. destruct k; reflexivity. Qed.

(** C6, as amended.  For a slice or array whose elements are not bytes,
    under a tag that resolves to [n]: the encoder writes no count and
    encodes exactly [n] elements in order, the first [min n len] elements
    of the sequence followed by zero values of the element type; its result
    is their encodings one after the other, or the first error among them.
    A sequence shorter than [n] is refused when the zero value of the
    element type cannot be encoded (a nil pointer), with the error of the
    zero value when its own elements are encodable.  The
    decoder of an array decodes [n] elements in order, into the array's
    slots while there are slots and into zero temporaries of the element
    type after that; the array keeps what its slots received, the
    temporaries are dropped, and the positions from [n] on are zero.  For
    elements of a fixed-width kind this is [n] times the width in bytes:
    the bytes written are those of the [n] elements, and from the bytes of
    any [n] scalars the array receives the first of them, as many as it has
    slots, and the cursor stops after the [n]-th. *)
Theorem C6_fixed_sequences
  (m : ty -> option (value -> result (list byte)))
  (u : ty -> option (list byte -> value -> result value))
  (e : ty) (tag : string) (n : Z)
  (xs : option (list value)) (ys arr : list value) (N : nat) (r : Reader) :
  is_uint8 e = false -> parseTag tag = Some n ->
  len (elems xs) < 2 ^ 32 -> len ys < 2 ^ 32 -> len arr < 2 ^ 32 ->
  length (fixed_elems (Z.to_nat n) (elems xs) (zero e)) = Z.to_nat n
  /\ encodeField m (TSlice e) (VSlice xs) tag
     = encode_all (fun x => encodeField m e x "")
                  (fixed_elems (Z.to_nat n) (elems xs) (zero e))
  /\ encodeField m (TArray N e) (VArray ys) tag
     = encode_all (fun x => encodeField m e x "")
                  (fixed_elems (Z.to_nat n) ys (zero e))
  /\ (forall err,
        encodeField m e (zero e) "" = Err err ->
        ((length (elems xs) < Z.to_nat n)%nat ->
         exists err',
           encodeField m (TSlice e) (VSlice xs) tag = Err err'
           /\ (forall bs,
                 encode_all (fun x => encodeField m e x "") (elems xs)
                 = Ok bs -> err' = err))
        /\ ((length ys < Z.to_nat n)%nat ->
            exists err',
              encodeField m (TArray N e) (VArray ys) tag = Err err'
              /\ (forall bs,
                    encode_all (fun x => encodeField m e x "") ys = Ok bs ->
                    err' = err)))
  /\ decodeField u (TArray (length arr) e) (VArray arr) tag r
     = mapOk (fun ds => VArray (firstn (length arr) ds
                                  ++ repeat (zero e)
                                            (length arr - Z.to_nat n)))
             (decode_all (fun c => decodeField u e c "")
                         (fixed_elems (Z.to_nat n) arr (zero e)) r)
  /\ (forall k,
        e = TScalar k -> fixed_width k = true ->
        (forallb (in_range k) (elems xs) = true ->
         encodeField m (TSlice e) (VSlice xs) tag
         = Ok (layout k (fixed_elems (Z.to_nat n) (elems xs) (zero e)))
         /\ length (layout k (fixed_elems (Z.to_nat n) (elems xs) (zero e)))
            = (Z.to_nat n * width k)%nat)
        /\ (forallb (in_range k) ys = true ->
            encodeField m (TArray N e) (VArray ys) tag
            = Ok (layout k (fixed_elems (Z.to_nat n) ys (zero e)))
            /\ length (layout k (fixed_elems (Z.to_nat n) ys (zero e)))
               = (Z.to_nat n * width k)%nat)
        /\ (forall vals rest,
              forallb (in_range k) vals = true ->
              length vals = Z.to_nat n ->
              decodeField u (TArray (length arr) e) (VArray arr) tag
                          (layout k vals ++ rest)
              = (Ok (VArray (firstn (length arr) vals
                               ++ repeat (zero e)
                                         (length arr - Z.to_nat n))),
                 rest))).
Proof.
  intros He Ht Hx Hy Ha.
  assert (G1 : encodeField m (TSlice e) (VSlice xs) tag
               = encode_all (fun x => encodeField m e x "")
                   (fixed_elems (Z.to_nat n) (elems xs) (zero e))).
  { cbn [encodeField]. rewrite He. apply encodeSlice_fixed; assumption. }
  assert (G2 : encodeField m (TArray N e) (VArray ys) tag
               = encode_all (fun x => encodeField m e x "")
                   (fixed_elems (Z.to_nat n) ys (zero e))).
  { cbn [encodeField]. rewrite He. apply encodeSlice_fixed; assumption. }
  assert (G3 : forall r',
             decodeField u (TArray (length arr) e) (VArray arr) tag r'
             = mapOk (fun ds => VArray (firstn (length arr) ds
                                          ++ repeat (zero e)
                                               (length arr - Z.to_nat n)))
                 (decode_all (fun c => decodeField u e c "")
                    (fixed_elems (Z.to_nat n) arr (zero e)) r')).
  { intros r'. cbn [decodeField]. rewrite He.
    unfold decodeArray. rewrite tag_dispatch, Ht.
    unfold uint32, len in *. rewrite Z.mod_small by lia.
    apply decodeArray_loop_spec. }
  split; [apply fixed_elems_length|].
  split; [exact G1|]. split; [exact G2|].
  split; [|split; [apply G3|]].
  - intros err Hz. split; intros Hl; [rewrite G1 | rewrite G2];
      exact (encode_all_padding _ _ _ _ err Hl Hz).
  - intros k -> Hk. split; [|split].
    + intros Hr. rewrite G1.
      rewrite encode_all_scalars;
        [|exact Hk
         |apply forallb_fixed_elems; [exact Hr | apply zero_in_range]].
      split; [reflexivity|].
      rewrite layout_length, fixed_elems_length. reflexivity.
    + intros Hr. rewrite G2.
      rewrite encode_all_scalars;
        [|exact Hk
         |apply forallb_fixed_elems; [exact Hr | apply zero_in_range]].
      split; [reflexivity|].
      rewrite layout_length, fixed_elems_length. reflexivity.
    + intros vals rest Hr Hl. rewrite G3.
      rewrite decode_all_scalars; [reflexivity|exact Hk|exact Hr|].
      rewrite fixed_elems_length. symmetry. exact Hl.
Qed.

(** A slice of two [uint32] under the tag "3" is written as twelve bytes,
    its two elements and a zero; an array of seven under the tag "3" as its
    first three elements; from the bytes of three [uint32] an array of two
    under the tag "3" receives the first two, the third goes to the
    temporary and the cursor stops after it; a slice of one pointer under
    the tag "2" is refused for its padding. *)
Lemma C6_fixed_sequences_witness :
  encodeField no_marshaler (TSlice (TScalar Uint32))
    (VSlice (Some (Samples.ints [10; 20]))) "3"
  = Ok (le_bytes 4 10 ++ le_bytes 4 20 ++ le_bytes 4 0)
  /\ length (le_bytes 4 10 ++ le_bytes 4 20 ++ le_bytes 4 0) = 12%nat
  /\ encodeField no_marshaler (TArray 7 (TScalar Uint32))
       (VArray (Samples.ints [10; 20; 30; 40; 50; 60; 70])) "3"
     = Ok (le_bytes 4 10 ++ le_bytes 4 20 ++ le_bytes 4 30)
  /\ decodeField no_unmarshaler (TArray 2 (TScalar Uint32))
       (VArray (Samples.ints [8; 9])) "3"
       ((le_bytes 4 1 ++ le_bytes 4 2 ++ le_bytes 4 3) ++ [xff])
     = (Ok (VArray (Samples.ints [1; 2])), [xff])
  /\ (exists err',
        encodeField no_marshaler (TSlice (TPtr (TScalar Uint32)))
          (VSlice (Some [VPtr (Some (VInt 7))])) "2"
        = Err err'
        /\ (forall bs,
              encode_all
                (fun x => encodeField no_marshaler (TPtr (TScalar Uint32)) x "")
                [VPtr (Some (VInt 7))] = Ok bs ->
              err' = ErrNilPointer)).
Proof.
  pose (P := C6_fixed_sequences no_marshaler no_unmarshaler
               (TPtr (TScalar Uint32)) "2" 2
               (Some [VPtr (Some (VInt 7))]) [] [] 0 []
               eq_refl eq_refl eq_refl eq_refl eq_refl).
  pose (T := C6_fixed_sequences no_marshaler no_unmarshaler (TScalar Uint32)
               "3" 3 (Some (Samples.ints [10; 20]))
               (Samples.ints [10; 20; 30; 40; 50; 60; 70])
               (Samples.ints [8; 9]) 7 []
               eq_refl eq_refl eq_refl eq_refl eq_refl).
  pose (S := proj2 (proj2 (proj2 (proj2 (proj2 T)))) Uint32 eq_refl eq_refl).
  split; [|split; [|split; [|split]]].
  - exact (proj1 (proj1 S eq_refl)).
  - exact (proj2 (proj1 S eq_refl)).
  - exact (proj1 (proj1 (proj2 S) eq_refl)).
  - exact (proj2 (proj2 S) (Samples.ints [1; 2; 3]) [xff] eq_refl eq_refl).
  - exact (proj1 (proj1 (proj2 (proj2 (proj2 P))) ErrNilPointer eq_refl)
                 (le_n 2)).
Defined.

(** C6 as stated fails for a sequence of pointers shorter than its tag: the
    zero value that pads it is a nil pointer, which [encodeField] refuses,
    so nothing is written.  [[]*uint32{&7}] under the tag "2" is refused, on
    its own and as the field [Ptrs] of a record; under the tag "1", which
    asks for no padding, it is written as its one element. *)
Lemma C6_nil_pointer_padding :
  zero (TPtr (TScalar Uint32)) = VPtr None
  /\ encodeField no_marshaler (TSlice (TPtr (TScalar Uint32)))
       (VSlice (Some [VPtr (Some (VInt 7))])) "2"
     = Err ErrNilPointer
  /\ Marshal no_marshaler
       (Samples.one_field "Ptrs" "2" (TSlice (TPtr (TScalar Uint32))))
       (VStruct [VSlice (Some [VPtr (Some (VInt 7))])])
     = Err (ErrValue (ErrField "Ptrs" ErrNilPointer))
  /\ Marshal no_marshaler
       (Samples.one_field "Ptrs" "1" (TSlice (TPtr (TScalar Uint32))))
       (VStruct [VSlice (Some [VPtr (Some (VInt 7))])])
     = Ok (le_bytes 4 7).
Proof. repeat split; reflexivity. Qed.

(** The fixed-tag scenarios of the package's tests, evaluated. *)
Example fixed_tag_scenarios :
  Marshal no_marshaler
    (Samples.one_field "Data" "5" (TSlice (TScalar Uint32)))
    (VStruct [VSlice (Some (Samples.ints [1; 2; 3]))])
  = Ok (le_bytes 4 1 ++ le_bytes 4 2 ++ le_bytes 4 3 ++ repeat x00 8)
  /\ Marshal no_marshaler
       (Samples.one_field "Data" "3" (TSlice (TScalar Uint32)))
       (VStruct [VSlice (Some (Samples.ints [10; 20; 30; 40; 50; 60; 70]))])
     = Ok (le_bytes 4 10 ++ le_bytes 4 20 ++ le_bytes 4 30)
  /\ Unmarshal no_unmarshaler
       (le_bytes 4 1 ++ le_bytes 4 2 ++ le_bytes 4 3 ++ le_bytes 4 4
          ++ le_bytes 4 5)
       (TPtr (Samples.one_field "Numbers" "5" (TArray 3 (TScalar Int32))))
       (VPtr (Some (VStruct [VArray (Samples.ints [0; 0; 0])])))
     = Ok (VPtr (Some (VStruct [VArray (Samples.ints [1; 2; 3])])))
  /\ Unmarshal no_unmarshaler (le_bytes 4 1 ++ le_bytes 4 2)
       (TPtr (Samples.one_field "Numbers" "2" (TArray 3 (TScalar Int32))))
       (VPtr (Some (VStruct [VArray (Samples.ints [7; 8; 9])])))
     = Ok (VPtr (Some (VStruct [VArray (Samples.ints [1; 2; 0])]))).
Proof. repeat split; reflexivity. Qed.

(** C7 as stated fails for a field whose type has a custom codec: both
    walkers test the capability before they look at the tag.  With the
    codec of the package's tests ([MarshalBinary] on [CustomType]) the field
    [Custom CustomType `binary:"-"`] is written, length-prefixed, and read
    back.  With the codec of the README (both methods on [*CustomType]) the
    encoder passes over the field, and the decoder still reads an envelope
    for it: it takes the four bytes of [Number] for a length and fails. *)
Lemma C7_custom_field_ignores_exclusion :
  Marshal TestCustom.marshaler (Samples.StructWithCustomType "-")
          (VStruct [VStruct [VString (bytes "test")]; VInt 42])
  = Ok ([x0b; x00; x00; x00] ++ bytes "custom:test" ++ [x2a; x00; x00; x00])
  /\ Marshal TestCustom.marshaler (Samples.StructWithCustomType "-")
             (VStruct [VStruct [VString (bytes "test")]; VInt 42])
     <> Marshal TestCustom.marshaler
          (TStruct "StructWithCustomType"
                   (FCons "Number" true "" (TScalar Uint32) FNil))
          (VStruct [VInt 42])
  /\ Unmarshal TestCustom.unmarshaler
       ([x0b; x00; x00; x00] ++ bytes "custom:test" ++ [x2a; x00; x00; x00])
       (TPtr (Samples.StructWithCustomType "-"))
       (VPtr (Some (VStruct [VStruct [VString []]; VInt 0])))
     = Ok (VPtr (Some (VStruct [VStruct [VString (bytes "test")]; VInt 42])))
  /\ Marshal TestCustom.readme_marshaler (Samples.StructWithCustomType "-")
             (VStruct [VStruct [VString (bytes "test")]; VInt 42])
     = Ok [x2a; x00; x00; x00]
  /\ Unmarshal TestCustom.unmarshaler [x2a; x00; x00; x00]
       (TPtr (Samples.StructWithCustomType "-"))
       (VPtr (Some (VStruct [VStruct [VString []]; VInt 0])))
     = Err (ErrValue EOF).
Proof.
  split; [reflexivity|]. split; [|repeat split; reflexivity].
  intros H. vm_compute in H. discriminate H.
Qed.

(** ** Round trip *)

Lemma zero_has_type_mutual :
  (forall t, has_type t (zero t) = true)
  /\ (forall fs, have_types fs (zeros fs) = true).
Proof.
  apply ty_mutind.
  - intros []; reflexivity.
  - reflexivity.
  - reflexivity.
  - intros n e IH. cbn [zero has_type]. rewrite repeat_length, Nat.eqb_refl.
    apply forallb_repeat, IH.
  - intros name fs IH. exact IH.
  - reflexivity.
  - reflexivity.
  - reflexivity.
  - intros name exported tag t IHt rest IHr. cbn [zeros have_types].
    rewrite IHt, IHr. reflexivity.
Qed.

Lemma zero_has_type (t : ty) : has_type t (zero t) = true.
Proof. apply zero_has_type_mutual. Qed.

Lemma bindR_Ok {A B} (x : result A) (k : A -> result B) (b : B) :
  bindR x k = Ok b -> exists a, x = Ok a /\ k a = Ok b.
Proof.
  destruct x as [a|e]; cbn [bindR]; intros H; [|discriminate].
  exists a. split; [reflexivity | exact H].
Qed.

Lemma encode_all_cons (enc : value -> result (list byte)) (x : value)
  (xs : list value) (bs : list byte) :
  encode_all enc (x :: xs) = Ok bs ->
  exists b bs', enc x = Ok b /\ encode_all enc xs = Ok bs' /\ bs = b ++ bs'.
Proof.
  cbn [encode_all]. intros H.
  apply bindR_Ok in H. destruct H as (b & Hb & H).
  apply bindR_Ok in H. destruct H as (bs' & Hbs & H).
  inversion H; subst. exists b, bs'. auto.
Qed.

(** Decoding the encodings of a sequence, element by element: what the
    element codec guarantees for one element holds for the sequence. *)
Lemma decode_all_roundtrip
  (enc : value -> result (list byte)) (dec : value -> Dec value)
  (exp : value -> value -> value) (wt sol : value -> bool) :
  (forall c x b rest,
      wt x = true -> wt c = true -> enc x = Ok b ->
      rest <> [] \/ sol x = true ->
      dec c (b ++ rest) = (Ok (exp c x), rest)) ->
  forall xs cs bs rest,
    length cs = length xs ->
    forallb wt xs = true -> forallb wt cs = true ->
    encode_all enc xs = Ok bs ->
    rest <> [] \/ forallb sol xs = true ->
    decode_all dec cs (bs ++ rest) = (Ok (zipWith exp cs xs), rest).
Proof.
  intros Helem.
  induction xs as [|x xs IH]; intros [|c cs] bs rest Hl Hx Hc He Hs;
    try discriminate Hl.
  - inversion He; subst. reflexivity.
  - apply encode_all_cons in He. destruct He as (b & bs' & Hb & Hbs & ->).
    cbn [forallb] in Hx, Hc. apply andb_prop in Hx, Hc.
    destruct Hx as [Hx Hxs], Hc as [Hc Hcs].
    cbn [decode_all zipWith]. unfold bindD.
    rewrite <- app_assoc.
    rewrite (Helem c x b (bs' ++ rest) Hx Hc Hb).
    + rewrite (IH cs bs' rest); auto.
      destruct Hs as [Hs|Hs]; [left; exact Hs|right].
      cbn [forallb] in Hs. apply andb_prop in Hs. apply Hs.
    + destruct Hs as [Hs|Hs].
      * left. intros E. apply app_eq_nil in E. destruct E; contradiction.
      * right. cbn [forallb] in Hs. apply andb_prop in Hs. apply Hs.
Qed.

Lemma zipWith_repeat {A B} (f : value -> A -> B) (z : value) (xs : list A) :
  zipWith f (repeat z (length xs)) xs = map (f z) xs.
Proof.
  induction xs as [|x xs IH]; cbn [length repeat zipWith map];
    [reflexivity|]. rewrite IH. reflexivity.
Qed.

Lemma zipWith_length {A B C} (f : A -> B -> C) (l1 : list A) (l2 : list B) :
  length l1 = length l2 -> length (zipWith f l1 l2) = length l1.
Proof.
  revert l2. induction l1 as [|a l1 IH]; intros [|b l2] H;
    try discriminate H; cbn [zipWith length]; [reflexivity|].
  f_equal. apply IH. injection H as H. exact H.
Qed.

Lemma bytes_of_length (xs : list value) : length (bytes_of xs) = length xs.
Proof. apply length_map. Qed.

Lemma values_of_length (bs : list byte) : length (values_of bs) = length bs.
Proof. apply length_map. Qed.

(** Default framing round trip of a payload, the input not at its end when
    the payload is read. *)
Lemma read_prefixed_roundtrip (b rest : list byte) :
  len b < 2 ^ 32 -> rest <> [] \/ b <> [] ->
  read_prefixed (put_uint32 (uint32 (len b)) ++ b ++ rest) = (Ok b, rest).
Proof.
  intros Hb Hne. unfold read_prefixed, bindD.
  unfold uint32. rewrite Z.mod_small by (unfold len in *; lia).
  rewrite read_uint32_put by (unfold len in *; lia).
  unfold len. rewrite Nat2Z.id. apply Read_app; [reflexivity|].
  intros E. apply app_eq_nil in E. destruct E, Hne; contradiction.
Qed.

Lemma Read_fixed_roundtrip (b rest : list byte) (n : Z) :
  len b < 2 ^ 32 -> 0 <= n -> rest <> [] \/ 0 < n ->
  Read (Z.to_nat n) (fixed_payload b n ++ rest)
  = (Ok (fixed_payload b n), rest).
Proof.
  intros Hb Hn Hne. apply Read_app.
  - apply fixed_payload_length; assumption.
  - intros E. apply app_eq_nil in E. destruct E as [E1 E2].
    destruct Hne as [Hne|Hne]; [contradiction|].
    apply (f_equal (@length _)) in E1.
    rewrite fixed_payload_length in E1 by assumption. simpl in E1. lia.
Qed.

(** The payload a byte field is encoded to under [tag]. *)
Lemma payload_cases (tag : string) (b : list byte) :
  len b < 2 ^ 32 ->
  encodeBytes b tag
  = match parseTag tag with
    | Some n => fixed_payload b n
    | None => put_uint32 (uint32 (len b)) ++ b
    end.
Proof.
  intros _. unfold encodeBytes. apply tag_dispatch.
Qed.

Lemma is_nil_false {A} (l : list A) : negb (is_nil l) = true -> l <> [].
Proof. destruct l; [discriminate|]. intros _ E. discriminate E. Qed.

Lemma roundtrip_string (tag : string) (cur : value) (s rest : list byte) :
  len s < 2 ^ 32 ->
  rest <> [] \/ solid TString tag (VString s) = true ->
  decodeString tag (encodeString s tag ++ rest)
  = (Ok (expected TString tag cur (VString s)), rest).
Proof.
  intros Hs Hne. unfold decodeString, encodeString.
  rewrite !tag_dispatch. cbn [expected solid] in *.
  destruct (parseTag tag) as [n|] eqn:Et.
  - pose proof (parseTag_range _ _ Et) as Hn.
    unfold bindD. rewrite Read_fixed_roundtrip; [reflexivity|lia|lia|].
    destruct Hne as [H|H]; [left; exact H|right; apply Z.ltb_lt; exact H].
  - unfold bindD. rewrite <- app_assoc, read_prefixed_roundtrip;
      [reflexivity|exact Hs|].
    destruct Hne as [H|H]; [left; exact H|right; apply is_nil_false, H].
Qed.

Lemma roundtrip_bytes (tag : string) (b rest : list byte) :
  len b < 2 ^ 32 ->
  rest <> []
  \/ match parseTag tag with
     | Some n => 0 <? n
     | None => negb (is_nil b)
     end = true ->
  decodeBytes tag (encodeBytes b tag ++ rest)
  = (Ok (VSlice (Some (values_of
                         match parseTag tag with
                         | Some n => fixed_payload b n
                         | None => b
                         end))), rest).
Proof.
  intros Hb Hne. unfold decodeBytes. rewrite payload_cases by exact Hb.
  rewrite !tag_dispatch.
  destruct (parseTag tag) as [n|] eqn:Et.
  - pose proof (parseTag_range _ _ Et) as Hn.
    unfold bindD. rewrite Read_fixed_roundtrip; [reflexivity|lia|lia|].
    destruct Hne as [H|H]; [left; exact H|right; apply Z.ltb_lt; exact H].
  - unfold bindD. rewrite <- app_assoc, read_prefixed_roundtrip;
      [reflexivity|exact Hb|].
    destruct Hne as [H|H]; [left; exact H|right; apply is_nil_false, H].
Qed.

Lemma roundtrip_byte_array (N : nat) (tag : string) (b rest : list byte) :
  len b < 2 ^ 32 ->
  rest <> []
  \/ match parseTag tag with
     | Some n => 0 <? n
     | None => negb (is_nil b)
     end = true ->
  decodeByteArray N tag (encodeBytes b tag ++ rest)
  = (Ok (fill_array N match parseTag tag with
                      | Some n => fixed_payload b n
                      | None => b
                      end), rest).
Proof.
  intros Hb Hne. unfold decodeByteArray. rewrite payload_cases by exact Hb.
  rewrite !tag_dispatch.
  destruct (parseTag tag) as [n|] eqn:Et.
  - pose proof (parseTag_range _ _ Et) as Hn.
    unfold bindD. rewrite Read_fixed_roundtrip; [reflexivity|lia|lia|].
    destruct Hne as [H|H]; [left; exact H|right; apply Z.ltb_lt; exact H].
  - unfold bindD. rewrite <- app_assoc, read_prefixed_roundtrip;
      [reflexivity|exact Hb|].
    destruct Hne as [H|H]; [left; exact H|right; apply is_nil_false, H].
Qed.

Section SequenceRoundTrip.

Variable enc : value -> result (list byte).
Variable dec : value -> Dec value.
Variable exp : value -> value -> value.
Variables wt sol : value -> bool.
Variable z : value.

Hypothesis Helem : forall c x b rest,
    wt x = true -> wt c = true -> enc x = Ok b ->
    rest <> [] \/ sol x = true ->
    dec c (b ++ rest) = (Ok (exp c x), rest).
Hypothesis Hz : wt z = true.

Lemma roundtrip_slice (xs : list value) (tag : string) (bs rest : list byte) :
  len xs < 2 ^ 32 -> forallb wt xs = true ->
  encodeSlice enc z xs tag = Ok bs ->
  rest <> []
  \/ forallb sol match parseTag tag with
                 | Some n => fixed_elems (Z.to_nat n) xs z
                 | None => xs
                 end = true ->
  decodeSlice dec z tag (bs ++ rest)
  = (Ok (VSlice (Some (map (exp z)
                           match parseTag tag with
                           | Some n => fixed_elems (Z.to_nat n) xs z
                           | None => xs
                           end))), rest).
Proof.
  intros Hx Hwt He Hs. unfold decodeSlice. rewrite tag_dispatch.
  destruct (parseTag tag) as [n|] eqn:Et.
  - rewrite (encodeSlice_fixed enc z xs tag n Et Hx) in He.
    rewrite decodeSlice_loop_spec.
    rewrite (decode_all_roundtrip enc dec exp wt sol Helem
               (fixed_elems (Z.to_nat n) xs z) (repeat z (Z.to_nat n))
               bs rest); auto.
    + cbn [mapOk]. rewrite <- (fixed_elems_length (Z.to_nat n) xs z) at 1.
      rewrite zipWith_repeat. reflexivity.
    + rewrite repeat_length, fixed_elems_length. reflexivity.
    + apply forallb_fixed_elems; assumption.
    + apply forallb_repeat, Hz.
  - rewrite (encodeSlice_default enc z xs tag Et Hx) in He.
    apply bindR_Ok in He. destruct He as (bs' & Hbs & He).
    replace bs with (put_uint32 (len xs) ++ bs') by congruence. clear He.
    unfold bindD. rewrite <- app_assoc.
    rewrite read_uint32_put by (unfold len in *; lia).
    unfold len. rewrite Nat2Z.id. rewrite decodeSlice_loop_spec.
    rewrite (decode_all_roundtrip enc dec exp wt sol Helem
               xs (repeat z (length xs)) bs' rest); auto.
    + cbn [mapOk]. rewrite zipWith_repeat. reflexivity.
    + apply repeat_length.
    + apply forallb_repeat, Hz.
Qed.

Lemma roundtrip_array (cs xs : list value) (tag : string)
  (bs rest : list byte) :
  length xs = length cs -> len cs < 2 ^ 32 ->
  forallb wt xs = true -> forallb wt cs = true ->
  encodeSlice enc z xs tag = Ok bs ->
  rest <> []
  \/ forallb sol match parseTag tag with
                 | Some n => fixed_elems (Z.to_nat n) xs z
                 | None => xs
                 end = true ->
  decodeArray dec z (length cs) cs tag (bs ++ rest)
  = (Ok match parseTag tag with
        | Some n =>
            VArray (firstn (length cs)
                           (zipWith exp (fixed_elems (Z.to_nat n) cs z)
                                        (fixed_elems (Z.to_nat n) xs z))
                      ++ repeat z (length cs - Z.to_nat n))
        | None => VArray (zipWith exp cs xs)
        end, rest).
Proof.
  intros Hl Hc Hwx Hwc He Hs. unfold decodeArray. rewrite tag_dispatch.
  assert (Hx : len xs < 2 ^ 32) by (unfold len in *; rewrite Hl; exact Hc).
  unfold uint32 at 1 2. rewrite Z.mod_small by (unfold len in *; lia).
  destruct (parseTag tag) as [n|] eqn:Et.
  - rewrite (encodeSlice_fixed enc z xs tag n Et Hx) in He.
    rewrite decodeArray_loop_spec.
    rewrite (decode_all_roundtrip enc dec exp wt sol Helem
               (fixed_elems (Z.to_nat n) xs z)
               (fixed_elems (Z.to_nat n) cs z) bs rest); auto.
    + rewrite !fixed_elems_length. reflexivity.
    + apply forallb_fixed_elems; assumption.
    + apply forallb_fixed_elems; assumption.
  - rewrite (encodeSlice_default enc z xs tag Et Hx) in He.
    apply bindR_Ok in He. destruct He as (bs' & Hbs & He).
    replace bs with (put_uint32 (len xs) ++ bs') by congruence. clear He.
    unfold bindD. rewrite <- app_assoc.
    rewrite read_uint32_put by (unfold len in *; lia).
    unfold len. rewrite Hl. rewrite decodeArray_loop_spec.
    rewrite Nat2Z.id. unfold fixed_elems at 1.
    rewrite firstn_all, Nat.sub_diag. cbn [repeat]. rewrite !app_nil_r.
    rewrite (decode_all_roundtrip enc dec exp wt sol Helem
               xs cs bs' rest); auto.
    cbn [mapOk]. rewrite firstn_all2; [rewrite ?app_nil_r; reflexivity|].
    rewrite zipWith_length by (symmetry; exact Hl). lia.
Qed.

End SequenceRoundTrip.

Lemma is_nil_bytes_of (xs : list value) : is_nil (bytes_of xs) = is_nil xs.
Proof. destruct xs; reflexivity. Qed.

Section RoundTrip.

Variable m : ty -> option (value -> result (list byte)).
Variable u : ty -> option (list byte -> value -> result value).

(** No type has a custom codec. *)
Hypothesis Hm : forall t, m t = None.
Hypothesis Hu : forall t, u t = None.

(** Decoding what the encoder wrote for [v], whatever follows it, yields
    [expected] and stops right after the encoding, as long as no
    zero-length read meets the end of the input. *)
Lemma roundtrip_mutual :
  (forall t, plain t = true ->
     forall tag cur v enc rest,
       has_type t v = true -> has_type t cur = true ->
       encodeField m t v tag = Ok enc ->
       rest <> [] \/ solid t tag v = true ->
       decodeField u t cur tag (enc ++ rest)
       = (Ok (expected t tag cur v), rest))
  /\ (forall fs, plain_fields fs = true ->
        forall cs vs enc rest,
          have_types fs vs = true -> have_types fs cs = true ->
          encodeStruct m fs vs = Ok enc ->
          rest <> [] \/ solid_fields fs vs = true ->
          decodeStruct u fs cs (enc ++ rest)
          = (Ok (expected_fields fs cs vs), rest)).
Proof.
  apply ty_mutind.
  - (* scalars *)
    intros k Hp tag cur v enc rest Hv Hc He Hs.
    cbn [plain] in Hp. cbn [has_type] in Hv. cbn [encodeField] in He.
    rewrite write_scalar_ok in He
      by (try assumption; intros ->; discriminate Hp).
    inversion He; subst enc. rewrite decodeField_scalar by assumption.
    apply scalar_roundtrip; assumption.
  - (* strings *)
    intros _ tag cur v enc rest Hv Hc He Hs.
    destruct v; try discriminate Hv.
    cbn [has_type] in Hv. apply Z.ltb_lt in Hv.
    cbn [encodeField] in He. inversion He; subst enc.
    cbn [decodeField]. apply roundtrip_string; assumption.
  - (* slices *)
    intros e IH Hp tag cur v enc rest Hv Hc He Hs.
    destruct v as [| | | |xs| | | |]; try discriminate Hv.
    cbn [has_type] in Hv. apply andb_prop in Hv. destruct Hv as [Hlen Hv].
    apply Z.ltb_lt in Hlen.
    cbn [plain] in Hp. cbn [encodeField] in He.
    cbn [decodeField expected]. cbn [solid] in Hs.
    destruct (is_uint8 e) eqn:E8.
    + inversion He; subst enc. rewrite roundtrip_bytes.
      * destruct (parseTag tag); reflexivity.
      * unfold len in *. rewrite bytes_of_length. exact Hlen.
      * rewrite is_nil_bytes_of. exact Hs.
    + assert (Helem : forall c x b r,
                 has_type e x = true -> has_type e c = true ->
                 encodeField m e x "" = Ok b ->
                 r <> [] \/ solid e "" x = true ->
                 decodeField u e c "" (b ++ r)
                 = (Ok (expected e "" c x), r))
        by (intros; apply IH; assumption).
      assert (Hs' : rest <> []
                    \/ forallb (solid e "")
                         match parseTag tag with
                         | Some n =>
                             fixed_elems (Z.to_nat n) (elems xs) (zero e)
                         | None => elems xs
                         end = true)
        by (destruct (parseTag tag); exact Hs).
      rewrite (roundtrip_slice (fun x => encodeField m e x "")
                 (fun c => decodeField u e c "") (expected e "")
                 (has_type e) (solid e "") (zero e) Helem
                 (zero_has_type e) (elems xs) tag enc rest
                 Hlen Hv He Hs').
      destruct (parseTag tag); reflexivity.
  - (* arrays *)
    intros n e IH Hp tag cur v enc rest Hv Hc He Hs.
    destruct v as [| | | | |xs| | |]; try discriminate Hv.
    destruct cur as [| | | | |cs| | |]; try discriminate Hc.
    cbn [has_type] in Hv, Hc. apply andb_prop in Hv, Hc.
    destruct Hv as [Hlx Hv], Hc as [Hlc Hc].
    apply Nat.eqb_eq in Hlx, Hlc.
    cbn [plain] in Hp. apply andb_prop in Hp. destruct Hp as [Hn Hp].
    apply Z.ltb_lt in Hn.
    cbn [encodeField] in He. cbn [decodeField expected]. cbn [solid] in Hs.
    destruct (is_uint8 e) eqn:E8.
    + inversion He; subst enc. rewrite roundtrip_byte_array.
      * destruct (parseTag tag); reflexivity.
      * unfold len in *. rewrite bytes_of_length. lia.
      * rewrite is_nil_bytes_of. exact Hs.
    + subst n.
      assert (Helem : forall c x b r,
                 has_type e x = true -> has_type e c = true ->
                 encodeField m e x "" = Ok b ->
                 r <> [] \/ solid e "" x = true ->
                 decodeField u e c "" (b ++ r)
                 = (Ok (expected e "" c x), r))
        by (intros; apply IH; assumption).
      assert (Hs' : rest <> []
                    \/ forallb (solid e "")
                         match parseTag tag with
                         | Some n => fixed_elems (Z.to_nat n) xs (zero e)
                         | None => xs
                         end = true)
        by (destruct (parseTag tag); exact Hs).
      assert (Hcs : len cs < 2 ^ 32) by (unfold len; rewrite Hlc; exact Hn).
      pose proof (roundtrip_array (fun x => encodeField m e x "")
                    (fun c => decodeField u e c "") (expected e "")
                    (has_type e) (solid e "") (zero e) Helem
                    (zero_has_type e) cs xs tag enc rest
                    (eq_sym Hlc) Hcs Hv Hc He Hs') as R.
      rewrite Hlc in R. rewrite R.
      destruct (parseTag tag); reflexivity.
  - (* structs *)
    intros name fs IH Hp tag cur v enc rest Hv Hc He Hs.
    destruct v as [| | | | | |vs| |]; try discriminate Hv.
    destruct cur as [| | | | | |cs| |]; try discriminate Hc.
    cbn [has_type plain encodeField solid] in *.
    cbn [decodeField expected]. unfold bindD.
    rewrite (IH Hp cs vs enc rest); auto.
  - (* pointers *)
    intros e IH Hp tag cur v enc rest Hv Hc He Hs.
    destruct v as [| | | | | | |[x|]|]; try discriminate Hv;
      try discriminate He.
    cbn [has_type plain encodeField solid] in *.
    destruct cur as [| | | | | | |[c|]|]; try discriminate Hc;
      cbn [decodeField expected]; unfold bindD.
    + rewrite (IH Hp tag c x enc rest); auto.
    + rewrite (IH Hp tag (zero e) x enc rest); auto using zero_has_type.
  - (* unsupported kinds *)
    intros kind Hp. discriminate Hp.
  - (* no field *)
    intros _ cs vs enc rest Hv Hc He Hs.
    destruct vs; try discriminate Hv. destruct cs; try discriminate Hc.
    inversion He; subst enc. reflexivity.
  - (* a field and the fields after it *)
    intros name exported tag t IHt fs IHr Hp cs vs enc rest Hv Hc He Hs.
    destruct vs as [|v vs]; try discriminate Hv.
    destruct cs as [|c cs]; try discriminate Hc.
    cbn [have_types plain_fields solid_fields] in *.
    apply andb_prop in Hv, Hc, Hp.
    destruct Hv as [Hv Hvs], Hc as [Hc Hcs], Hp as [Hp Hps].
    assert (Hss : rest <> [] \/ solid_fields fs vs = true).
    { destruct Hs as [Hs|Hs]; [left; exact Hs|right].
      apply andb_prop in Hs. apply Hs. }
    cbn [encodeStruct] in He. cbn [decodeStruct expected_fields].
    rewrite Hm in He.
    replace (if is_struct t then u (TPtr t) else None)
      with (@None (list byte -> value -> result value))
      by (destruct (is_struct t); [rewrite Hu|]; reflexivity).
    unfold skipped in *.
    destruct exported; cbn [negb orb] in *.
    + destruct (String.eqb tag "-") eqn:Etag.
      * unfold bindD. rewrite (IHr Hps cs vs enc rest); auto.
      * destruct (encodeField m t v tag) as [b|] eqn:Ef; [|discriminate He].
        apply bindR_Ok in He. destruct He as (bs & Hbs & He).
        inversion He; subst enc. clear He.
        rewrite <- app_assoc. unfold bindD, mapErr.
        rewrite (IHt Hp tag c v b (bs ++ rest)); auto.
        -- rewrite (IHr Hps cs vs bs rest); auto.
        -- destruct Hs as [Hs|Hs].
           ++ left. intros E. apply app_eq_nil in E.
              destruct E; contradiction.
           ++ right. apply andb_prop in Hs. apply Hs.
    + unfold bindD. rewrite (IHr Hps cs vs enc rest); auto.
Qed.

End RoundTrip.

(** ** Values a round trip gives back unchanged *)

Lemma values_of_bytes_of (xs : list value) :
  forallb (has_type (TScalar Uint8)) xs = true ->
  values_of (bytes_of xs) = xs.
Proof.
  induction xs as [|x xs IH]; intros H; [reflexivity|].
  cbn [forallb] in H. apply andb_prop in H. destruct H as [Hx Hxs].
  cbn [bytes_of values_of map]. fold (bytes_of xs). fold (values_of (bytes_of xs)).
  rewrite IH by exact Hxs. f_equal.
  destruct x; try discriminate Hx. cbn [has_type in_range width] in Hx.
  apply andb_prop in Hx. destruct Hx as [H1 H2].
  apply Z.leb_le in H1. apply Z.ltb_lt in H2.
  rewrite Z_of_byte_of_Z, Z.mod_small; [reflexivity|].
  change (2 ^ (8 * Z.of_nat 1)) with 256 in H2. lia.
Qed.

Lemma is_uint8_eq (e : ty) : is_uint8 e = true -> e = TScalar Uint8.
Proof. destruct e as [[]| | | | | |]; try discriminate; reflexivity. Qed.

Lemma fill_array_exact (xs : list value) :
  forallb (has_type (TScalar Uint8)) xs = true ->
  fill_array (length xs) (bytes_of xs) = VArray xs.
Proof.
  intros H. unfold fill_array.
  rewrite bytes_of_length, Nat.min_id, Nat.sub_diag.
  rewrite <- (bytes_of_length xs) at 1. rewrite firstn_all.
  rewrite values_of_bytes_of by exact H. cbn [repeat].
  rewrite app_nil_r. reflexivity.
Qed.

Lemma map_fixpoint (f : value -> value) (P : value -> bool) (xs : list value) :
  (forall x, P x = true -> f x = x) ->
  forallb P xs = true -> map f xs = xs.
Proof.
  intros Hf. induction xs as [|x xs IH]; intros H; [reflexivity|].
  cbn [forallb] in H. apply andb_prop in H. destruct H as [Hx Hxs].
  cbn [map]. rewrite Hf, IH by assumption. reflexivity.
Qed.

Lemma zipWith_fixpoint (f : value -> value -> value) (P Q : value -> bool)
  (cs xs : list value) :
  (forall c x, Q c = true -> P x = true -> f c x = x) ->
  length cs = length xs ->
  forallb Q cs = true -> forallb P xs = true -> zipWith f cs xs = xs.
Proof.
  intros Hf. revert cs. induction xs as [|x xs IH]; intros [|c cs] Hl Hc Hx;
    try discriminate Hl; [reflexivity|].
  cbn [forallb] in Hc, Hx. apply andb_prop in Hc, Hx.
  destruct Hc as [Hc Hcs], Hx as [Hx Hxs].
  cbn [zipWith]. rewrite Hf, IH by (try assumption; injection Hl; auto).
  reflexivity.
Qed.

Lemma expected_exact_mutual :
  (forall t tag cur v,
      parseTag tag = None ->
      has_type t v = true -> has_type t cur = true -> exact t v = true ->
      expected t tag cur v = v)
  /\ (forall fs cs vs,
         have_types fs vs = true -> have_types fs cs = true ->
         exact_fields fs vs = true ->
         expected_fields fs cs vs = vs).
Proof.
  apply ty_mutind.
  - reflexivity.
  - intros tag cur v Ht _ _ _. cbn [expected]. rewrite Ht. reflexivity.
  - intros e IH tag cur v Ht Hv Hc Hx.
    destruct v as [| | | |[xs|]| | | |]; try discriminate Hx.
    cbn [has_type elems exact] in Hv, Hx.
    apply andb_prop in Hv. destruct Hv as [_ Hv].
    cbn [expected elems]. rewrite Ht.
    destruct (is_uint8 e) eqn:E8.
    + apply is_uint8_eq in E8. subst e.
      rewrite values_of_bytes_of by exact Hv. reflexivity.
    + rewrite (map_fixpoint (expected e "" (zero e))
                 (fun x => has_type e x && exact e x)).
      * reflexivity.
      * intros x H. apply andb_prop in H. destruct H.
        apply IH; auto using zero_has_type.
      * clear - Hv Hx. induction xs as [|x xs IHx]; [reflexivity|].
        cbn [forallb] in *. apply andb_prop in Hv, Hx.
        destruct Hv as [-> ?], Hx as [-> ?]. cbn [andb]. auto.
  - intros n e IH tag cur v Ht Hv Hc Hx.
    destruct v as [| | | | |xs| | |]; try discriminate Hv.
    destruct cur as [| | | | |cs| | |]; try discriminate Hc.
    cbn [has_type exact] in Hv, Hc, Hx.
    apply andb_prop in Hv, Hc.
    destruct Hv as [Hlx Hv], Hc as [Hlc Hc].
    apply Nat.eqb_eq in Hlx, Hlc.
    cbn [expected]. rewrite Ht.
    destruct (is_uint8 e) eqn:E8.
    + apply is_uint8_eq in E8. subst e n. apply fill_array_exact, Hv.
    + rewrite (zipWith_fixpoint (expected e "")
                 (fun x => has_type e x && exact e x) (has_type e)).
      * reflexivity.
      * intros c x Hcx H. apply andb_prop in H. destruct H.
        apply IH; auto.
      * congruence.
      * exact Hc.
      * clear - Hv Hx. induction xs as [|x xs IHx]; [reflexivity|].
        cbn [forallb] in *. apply andb_prop in Hv, Hx.
        destruct Hv as [-> ?], Hx as [-> ?]. cbn [andb]. auto.
  - intros name fs IH tag cur v Ht Hv Hc Hx.
    destruct v as [| | | | | |vs| |]; try discriminate Hv.
    destruct cur as [| | | | | |cs| |]; try discriminate Hc.
    cbn [has_type exact expected] in *. f_equal. apply IH; assumption.
  - intros e IH tag cur v Ht Hv Hc Hx.
    destruct v as [| | | | | | |[x|]|]; try discriminate Hx.
    cbn [has_type exact expected] in *. do 2 f_equal.
    destruct cur as [| | | | | | |[c|]|]; try discriminate Hc;
      apply IH; auto using zero_has_type.
  - reflexivity.
  - intros cs vs Hv Hc _.
    destruct vs; try discriminate Hv. destruct cs; reflexivity.
  - intros name exported tag t IHt fs IHr cs vs Hv Hc Hx.
    destruct vs as [|v vs]; try discriminate Hv.
    destruct cs as [|c cs]; try discriminate Hc.
    cbn [have_types exact_fields expected_fields] in *.
    apply andb_prop in Hv, Hc. destruct Hv as [Hv Hvs], Hc as [Hc Hcs].
    apply andb_prop in Hx. destruct Hx as [Hx Hxs].
    apply andb_prop in Hx. destruct Hx as [Hx Hxv].
    apply andb_prop in Hx. destruct Hx as [Hsk Htag].
    destruct (skipped exported tag); [discriminate Hsk|].
    destruct (parseTag tag) eqn:Et; [discriminate Htag|].
    rewrite IHt, IHr by assumption. reflexivity.
Qed.

(** ** Values the encoder accepts *)

Lemma encode_all_ok (enc : value -> result (list byte)) (P : value -> bool)
  (xs : list value) :
  (forall x, P x = true -> exists b, enc x = Ok b) ->
  forallb P xs = true -> exists bs, encode_all enc xs = Ok bs.
Proof.
  intros Hf. induction xs as [|x xs IH]; intros H.
  - exists []. reflexivity.
  - cbn [forallb] in H. apply andb_prop in H. destruct H as [Hx Hxs].
    destruct (Hf x Hx) as [b Hb]. destruct (IH Hxs) as [bs Hbs].
    exists (b ++ bs). cbn [encode_all]. rewrite Hb, Hbs. reflexivity.
Qed.

Lemma forallb_and (P Q : value -> bool) (xs : list value) :
  forallb P xs = true -> forallb Q xs = true ->
  forallb (fun x => P x && Q x) xs = true.
Proof.
  induction xs as [|x xs IH]; intros HP HQ; [reflexivity|].
  cbn [forallb] in *. apply andb_prop in HP, HQ.
  destruct HP as [-> HP], HQ as [-> HQ]. cbn [andb]. auto.
Qed.

Section Encodable.

Variable m : ty -> option (value -> result (list byte)).
Hypothesis Hm : forall t, m t = None.

(** The encoder accepts every [exact] value of a [plain] type. *)
Lemma encodable_mutual :
  (forall t, plain t = true ->
     forall tag v,
       parseTag tag = None ->
       has_type t v = true -> exact t v = true ->
       exists enc, encodeField m t v tag = Ok enc)
  /\ (forall fs, plain_fields fs = true ->
        forall vs,
          have_types fs vs = true -> exact_fields fs vs = true ->
          exists enc, encodeStruct m fs vs = Ok enc).
Proof.
  apply ty_mutind.
  - intros k Hp tag v _ Hv _. cbn [plain has_type encodeField] in *.
    eexists. apply write_scalar_ok; [|exact Hv].
    intros ->. discriminate Hp.
  - intros _ tag v _ Hv _. destruct v; try discriminate Hv.
    eexists. reflexivity.
  - intros e IH Hp tag v Ht Hv Hx.
    destruct v as [| | | |[xs|]| | | |]; try discriminate Hx.
    cbn [plain has_type exact elems encodeField] in *.
    apply andb_prop in Hv. destruct Hv as [Hlen Hv]. apply Z.ltb_lt in Hlen.
    destruct (is_uint8 e); [eexists; reflexivity|].
    rewrite encodeSlice_default by assumption.
    destruct (encode_all_ok (fun x => encodeField m e x "")
                (fun x => has_type e x && exact e x) xs) as [bs Hbs].
    + intros x H. apply andb_prop in H. destruct H. apply IH; auto.
    + apply forallb_and; assumption.
    + rewrite Hbs. eexists. reflexivity.
  - intros n e IH Hp tag v Ht Hv Hx.
    destruct v as [| | | | |xs| | |]; try discriminate Hv.
    cbn [plain has_type exact encodeField] in *.
    apply andb_prop in Hv, Hp. destruct Hv as [Hlen Hv], Hp as [Hn Hp].
    apply Nat.eqb_eq in Hlen. apply Z.ltb_lt in Hn.
    destruct (is_uint8 e); [eexists; reflexivity|].
    unfold encodeArray.
    rewrite encodeSlice_default
      by (try assumption; unfold len; rewrite Hlen; exact Hn).
    destruct (encode_all_ok (fun x => encodeField m e x "")
                (fun x => has_type e x && exact e x) xs) as [bs Hbs].
    + intros x H. apply andb_prop in H. destruct H. apply IH; auto.
    + apply forallb_and; assumption.
    + rewrite Hbs. eexists. reflexivity.
  - intros name fs IH Hp tag v _ Hv Hx.
    destruct v as [| | | | | |vs| |]; try discriminate Hv.
    cbn [plain has_type exact encodeField] in *. apply IH; assumption.
  - intros e IH Hp tag v Ht Hv Hx.
    destruct v as [| | | | | | |[x|]|]; try discriminate Hx.
    cbn [plain has_type exact encodeField] in *. apply IH; assumption.
  - intros kind Hp. discriminate Hp.
  - intros _ vs Hv _. destruct vs; try discriminate Hv.
    exists []. reflexivity.
  - intros name exported tag t IHt fs IHr Hp vs Hv Hx.
    destruct vs as [|v vs]; try discriminate Hv.
    cbn [plain_fields have_types exact_fields encodeStruct] in *.
    apply andb_prop in Hv, Hp. destruct Hv as [Hv Hvs], Hp as [Hp Hps].
    apply andb_prop in Hx. destruct Hx as [Hx Hxs].
    apply andb_prop in Hx. destruct Hx as [Hx Hxv].
    apply andb_prop in Hx. destruct Hx as [Hsk Htag].
    unfold skipped in *.
    destruct exported; [|discriminate Hsk]. cbn [negb orb] in *.
    destruct (String.eqb tag "-"); [discriminate Hsk|].
    destruct (parseTag tag) eqn:Et; [discriminate Htag|].
    rewrite Hm.
    destruct (IHt Hp tag v Et Hv Hxv) as [b Hb].
    destruct (IHr Hps vs Hvs Hxs) as [bs Hbs].
    rewrite Hb, Hbs. eexists. reflexivity.
Qed.

End Encodable.

(** ** Top-level round trip *)

Lemma expected_exact (t : ty) (cur v : value) :
  has_type t v = true -> has_type t cur = true -> exact t v = true ->
  expected t "" cur v = v.
Proof.
  intros. apply expected_exact_mutual; auto.
Qed.

Lemma Marshal_plain (m : ty -> option (value -> result (list byte)))
  (t : ty) (v : value) (enc : list byte) :
  (forall t', m t' = None) ->
  Marshal m t v = Ok enc -> encodeField m t v "" = Ok enc.
Proof.
  intros Hm. unfold Marshal. rewrite Hm.
  destruct (encodeField m t v ""); [auto|discriminate].
Qed.

(** The lenient decoder on an encoding followed by [s]. *)
Lemma UnmarshalPartial_roundtrip
  (m : ty -> option (value -> result (list byte)))
  (u : ty -> option (list byte -> value -> result value))
  (t : ty) (v cur : value) (enc s : list byte) :
  (forall t', m t' = None) -> (forall t', u t' = None) ->
  plain t = true -> has_type t v = true -> has_type t cur = true ->
  Marshal m t v = Ok enc ->
  s <> [] \/ solid t "" v = true ->
  UnmarshalPartial u (enc ++ s) (TPtr t) (VPtr (Some cur))
  = (length s, Ok (VPtr (Some (expected t "" cur v)))).
Proof.
  intros Hm Hu Hp Hv Hc He Hs. apply Marshal_plain in He; [|exact Hm].
  unfold UnmarshalPartial. rewrite Hu.
  destruct (roundtrip_mutual m u Hm Hu) as [RT _].
  rewrite (RT t Hp "" cur v enc s Hv Hc He Hs). reflexivity.
Qed.

(** ** Round trip, up to the last read *)

Lemma app_nonempty_l {A} (a b : list A) : a <> [] -> a ++ b <> [].
Proof. destruct a; [congruence|]. intros _ E. discriminate E. Qed.

Lemma app_nonempty_r {A} (a b : list A) : b <> [] -> a ++ b <> [].
Proof.
  intros H E. apply app_eq_nil in E. destruct E. contradiction.
Qed.

Lemma length_nonempty {A} (l : list A) : (0 < length l)%nat -> l <> [].
Proof. destruct l; [cbn; lia|]. intros _ E. discriminate E. Qed.

Lemma put_uint32_nonempty (n : Z) (b : list byte) : put_uint32 n ++ b <> [].
Proof. intros E. discriminate E. Qed.

Lemma payload_read_full (n : Z) : payload_read n = FullRead -> 0 < n.
Proof.
  unfold payload_read. destruct (Z.ltb_spec 0 n); [auto|discriminate].
Qed.

Lemma payload_read_not_empty (n : Z) :
  payload_read n <> EmptyRead -> (0 <? n) = true.
Proof.
  unfold payload_read. destruct (0 <? n); [reflexivity|congruence].
Qed.

Lemma then_read_not_empty (a b : last_read) :
  then_read a b <> EmptyRead -> b <> EmptyRead.
Proof. destruct b; cbn; congruence. Qed.

Lemma then_read_cases (a b : last_read) :
  then_read a b <> EmptyRead ->
  b = FullRead \/ (b = NoRead /\ a <> EmptyRead).
Proof. destruct b; cbn; intros H; auto; congruence. Qed.

Lemma then_read_full (a b : last_read) :
  then_read a b = FullRead ->
  b = FullRead \/ (b = NoRead /\ a = FullRead).
Proof. destruct b; cbn; intros H; auto; congruence. Qed.

Lemma fixed_payload_nonempty (b : list byte) (n : Z) :
  len b < 2 ^ 32 -> 0 < n -> fixed_payload b n <> [].
Proof.
  intros Hb Hn. apply length_nonempty.
  rewrite fixed_payload_length by (try assumption; lia). lia.
Qed.

Section SequenceEnding.

Variable enc : value -> result (list byte).
Variable dec : value -> Dec value.
Variable exp : value -> value -> value.
Variable wt : value -> bool.
Variable endf : value -> last_read.
Variable z : value.

Hypothesis Hloud : forall x b,
    wt x = true -> enc x = Ok b -> endf x = FullRead -> b <> [].

(** A sequence whose last read takes a byte is written with a byte. *)
Lemma encode_all_loud (xs : list value) (bs : list byte) :
  forallb wt xs = true -> encode_all enc xs = Ok bs ->
  reads_of (map endf xs) = FullRead -> bs <> [].
Proof.
  revert bs. induction xs as [|x xs IH]; intros bs Hw He Hr.
  - discriminate Hr.
  - apply encode_all_cons in He. destruct He as (b & bs' & Hb & Hbs & ->).
    cbn [forallb] in Hw. apply andb_prop in Hw. destruct Hw as [Hx Hxs].
    cbn [map reads_of] in Hr. apply then_read_full in Hr.
    destruct Hr as [Hr|[_ Hr]].
    + apply app_nonempty_r. exact (IH bs' Hxs Hbs Hr).
    + apply app_nonempty_l. exact (Hloud x b Hx Hb Hr).
Qed.

Hypothesis Helem : forall c x b rest,
    wt x = true -> wt c = true -> enc x = Ok b ->
    rest <> [] \/ endf x <> EmptyRead ->
    dec c (b ++ rest) = (Ok (exp c x), rest).
Hypothesis Hz : wt z = true.

(** Decoding the encodings of a sequence, element by element, when the
    last read of the sequence is not an empty payload at the end of the
    input. *)
Lemma decode_all_ending (xs cs : list value) (bs rest : list byte) :
  length cs = length xs ->
  forallb wt xs = true -> forallb wt cs = true ->
  encode_all enc xs = Ok bs ->
  rest <> [] \/ reads_of (map endf xs) <> EmptyRead ->
  decode_all dec cs (bs ++ rest) = (Ok (zipWith exp cs xs), rest).
Proof.
  revert cs bs rest.
  induction xs as [|x xs IH]; intros [|c cs] bs rest Hl Hx Hc He Hs;
    try discriminate Hl.
  - inversion He; subst. reflexivity.
  - apply encode_all_cons in He. destruct He as (b & bs' & Hb & Hbs & ->).
    cbn [forallb] in Hx, Hc. apply andb_prop in Hx, Hc.
    destruct Hx as [Hx Hxs], Hc as [Hc Hcs].
    cbn [decode_all zipWith]. unfold bindD.
    rewrite <- app_assoc.
    rewrite (Helem c x b (bs' ++ rest) Hx Hc Hb).
    + rewrite (IH cs bs' rest); auto.
      destruct Hs as [Hs|Hs]; [left; exact Hs|right].
      cbn [map reads_of] in Hs. apply then_read_not_empty in Hs. exact Hs.
    + destruct Hs as [Hs|Hs].
      * left. apply app_nonempty_r, Hs.
      * cbn [map reads_of] in Hs. apply then_read_cases in Hs.
        destruct Hs as [Hs|[_ Hs]]; [left|right; exact Hs].
        apply app_nonempty_l. exact (encode_all_loud xs bs' Hxs Hbs Hs).
Qed.

Lemma roundtrip_slice_ending (xs : list value) (tag : string)
  (bs rest : list byte) :
  len xs < 2 ^ 32 -> forallb wt xs = true ->
  encodeSlice enc z xs tag = Ok bs ->
  rest <> []
  \/ match parseTag tag with
     | Some n => reads_of (map endf (fixed_elems (Z.to_nat n) xs z))
     | None => then_read FullRead (reads_of (map endf xs))
     end <> EmptyRead ->
  decodeSlice dec z tag (bs ++ rest)
  = (Ok (VSlice (Some (map (exp z)
                           match parseTag tag with
                           | Some n => fixed_elems (Z.to_nat n) xs z
                           | None => xs
                           end))), rest).
Proof.
  intros Hx Hwt He Hs. unfold decodeSlice. rewrite tag_dispatch.
  destruct (parseTag tag) as [n|] eqn:Et.
  - rewrite (encodeSlice_fixed enc z xs tag n Et Hx) in He.
    rewrite decodeSlice_loop_spec.
    rewrite (decode_all_ending
               (fixed_elems (Z.to_nat n) xs z) (repeat z (Z.to_nat n))
               bs rest); auto.
    + cbn [mapOk]. rewrite <- (fixed_elems_length (Z.to_nat n) xs z) at 1.
      rewrite zipWith_repeat. reflexivity.
    + rewrite repeat_length, fixed_elems_length. reflexivity.
    + apply forallb_fixed_elems; assumption.
    + apply forallb_repeat, Hz.
  - rewrite (encodeSlice_default enc z xs tag Et Hx) in He.
    apply bindR_Ok in He. destruct He as (bs' & Hbs & He).
    replace bs with (put_uint32 (len xs) ++ bs') by congruence. clear He.
    unfold bindD. rewrite <- app_assoc.
    rewrite read_uint32_put by (unfold len in *; lia).
    unfold len. rewrite Nat2Z.id. rewrite decodeSlice_loop_spec.
    rewrite (decode_all_ending xs (repeat z (length xs)) bs' rest); auto.
    + cbn [mapOk]. rewrite zipWith_repeat. reflexivity.
    + apply repeat_length.
    + apply forallb_repeat, Hz.
    + destruct Hs as [Hs|Hs]; [left; exact Hs|right].
      apply then_read_not_empty in Hs. exact Hs.
Qed.

Lemma roundtrip_array_ending (cs xs : list value) (tag : string)
  (bs rest : list byte) :
  length xs = length cs -> len cs < 2 ^ 32 ->
  forallb wt xs = true -> forallb wt cs = true ->
  encodeSlice enc z xs tag = Ok bs ->
  rest <> []
  \/ match parseTag tag with
     | Some n => reads_of (map endf (fixed_elems (Z.to_nat n) xs z))
     | None => then_read FullRead (reads_of (map endf xs))
     end <> EmptyRead ->
  decodeArray dec z (length cs) cs tag (bs ++ rest)
  = (Ok match parseTag tag with
        | Some n =>
            VArray (firstn (length cs)
                           (zipWith exp (fixed_elems (Z.to_nat n) cs z)
                                        (fixed_elems (Z.to_nat n) xs z))
                      ++ repeat z (length cs - Z.to_nat n))
        | None => VArray (zipWith exp cs xs)
        end, rest).
Proof.
  intros Hl Hc Hwx Hwc He Hs. unfold decodeArray. rewrite tag_dispatch.
  assert (Hx : len xs < 2 ^ 32) by (unfold len in *; rewrite Hl; exact Hc).
  unfold uint32 at 1 2. rewrite Z.mod_small by (unfold len in *; lia).
  destruct (parseTag tag) as [n|] eqn:Et.
  - rewrite (encodeSlice_fixed enc z xs tag n Et Hx) in He.
    rewrite decodeArray_loop_spec.
    rewrite (decode_all_ending
               (fixed_elems (Z.to_nat n) xs z)
               (fixed_elems (Z.to_nat n) cs z) bs rest); auto.
    + rewrite !fixed_elems_length. reflexivity.
    + apply forallb_fixed_elems; assumption.
    + apply forallb_fixed_elems; assumption.
  - rewrite (encodeSlice_default enc z xs tag Et Hx) in He.
    apply bindR_Ok in He. destruct He as (bs' & Hbs & He).
    replace bs with (put_uint32 (len xs) ++ bs') by congruence. clear He.
    unfold bindD. rewrite <- app_assoc.
    rewrite read_uint32_put by (unfold len in *; lia).
    unfold len. rewrite Hl. rewrite decodeArray_loop_spec.
    rewrite Nat2Z.id. unfold fixed_elems at 1.
    rewrite firstn_all, Nat.sub_diag. cbn [repeat]. rewrite !app_nil_r.
    rewrite (decode_all_ending xs cs bs' rest); auto.
    + cbn [mapOk]. rewrite firstn_all2; [rewrite ?app_nil_r; reflexivity|].
      rewrite zipWith_length by (symmetry; exact Hl). lia.
    + destruct Hs as [Hs|Hs]; [left; exact Hs|right].
      apply then_read_not_empty in Hs. exact Hs.
Qed.

End SequenceEnding.

Section Ending.

Variable m : ty -> option (value -> result (list byte)).
Variable u : ty -> option (list byte -> value -> result value).

(** A value whose last read takes a byte is written with a byte. *)
Lemma loud_mutual :
  (forall t, plain t = true ->
     forall tag v enc,
       has_type t v = true -> encodeField m t v tag = Ok enc ->
       ending t tag v = FullRead -> enc <> [])
  /\ (forall fs, plain_fields fs = true ->
        forall vs enc,
          have_types fs vs = true -> encodeStruct m fs vs = Ok enc ->
          ending_fields fs vs = FullRead -> enc <> []).
Proof.
  apply ty_mutind.
  - (* scalars *)
    intros k Hp tag v enc Hv He _. cbn [encodeField] in He.
    apply write_scalar_length in He. apply length_nonempty.
    pose proof (width_pos k). lia.
  - (* strings *)
    intros _ tag v enc Hv He Hr.
    destruct v as [| | |s| | | | |]; try discriminate Hv.
    cbn [has_type] in Hv. apply Z.ltb_lt in Hv.
    cbn [encodeField ending] in *. inversion He; subst enc.
    apply payload_read_full in Hr. unfold encodeString. cbv zeta.
    rewrite tag_dispatch.
    destruct (parseTag tag) as [n|];
      [apply fixed_payload_nonempty; assumption
      |apply put_uint32_nonempty].
  - (* slices *)
    intros e IH Hp tag v enc Hv He Hr.
    destruct v as [| | | |xs| | | |]; try discriminate Hv.
    cbn [has_type] in Hv. apply andb_prop in Hv. destruct Hv as [Hlen Hv].
    apply Z.ltb_lt in Hlen.
    cbn [plain] in Hp. cbn [encodeField ending] in *.
    destruct (is_uint8 e) eqn:E8.
    + inversion He; subst enc. apply payload_read_full in Hr.
      unfold encodeBytes. cbv zeta. rewrite tag_dispatch.
      destruct (parseTag tag) as [n|];
        [apply fixed_payload_nonempty; [|assumption]
        |apply put_uint32_nonempty].
      unfold len in *. rewrite bytes_of_length. exact Hlen.
    + destruct (parseTag tag) as [n|] eqn:Et.
      * rewrite (encodeSlice_fixed _ _ _ _ _ Et) in He by exact Hlen.
        apply (encode_all_loud (fun x => encodeField m e x "") (has_type e)
                 (ending e "")
                 (fun x b Hx Hb Hf => IH Hp "" x b Hx Hb Hf)
                 _ _ (forallb_fixed_elems _ _ _ _ Hv (zero_has_type e))
                 He Hr).
      * rewrite (encodeSlice_default _ _ _ _ Et) in He by exact Hlen.
        apply bindR_Ok in He. destruct He as (bs & _ & He).
        inversion He; subst enc. apply put_uint32_nonempty.
  - (* arrays *)
    intros N e IH Hp tag v enc Hv He Hr.
    destruct v as [| | | | |xs| | |]; try discriminate Hv.
    cbn [has_type] in Hv. apply andb_prop in Hv. destruct Hv as [Hlx Hv].
    apply Nat.eqb_eq in Hlx.
    cbn [plain] in Hp. apply andb_prop in Hp. destruct Hp as [HN Hp].
    apply Z.ltb_lt in HN.
    assert (Hlen : len xs < 2 ^ 32) by (unfold len; rewrite Hlx; exact HN).
    cbn [encodeField ending] in *.
    destruct (is_uint8 e) eqn:E8.
    + inversion He; subst enc. apply payload_read_full in Hr.
      unfold encodeBytes. cbv zeta. rewrite tag_dispatch.
      destruct (parseTag tag) as [n|];
        [apply fixed_payload_nonempty; [|assumption]
        |apply put_uint32_nonempty].
      unfold len in *. rewrite bytes_of_length. exact Hlen.
    + unfold encodeArray in He.
      destruct (parseTag tag) as [n|] eqn:Et.
      * rewrite (encodeSlice_fixed _ _ _ _ _ Et) in He by exact Hlen.
        apply (encode_all_loud (fun x => encodeField m e x "") (has_type e)
                 (ending e "")
                 (fun x b Hx Hb Hf => IH Hp "" x b Hx Hb Hf)
                 _ _ (forallb_fixed_elems _ _ _ _ Hv (zero_has_type e))
                 He Hr).
      * rewrite (encodeSlice_default _ _ _ _ Et) in He by exact Hlen.
        apply bindR_Ok in He. destruct He as (bs & _ & He).
        inversion He; subst enc. apply put_uint32_nonempty.
  - (* structs *)
    intros name fs IH Hp tag v enc Hv He Hr.
    destruct v as [| | | | | |vs| |]; try discriminate Hv.
    cbn [has_type plain encodeField ending] in *.
    exact (IH Hp vs enc Hv He Hr).
  - (* pointers *)
    intros e IH Hp tag v enc Hv He Hr.
    destruct v as [| | | | | | |[x|]|]; try discriminate Hv;
      try discriminate He.
    cbn [has_type plain encodeField ending] in *.
    exact (IH Hp tag x enc Hv He Hr).
  - (* unsupported kinds *)
    intros kind Hp. discriminate Hp.
  - (* no field *)
    intros _ vs enc Hv He Hr. destruct vs; discriminate Hr.
  - (* a field and the fields after it *)
    intros name exported tag t IHt fs IHr Hp vs enc Hv He Hr.
    destruct vs as [|v vs]; try discriminate Hv.
    cbn [have_types plain_fields] in *.
    apply andb_prop in Hv, Hp.
    destruct Hv as [Hv Hvs], Hp as [Hp Hps].
    cbn [encodeStruct ending_fields] in *. unfold skipped in *.
    apply then_read_full in Hr.
    destruct exported; cbn [negb orb] in *.
    + destruct (m t) as [MB|].
      * destruct (MB v) as [data|]; [|discriminate He].
        apply bindR_Ok in He. destruct He as (bs & _ & He).
        inversion He; subst enc. apply put_uint32_nonempty.
      * destruct (String.eqb tag "-").
        -- destruct Hr as [Hr|[_ Hr]]; [|discriminate Hr].
           exact (IHr Hps vs enc Hvs He Hr).
        -- destruct (encodeField m t v tag) as [b|] eqn:Ef;
             [|discriminate He].
           apply bindR_Ok in He. destruct He as (bs & Hbs & He).
           inversion He; subst enc.
           destruct Hr as [Hr|[_ Hr]].
           ++ apply app_nonempty_r. exact (IHr Hps vs bs Hvs Hbs Hr).
           ++ apply app_nonempty_l. exact (IHt Hp tag v b Hv Ef Hr).
    + destruct Hr as [Hr|[_ Hr]]; [|discriminate Hr].
      exact (IHr Hps vs enc Hvs He Hr).
Qed.

(** The walkers meet no custom codec in the fields of a record. *)
Lemma codec_free_field (exported : bool) (tag : string) (t : ty)
  (rest : fields) (name : string) :
  codec_free_fields m u (FCons name exported tag t rest) = true ->
  codec_free_fields m u rest = true
  /\ (exported = true ->
      m t = None
      /\ (if is_struct t then u (TPtr t) else None) = None
      /\ (String.eqb tag "-" = false -> codec_free m u t = true)).
Proof.
  cbn [codec_free_fields]. intros H. apply andb_prop in H.
  destruct H as [H Hr]. split; [exact Hr|]. intros ->.
  cbn [negb orb] in H. apply andb_prop in H. destruct H as [H Ht].
  apply andb_prop in H. destruct H as [Hm Hu].
  split; [|split].
  - destruct (m t); [discriminate Hm | reflexivity].
  - destruct (is_struct t); [|reflexivity].
    cbn [negb orb] in Hu. destruct (u (TPtr t)); [discriminate Hu|reflexivity].
  - intros E. rewrite E in Ht. exact Ht.
Qed.

(** Decoding what was encoded, followed by [rest]: the target receives the
    [expected] value and the cursor stops at [rest], unless the last read is
    an empty payload and [rest] is empty. *)
Lemma roundtrip_ending_mutual :
  (forall t, plain t = true -> codec_free m u t = true ->
     forall tag cur v enc rest,
       has_type t v = true -> has_type t cur = true ->
       encodeField m t v tag = Ok enc ->
       rest <> [] \/ ending t tag v <> EmptyRead ->
       decodeField u t cur tag (enc ++ rest)
       = (Ok (expected t tag cur v), rest))
  /\ (forall fs, plain_fields fs = true -> codec_free_fields m u fs = true ->
        forall cs vs enc rest,
          have_types fs vs = true -> have_types fs cs = true ->
          encodeStruct m fs vs = Ok enc ->
          rest <> [] \/ ending_fields fs vs <> EmptyRead ->
          decodeStruct u fs cs (enc ++ rest)
          = (Ok (expected_fields fs cs vs), rest)).
Proof.
  destruct loud_mutual as [Loud LoudF].
  apply ty_mutind.
  - (* scalars *)
    intros k Hp _ tag cur v enc rest Hv Hc He Hs.
    cbn [plain] in Hp. cbn [has_type] in Hv. cbn [encodeField] in He.
    rewrite write_scalar_ok in He
      by (try assumption; intros ->; discriminate Hp).
    inversion He; subst enc. rewrite decodeField_scalar by assumption.
    apply scalar_roundtrip; assumption.
  - (* strings *)
    intros _ _ tag cur v enc rest Hv Hc He Hs.
    destruct v as [| | |s| | | | |]; try discriminate Hv.
    cbn [has_type] in Hv. apply Z.ltb_lt in Hv.
    cbn [encodeField] in He. inversion He; subst enc.
    cbn [decodeField]. apply roundtrip_string; [assumption|].
    destruct Hs as [Hs|Hs]; [left; exact Hs|right].
    cbn [ending] in Hs. apply payload_read_not_empty in Hs.
    cbn [solid]. destruct (parseTag tag); [exact Hs|].
    destruct s; [discriminate Hs | reflexivity].
  - (* slices *)
    intros e IH Hp Hf tag cur v enc rest Hv Hc He Hs.
    destruct v as [| | | |xs| | | |]; try discriminate Hv.
    cbn [has_type] in Hv. apply andb_prop in Hv. destruct Hv as [Hlen Hv].
    apply Z.ltb_lt in Hlen.
    cbn [plain] in Hp. cbn [codec_free] in Hf. cbn [encodeField] in He.
    cbn [decodeField expected]. cbn [ending] in Hs.
    destruct (is_uint8 e) eqn:E8.
    + inversion He; subst enc. rewrite roundtrip_bytes.
      * destruct (parseTag tag); reflexivity.
      * unfold len in *. rewrite bytes_of_length. exact Hlen.
      * destruct Hs as [Hs|Hs]; [left; exact Hs|right].
        apply payload_read_not_empty in Hs.
        destruct (parseTag tag); [exact Hs|].
        destruct (elems xs); [discriminate Hs | reflexivity].
    + rewrite (roundtrip_slice_ending (fun x => encodeField m e x "")
                 (fun c => decodeField u e c "") (expected e "")
                 (has_type e) (ending e "") (zero e)
                 (fun x b Hx Hb Hr => Loud e Hp "" x b Hx Hb Hr)
                 (fun c x b r Hx Hcc Hb Hr => IH Hp Hf "" c x b r Hx Hcc Hb Hr)
                 (zero_has_type e) (elems xs) tag enc rest
                 Hlen Hv He).
      * destruct (parseTag tag); reflexivity.
      * destruct (parseTag tag); exact Hs.
  - (* arrays *)
    intros n e IH Hp Hf tag cur v enc rest Hv Hc He Hs.
    destruct v as [| | | | |xs| | |]; try discriminate Hv.
    destruct cur as [| | | | |cs| | |]; try discriminate Hc.
    cbn [has_type] in Hv, Hc. apply andb_prop in Hv, Hc.
    destruct Hv as [Hlx Hv], Hc as [Hlc Hc].
    apply Nat.eqb_eq in Hlx, Hlc.
    cbn [plain] in Hp. apply andb_prop in Hp. destruct Hp as [Hn Hp].
    apply Z.ltb_lt in Hn. cbn [codec_free] in Hf.
    cbn [encodeField] in He. cbn [decodeField expected]. cbn [ending] in Hs.
    destruct (is_uint8 e) eqn:E8.
    + inversion He; subst enc. rewrite roundtrip_byte_array.
      * destruct (parseTag tag); reflexivity.
      * unfold len in *. rewrite bytes_of_length. lia.
      * destruct Hs as [Hs|Hs]; [left; exact Hs|right].
        apply payload_read_not_empty in Hs.
        destruct (parseTag tag); [exact Hs|].
        rewrite is_nil_bytes_of.
        destruct xs; [discriminate Hs | reflexivity].
    + subst n.
      assert (Hcs : len cs < 2 ^ 32) by (unfold len; rewrite Hlc; exact Hn).
      pose proof (roundtrip_array_ending (fun x => encodeField m e x "")
                    (fun c => decodeField u e c "") (expected e "")
                    (has_type e) (ending e "") (zero e)
                    (fun x b Hx Hb Hr => Loud e Hp "" x b Hx Hb Hr)
                    (fun c x b r Hx Hcc Hb Hr =>
                       IH Hp Hf "" c x b r Hx Hcc Hb Hr)
                    (zero_has_type e) cs xs tag enc rest
                    (eq_sym Hlc) Hcs Hv Hc He) as R.
      rewrite Hlc in R. rewrite R.
      * destruct (parseTag tag); reflexivity.
      * destruct (parseTag tag); exact Hs.
  - (* structs *)
    intros name fs IH Hp Hf tag cur v enc rest Hv Hc He Hs.
    destruct v as [| | | | | |vs| |]; try discriminate Hv.
    destruct cur as [| | | | | |cs| |]; try discriminate Hc.
    cbn [has_type plain codec_free encodeField ending] in *.
    cbn [decodeField expected]. unfold bindD.
    rewrite (IH Hp Hf cs vs enc rest); auto.
  - (* pointers *)
    intros e IH Hp Hf tag cur v enc rest Hv Hc He Hs.
    destruct v as [| | | | | | |[x|]|]; try discriminate Hv;
      try discriminate He.
    cbn [has_type plain codec_free encodeField ending] in *.
    destruct cur as [| | | | | | |[c|]|]; try discriminate Hc;
      cbn [decodeField expected]; unfold bindD.
    + rewrite (IH Hp Hf tag c x enc rest); auto.
    + rewrite (IH Hp Hf tag (zero e) x enc rest); auto using zero_has_type.
  - (* unsupported kinds *)
    intros kind Hp. discriminate Hp.
  - (* no field *)
    intros _ _ cs vs enc rest Hv Hc He Hs.
    destruct vs; try discriminate Hv. destruct cs; try discriminate Hc.
    inversion He; subst enc. reflexivity.
  - (* a field and the fields after it *)
    intros name exported tag t IHt fs IHr Hp Hf cs vs enc rest Hv Hc He Hs.
    destruct vs as [|v vs]; try discriminate Hv.
    destruct cs as [|c cs]; try discriminate Hc.
    apply codec_free_field in Hf. destruct Hf as [Hfs Hf].
    cbn [have_types plain_fields] in *.
    apply andb_prop in Hv, Hc, Hp.
    destruct Hv as [Hv Hvs], Hc as [Hc Hcs], Hp as [Hp Hps].
    cbn [ending_fields] in Hs.
    assert (Hss : rest <> [] \/ ending_fields fs vs <> EmptyRead).
    { destruct Hs as [Hs|Hs]; [left; exact Hs|right].
      apply then_read_not_empty in Hs. exact Hs. }
    cbn [encodeStruct] in He. cbn [decodeStruct expected_fields].
    unfold skipped in *.
    destruct exported; cbn [negb orb] in *.
    + destruct (Hf eq_refl) as (Hm & Hu & Hft).
      rewrite Hm in He. rewrite Hu.
      destruct (String.eqb tag "-") eqn:Etag.
      * unfold bindD. rewrite (IHr Hps Hfs cs vs enc rest); auto.
      * destruct (encodeField m t v tag) as [b|] eqn:Ef; [|discriminate He].
        apply bindR_Ok in He. destruct He as (bs & Hbs & He).
        inversion He; subst enc. clear He.
        rewrite <- app_assoc. unfold bindD, mapErr.
        cbn [orb] in Hp.
        rewrite (IHt Hp (Hft eq_refl) tag c v b (bs ++ rest)); auto.
        -- rewrite (IHr Hps Hfs cs vs bs rest); auto.
        -- destruct Hs as [Hs|Hs].
           ++ left. apply app_nonempty_r, Hs.
           ++ apply then_read_cases in Hs.
              destruct Hs as [Hs|[_ Hs]]; [left|right; exact Hs].
              apply app_nonempty_l.
              exact (LoudF fs Hps vs bs Hvs Hbs Hs).
    + unfold bindD. rewrite (IHr Hps Hfs cs vs enc rest); auto.
Qed.

(** The encoder accepts every [exact] value of a [plain] type in which it
    meets no custom codec. *)
Lemma encodable_free_mutual :
  (forall t, plain t = true -> codec_free m u t = true ->
     forall tag v,
       parseTag tag = None ->
       has_type t v = true -> exact t v = true ->
       exists enc, encodeField m t v tag = Ok enc)
  /\ (forall fs, plain_fields fs = true -> codec_free_fields m u fs = true ->
        forall vs,
          have_types fs vs = true -> exact_fields fs vs = true ->
          exists enc, encodeStruct m fs vs = Ok enc).
Proof.
  apply ty_mutind.
  - intros k Hp _ tag v _ Hv _. cbn [plain has_type encodeField] in *.
    eexists. apply write_scalar_ok; [|exact Hv].
    intros ->. discriminate Hp.
  - intros _ _ tag v _ Hv _. destruct v; try discriminate Hv.
    eexists. reflexivity.
  - intros e IH Hp Hf tag v Ht Hv Hx.
    destruct v as [| | | |[xs|]| | | |]; try discriminate Hx.
    cbn [plain codec_free has_type exact elems encodeField] in *.
    apply andb_prop in Hv. destruct Hv as [Hlen Hv]. apply Z.ltb_lt in Hlen.
    destruct (is_uint8 e); [eexists; reflexivity|].
    rewrite encodeSlice_default by assumption.
    destruct (encode_all_ok (fun x => encodeField m e x "")
                (fun x => has_type e x && exact e x) xs) as [bs Hbs].
    + intros x H. apply andb_prop in H. destruct H. apply IH; auto.
    + apply forallb_and; assumption.
    + rewrite Hbs. eexists. reflexivity.
  - intros n e IH Hp Hf tag v Ht Hv Hx.
    destruct v as [| | | | |xs| | |]; try discriminate Hv.
    cbn [plain codec_free has_type exact encodeField] in *.
    apply andb_prop in Hv, Hp. destruct Hv as [Hlen Hv], Hp as [Hn Hp].
    apply Nat.eqb_eq in Hlen. apply Z.ltb_lt in Hn.
    destruct (is_uint8 e); [eexists; reflexivity|].
    unfold encodeArray.
    rewrite encodeSlice_default
      by (try assumption; unfold len; rewrite Hlen; exact Hn).
    destruct (encode_all_ok (fun x => encodeField m e x "")
                (fun x => has_type e x && exact e x) xs) as [bs Hbs].
    + intros x H. apply andb_prop in H. destruct H. apply IH; auto.
    + apply forallb_and; assumption.
    + rewrite Hbs. eexists. reflexivity.
  - intros name fs IH Hp Hf tag v _ Hv Hx.
    destruct v as [| | | | | |vs| |]; try discriminate Hv.
    cbn [plain codec_free has_type exact encodeField] in *.
    apply IH; assumption.
  - intros e IH Hp Hf tag v Ht Hv Hx.
    destruct v as [| | | | | | |[x|]|]; try discriminate Hx.
    cbn [plain codec_free has_type exact encodeField] in *.
    apply IH; assumption.
  - intros kind Hp. discriminate Hp.
  - intros _ _ vs Hv _. destruct vs; try discriminate Hv.
    exists []. reflexivity.
  - intros name exported tag t IHt fs IHr Hp Hf vs Hv Hx.
    destruct vs as [|v vs]; try discriminate Hv.
    apply codec_free_field in Hf. destruct Hf as [Hfs Hf].
    cbn [plain_fields have_types exact_fields encodeStruct] in *.
    apply andb_prop in Hv, Hp. destruct Hv as [Hv Hvs], Hp as [Hp Hps].
    apply andb_prop in Hx. destruct Hx as [Hx Hxs].
    apply andb_prop in Hx. destruct Hx as [Hx Hxv].
    apply andb_prop in Hx. destruct Hx as [Hsk Htag].
    unfold skipped in *.
    destruct exported; [|discriminate Hsk]. cbn [negb orb] in *.
    destruct (Hf eq_refl) as (Hm & _ & Hft).
    destruct (String.eqb tag "-"); [discriminate Hsk|].
    destruct (parseTag tag) eqn:Et; [discriminate Htag|].
    rewrite Hm.
    destruct (IHt Hp (Hft eq_refl) tag v Et Hv Hxv) as [b Hb].
    destruct (IHr Hps Hfs vs Hvs Hxs) as [bs Hbs].
    rewrite Hb, Hbs. eexists. reflexivity.
Qed.

End Ending.

Lemma ends_empty_false (t : ty) (tag : string) (v : value) :
  ends_empty t tag v = false -> ending t tag v <> EmptyRead.
Proof.
  unfold ends_empty. destruct (ending t tag v); congruence.
Qed.

(** The lenient decoder on an encoding followed by [s], when the walkers
    meet no custom codec. *)
Lemma UnmarshalPartial_ending
  (m : ty -> option (value -> result (list byte)))
  (u : ty -> option (list byte -> value -> result value))
  (t : ty) (v cur : value) (enc s : list byte) :
  m t = None -> u (TPtr t) = None -> codec_free m u t = true ->
  plain t = true -> has_type t v = true -> has_type t cur = true ->
  Marshal m t v = Ok enc ->
  s <> [] \/ ends_empty t "" v = false ->
  UnmarshalPartial u (enc ++ s) (TPtr t) (VPtr (Some cur))
  = (length s, Ok (VPtr (Some (expected t "" cur v)))).
Proof.
  intros Hm Hu Hf Hp Hv Hc He Hs.
  unfold Marshal in He. rewrite Hm in He.
  destruct (encodeField m t v "") as [b|] eqn:Ef; [|discriminate He].
  inversion He; subst b. clear He.
  unfold UnmarshalPartial. rewrite Hu.
  destruct (roundtrip_ending_mutual m u) as [RT _].
  rewrite (RT t Hp Hf "" cur v enc s Hv Hc Ef).
  - reflexivity.
  - destruct Hs as [Hs|Hs]; [left; exact Hs|right].
    apply ends_empty_false, Hs.
Qed.

(** ** An empty payload at the end of the input *)

Lemma payload_read_empty (n : Z) : payload_read n = EmptyRead -> n <= 0.
Proof.
  unfold payload_read. destruct (Z.ltb_spec 0 n); [discriminate|auto].
Qed.

Lemma payload_read_some (n : Z) : payload_read n <> NoRead.
Proof. unfold payload_read. destruct (0 <? n); discriminate. Qed.

Lemma then_read_none (a b : last_read) :
  then_read a b = NoRead -> a = NoRead /\ b = NoRead.
Proof. destruct b; cbn; intros H; auto; discriminate H. Qed.

Lemma then_read_empty (a b : last_read) :
  then_read a b = EmptyRead ->
  b = EmptyRead \/ (b = NoRead /\ a = EmptyRead).
Proof. destruct b; cbn; intros H; auto; discriminate H. Qed.

Lemma fixed_payload_zero (b : list byte) (n : Z) :
  len b < 2 ^ 32 -> 0 <= n -> n <= 0 -> fixed_payload b n = [].
Proof.
  intros Hb H0 Hn. apply length_zero_iff_nil.
  rewrite fixed_payload_length by assumption. lia.
Qed.

(** The payload decoders on the bytes of an empty payload, nothing after
    them: [buf.Read] is called at the end of the input. *)
Lemma empty_payload_fails (tag : string) (b : list byte) :
  len b < 2 ^ 32 ->
  match parseTag tag with Some n => n | None => len b end <= 0 ->
  decodeString tag (encodeBytes b tag) = (Err EOF, [])
  /\ decodeBytes tag (encodeBytes b tag) = (Err EOF, [])
  /\ forall N, decodeByteArray N tag (encodeBytes b tag) = (Err EOF, []).
Proof.
  intros Hb Hn. rewrite payload_cases by exact Hb.
  unfold decodeString, decodeBytes, decodeByteArray. cbv zeta.
  split; [|split; [|intros N]]; rewrite tag_dispatch;
    (destruct (parseTag tag) as [n|] eqn:Et;
     [ pose proof (parseTag_range _ _ Et) as Hr;
       rewrite fixed_payload_zero by (try assumption; lia);
       replace n with 0 by lia; reflexivity
     | assert (b = []) as ->
         by (destruct b; [reflexivity | unfold len in Hn; cbn in Hn; lia]);
       reflexivity ]).
Qed.

Section SequenceFailure.

Variable enc : value -> result (list byte).
Variable dec : value -> Dec value.
Variable exp : value -> value -> value.
Variable wt : value -> bool.
Variable endf : value -> last_read.
Variable z : value.

Hypothesis Hquiet : forall x b,
    wt x = true -> enc x = Ok b -> endf x = NoRead -> b = [].
Hypothesis Hloud : forall x b,
    wt x = true -> enc x = Ok b -> endf x = FullRead -> b <> [].
Hypothesis Helem : forall c x b rest,
    wt x = true -> wt c = true -> enc x = Ok b ->
    rest <> [] \/ endf x <> EmptyRead ->
    dec c (b ++ rest) = (Ok (exp c x), rest).
Hypothesis Hfail : forall c x b,
    wt x = true -> wt c = true -> enc x = Ok b -> endf x = EmptyRead ->
    exists e r', dec c b = (Err e, r').
Hypothesis Hz : wt z = true.

(** A sequence with no read is written with no byte. *)
Lemma encode_all_quiet (xs : list value) (bs : list byte) :
  forallb wt xs = true -> encode_all enc xs = Ok bs ->
  reads_of (map endf xs) = NoRead -> bs = [].
Proof.
  revert bs. induction xs as [|x xs IH]; intros bs Hw He Hr.
  - inversion He. reflexivity.
  - apply encode_all_cons in He. destruct He as (b & bs' & Hb & Hbs & ->).
    cbn [forallb] in Hw. apply andb_prop in Hw. destruct Hw as [Hx Hxs].
    cbn [map reads_of] in Hr. apply then_read_none in Hr.
    destruct Hr as [Hr1 Hr2].
    rewrite (Hquiet x b Hx Hb Hr1), (IH bs' Hxs Hbs Hr2). reflexivity.
Qed.

(** Decoding the encodings of a sequence whose last read is an empty
    payload, nothing after them, fails. *)
Lemma decode_all_fails (xs cs : list value) (bs : list byte) :
  length cs = length xs ->
  forallb wt xs = true -> forallb wt cs = true ->
  encode_all enc xs = Ok bs ->
  reads_of (map endf xs) = EmptyRead ->
  exists e r', decode_all dec cs bs = (Err e, r').
Proof.
  revert cs bs.
  induction xs as [|x xs IH]; intros [|c cs] bs Hl Hx Hc He Hr;
    try discriminate Hl; try discriminate Hr.
  apply encode_all_cons in He. destruct He as (b & bs' & Hb & Hbs & ->).
  cbn [forallb] in Hx, Hc. apply andb_prop in Hx, Hc.
  destruct Hx as [Hx Hxs], Hc as [Hc Hcs].
  injection Hl as Hl. cbn [map reads_of] in Hr.
  cbn [decode_all]. unfold bindD.
  assert (Stop : bs' = [] -> endf x = EmptyRead ->
                 exists e r',
                   match dec c (b ++ bs') with
                   | (Ok a, r1) =>
                       match decode_all dec cs r1 with
                       | (Ok a0, r2) => ret (a :: a0) r2
                       | (Err e, r2) => (Err e, r2)
                       end
                   | (Err e, r1) => (Err e, r1)
                   end = (Err e, r')).
  { intros -> Hex. rewrite app_nil_r.
    destruct (Hfail c x b Hx Hc Hb Hex) as (e & r' & E).
    rewrite E. eauto. }
  assert (Go : bs' <> [] \/ endf x <> EmptyRead ->
               reads_of (map endf xs) = EmptyRead ->
               exists e r',
                 match dec c (b ++ bs') with
                 | (Ok a, r1) =>
                     match decode_all dec cs r1 with
                     | (Ok a0, r2) => ret (a :: a0) r2
                     | (Err e, r2) => (Err e, r2)
                     end
                 | (Err e, r1) => (Err e, r1)
                 end = (Err e, r')).
  { intros Hne Hrs. rewrite (Helem c x b bs' Hx Hc Hb Hne).
    destruct (IH cs bs' Hl Hxs Hcs Hbs Hrs) as (e & r' & E).
    rewrite E. eauto. }
  apply then_read_empty in Hr. destruct Hr as [Hr|[Hr Hex]].
  - destruct bs' as [|y bs'].
    + destruct (endf x) eqn:Ex.
      * apply Go; [right; discriminate | exact Hr].
      * apply Stop; reflexivity.
      * apply Go; [right; discriminate | exact Hr].
    + apply Go; [left; discriminate | exact Hr].
  - apply Stop; [|exact Hex].
    exact (encode_all_quiet xs bs' Hxs Hbs Hr).
Qed.

Lemma decodeSlice_fails (xs : list value) (tag : string) (bs : list byte) :
  len xs < 2 ^ 32 -> forallb wt xs = true ->
  encodeSlice enc z xs tag = Ok bs ->
  match parseTag tag with
  | Some n => reads_of (map endf (fixed_elems (Z.to_nat n) xs z))
  | None => then_read FullRead (reads_of (map endf xs))
  end = EmptyRead ->
  exists e r', decodeSlice dec z tag bs = (Err e, r').
Proof.
  intros Hx Hwt He Hr. unfold decodeSlice. rewrite tag_dispatch.
  destruct (parseTag tag) as [n|] eqn:Et.
  - rewrite (encodeSlice_fixed enc z xs tag n Et Hx) in He.
    rewrite decodeSlice_loop_spec.
    destruct (decode_all_fails (fixed_elems (Z.to_nat n) xs z)
                (repeat z (Z.to_nat n)) bs) as (e & r' & E); auto.
    + rewrite repeat_length, fixed_elems_length. reflexivity.
    + apply forallb_fixed_elems; assumption.
    + apply forallb_repeat, Hz.
    + rewrite E. cbn [mapOk]. eauto.
  - rewrite (encodeSlice_default enc z xs tag Et Hx) in He.
    apply bindR_Ok in He. destruct He as (bs' & Hbs & He).
    replace bs with (put_uint32 (len xs) ++ bs') by congruence. clear He.
    unfold bindD.
    rewrite read_uint32_put by (unfold len in *; lia).
    unfold len. rewrite Nat2Z.id. rewrite decodeSlice_loop_spec.
    apply then_read_empty in Hr.
    destruct Hr as [Hr|[_ Hr]]; [|discriminate Hr].
    destruct (decode_all_fails xs (repeat z (length xs)) bs')
      as (e & r' & E); auto.
    + apply repeat_length.
    + apply forallb_repeat, Hz.
    + rewrite E. cbn [mapOk]. eauto.
Qed.

Lemma decodeArray_fails (cs xs : list value) (tag : string)
  (bs : list byte) :
  length xs = length cs -> len cs < 2 ^ 32 ->
  forallb wt xs = true -> forallb wt cs = true ->
  encodeSlice enc z xs tag = Ok bs ->
  match parseTag tag with
  | Some n => reads_of (map endf (fixed_elems (Z.to_nat n) xs z))
  | None => then_read FullRead (reads_of (map endf xs))
  end = EmptyRead ->
  exists e r', decodeArray dec z (length cs) cs tag bs = (Err e, r').
Proof.
  intros Hl Hc Hwx Hwc He Hr. unfold decodeArray. rewrite tag_dispatch.
  assert (Hx : len xs < 2 ^ 32) by (unfold len in *; rewrite Hl; exact Hc).
  unfold uint32 at 1 2. rewrite Z.mod_small by (unfold len in *; lia).
  destruct (parseTag tag) as [n|] eqn:Et.
  - rewrite (encodeSlice_fixed enc z xs tag n Et Hx) in He.
    rewrite decodeArray_loop_spec.
    destruct (decode_all_fails (fixed_elems (Z.to_nat n) xs z)
                (fixed_elems (Z.to_nat n) cs z) bs) as (e & r' & E); auto.
    + rewrite !fixed_elems_length. reflexivity.
    + apply forallb_fixed_elems; assumption.
    + apply forallb_fixed_elems; assumption.
    + rewrite E. cbn [mapOk]. eauto.
  - rewrite (encodeSlice_default enc z xs tag Et Hx) in He.
    apply bindR_Ok in He. destruct He as (bs' & Hbs & He).
    replace bs with (put_uint32 (len xs) ++ bs') by congruence. clear He.
    unfold bindD.
    rewrite read_uint32_put by (unfold len in *; lia).
    unfold len. rewrite Hl. rewrite decodeArray_loop_spec.
    rewrite Nat2Z.id. unfold fixed_elems at 1.
    rewrite firstn_all, Nat.sub_diag. cbn [repeat]. rewrite !app_nil_r.
    apply then_read_empty in Hr.
    destruct Hr as [Hr|[_ Hr]]; [|discriminate Hr].
    destruct (decode_all_fails xs cs bs') as (e & r' & E); auto.
    rewrite E. cbn [mapOk]. eauto.
Qed.

End SequenceFailure.

Section EndingFailure.

Variable m : ty -> option (value -> result (list byte)).
Variable u : ty -> option (list byte -> value -> result value).

(** A value with no read is written with no byte. *)
Lemma quiet_mutual :
  (forall t, plain t = true -> codec_free m u t = true ->
     forall tag v enc,
       has_type t v = true -> encodeField m t v tag = Ok enc ->
       ending t tag v = NoRead -> enc = [])
  /\ (forall fs, plain_fields fs = true -> codec_free_fields m u fs = true ->
        forall vs enc,
          have_types fs vs = true -> encodeStruct m fs vs = Ok enc ->
          ending_fields fs vs = NoRead -> enc = []).
Proof.
  apply ty_mutind.
  - (* scalars *)
    intros k Hp _ tag v enc Hv He Hr. discriminate Hr.
  - (* strings *)
    intros _ _ tag v enc Hv He Hr.
    destruct v as [| | |s| | | | |]; try discriminate Hv.
    cbn [ending] in Hr. apply payload_read_some in Hr. contradiction.
  - (* slices *)
    intros e IH Hp Hf tag v enc Hv He Hr.
    destruct v as [| | | |xs| | | |]; try discriminate Hv.
    cbn [has_type] in Hv. apply andb_prop in Hv. destruct Hv as [Hlen Hv].
    apply Z.ltb_lt in Hlen.
    cbn [plain] in Hp. cbn [codec_free] in Hf.
    cbn [encodeField ending] in *.
    destruct (is_uint8 e) eqn:E8;
      [apply payload_read_some in Hr; contradiction|].
    destruct (parseTag tag) as [n|] eqn:Et;
      [|apply then_read_none in Hr; destruct Hr as [Hr _]; discriminate Hr].
    rewrite (encodeSlice_fixed _ _ _ _ _ Et) in He by exact Hlen.
    apply (encode_all_quiet (fun x => encodeField m e x "") (has_type e)
             (ending e "")
             (fun x b Hx Hb Hq => IH Hp Hf "" x b Hx Hb Hq)
             _ _ (forallb_fixed_elems _ _ _ _ Hv (zero_has_type e))
             He Hr).
  - (* arrays *)
    intros N e IH Hp Hf tag v enc Hv He Hr.
    destruct v as [| | | | |xs| | |]; try discriminate Hv.
    cbn [has_type] in Hv. apply andb_prop in Hv. destruct Hv as [Hlx Hv].
    apply Nat.eqb_eq in Hlx.
    cbn [plain] in Hp. apply andb_prop in Hp. destruct Hp as [HN Hp].
    apply Z.ltb_lt in HN. cbn [codec_free] in Hf.
    assert (Hlen : len xs < 2 ^ 32) by (unfold len; rewrite Hlx; exact HN).
    cbn [encodeField ending] in *.
    destruct (is_uint8 e) eqn:E8;
      [apply payload_read_some in Hr; contradiction|].
    unfold encodeArray in He.
    destruct (parseTag tag) as [n|] eqn:Et;
      [|apply then_read_none in Hr; destruct Hr as [Hr _]; discriminate Hr].
    rewrite (encodeSlice_fixed _ _ _ _ _ Et) in He by exact Hlen.
    apply (encode_all_quiet (fun x => encodeField m e x "") (has_type e)
             (ending e "")
             (fun x b Hx Hb Hq => IH Hp Hf "" x b Hx Hb Hq)
             _ _ (forallb_fixed_elems _ _ _ _ Hv (zero_has_type e))
             He Hr).
  - (* structs *)
    intros name fs IH Hp Hf tag v enc Hv He Hr.
    destruct v as [| | | | | |vs| |]; try discriminate Hv.
    cbn [has_type plain codec_free encodeField ending] in *.
    exact (IH Hp Hf vs enc Hv He Hr).
  - (* pointers *)
    intros e IH Hp Hf tag v enc Hv He Hr.
    destruct v as [| | | | | | |[x|]|]; try discriminate Hv;
      try discriminate He.
    cbn [has_type plain codec_free encodeField ending] in *.
    exact (IH Hp Hf tag x enc Hv He Hr).
  - (* unsupported kinds *)
    intros kind Hp. discriminate Hp.
  - (* no field *)
    intros _ _ vs enc Hv He Hr. destruct vs; [|discriminate Hv].
    inversion He. reflexivity.
  - (* a field and the fields after it *)
    intros name exported tag t IHt fs IHr Hp Hf vs enc Hv He Hr.
    destruct vs as [|v vs]; try discriminate Hv.
    apply codec_free_field in Hf. destruct Hf as [Hfs Hf].
    cbn [have_types plain_fields] in *.
    apply andb_prop in Hv, Hp.
    destruct Hv as [Hv Hvs], Hp as [Hp Hps].
    cbn [encodeStruct ending_fields] in *. unfold skipped in *.
    apply then_read_none in Hr. destruct Hr as [Hr1 Hr2].
    destruct exported; cbn [negb orb] in *.
    + destruct (Hf eq_refl) as (Hm & _ & Hft). rewrite Hm in He.
      destruct (String.eqb tag "-").
      * exact (IHr Hps Hfs vs enc Hvs He Hr2).
      * destruct (encodeField m t v tag) as [b|] eqn:Ef;
          [|discriminate He].
        apply bindR_Ok in He. destruct He as (bs & Hbs & He).
        inversion He; subst enc.
        rewrite (IHt Hp (Hft eq_refl) tag v b Hv Ef Hr1).
        rewrite (IHr Hps Hfs vs bs Hvs Hbs Hr2). reflexivity.
    + exact (IHr Hps Hfs vs enc Hvs He Hr2).
Qed.

(** Decoding what was encoded, nothing after it, fails when the last read
    is an empty payload. *)
Lemma fails_mutual :
  (forall t, plain t = true -> codec_free m u t = true ->
     forall tag cur v enc,
       has_type t v = true -> has_type t cur = true ->
       encodeField m t v tag = Ok enc ->
       ending t tag v = EmptyRead ->
       exists e r', decodeField u t cur tag enc = (Err e, r'))
  /\ (forall fs, plain_fields fs = true -> codec_free_fields m u fs = true ->
        forall cs vs enc,
          have_types fs vs = true -> have_types fs cs = true ->
          encodeStruct m fs vs = Ok enc ->
          ending_fields fs vs = EmptyRead ->
          exists e r', decodeStruct u fs cs enc = (Err e, r')).
Proof.
  destruct (loud_mutual m) as [Loud LoudF].
  destruct quiet_mutual as [Quiet QuietF].
  destruct (roundtrip_ending_mutual m u) as [RT RTF].
  apply ty_mutind.
  - (* scalars *)
    intros k Hp _ tag cur v enc Hv Hc He Hr. discriminate Hr.
  - (* strings *)
    intros _ _ tag cur v enc Hv Hc He Hr.
    destruct v as [| | |s| | | | |]; try discriminate Hv.
    cbn [has_type] in Hv. apply Z.ltb_lt in Hv.
    cbn [encodeField ending] in *. inversion He; subst enc.
    apply payload_read_empty in Hr.
    change (encodeString s tag) with (encodeBytes s tag).
    cbn [decodeField].
    destruct (empty_payload_fails tag s Hv Hr) as (E & _). rewrite E. eauto.
  - (* slices *)
    intros e IH Hp Hf tag cur v enc Hv Hc He Hr.
    destruct v as [| | | |xs| | | |]; try discriminate Hv.
    cbn [has_type] in Hv. apply andb_prop in Hv. destruct Hv as [Hlen Hv].
    apply Z.ltb_lt in Hlen.
    cbn [plain] in Hp. cbn [codec_free] in Hf.
    cbn [encodeField ending] in *. cbn [decodeField].
    destruct (is_uint8 e) eqn:E8.
    + inversion He; subst enc. apply payload_read_empty in Hr.
      assert (Hb : len (bytes_of (elems xs)) < 2 ^ 32)
        by (unfold len in *; rewrite bytes_of_length; exact Hlen).
      destruct (empty_payload_fails tag (bytes_of (elems xs)) Hb)
        as (_ & E & _).
      * unfold len in *. rewrite bytes_of_length. exact Hr.
      * rewrite E. eauto.
    + apply (decodeSlice_fails (fun x => encodeField m e x "")
               (fun c => decodeField u e c "") (expected e "")
               (has_type e) (ending e "") (zero e)
               (fun x b Hx Hb Hq => Quiet e Hp Hf "" x b Hx Hb Hq)
               (fun c x b r Hx Hcc Hb Hn => RT e Hp Hf "" c x b r Hx Hcc Hb Hn)
               (fun c x b Hx Hcc Hb Hn => IH Hp Hf "" c x b Hx Hcc Hb Hn)
               (zero_has_type e) (elems xs) tag enc Hlen Hv He).
      destruct (parseTag tag); exact Hr.
  - (* arrays *)
    intros n e IH Hp Hf tag cur v enc Hv Hc He Hr.
    destruct v as [| | | | |xs| | |]; try discriminate Hv.
    destruct cur as [| | | | |cs| | |]; try discriminate Hc.
    cbn [has_type] in Hv, Hc. apply andb_prop in Hv, Hc.
    destruct Hv as [Hlx Hv], Hc as [Hlc Hc].
    apply Nat.eqb_eq in Hlx, Hlc.
    cbn [plain] in Hp. apply andb_prop in Hp. destruct Hp as [Hn Hp].
    apply Z.ltb_lt in Hn. cbn [codec_free] in Hf.
    cbn [encodeField ending] in *. cbn [decodeField].
    destruct (is_uint8 e) eqn:E8.
    + inversion He; subst enc. apply payload_read_empty in Hr.
      assert (Hb : len (bytes_of xs) < 2 ^ 32)
        by (unfold len in *; rewrite bytes_of_length; lia).
      destruct (empty_payload_fails tag (bytes_of xs) Hb) as (_ & _ & E).
      * unfold len in *. rewrite bytes_of_length. exact Hr.
      * rewrite E. eauto.
    + subst n.
      assert (Hcs : len cs < 2 ^ 32) by (unfold len; rewrite Hlc; exact Hn).
      pose proof (decodeArray_fails (fun x => encodeField m e x "")
                    (fun c => decodeField u e c "") (expected e "")
                    (has_type e) (ending e "") (zero e)
                    (fun x b Hx Hb Hq => Quiet e Hp Hf "" x b Hx Hb Hq)
                    (fun c x b r Hx Hcc Hb Hn' =>
                       RT e Hp Hf "" c x b r Hx Hcc Hb Hn')
                    (fun c x b Hx Hcc Hb Hn' =>
                       IH Hp Hf "" c x b Hx Hcc Hb Hn')
                    (zero_has_type e) cs xs tag enc
                    (eq_sym Hlc) Hcs Hv Hc He) as R.
      rewrite Hlc in R. apply R.
      destruct (parseTag tag); exact Hr.
  - (* structs *)
    intros name fs IH Hp Hf tag cur v enc Hv Hc He Hr.
    destruct v as [| | | | | |vs| |]; try discriminate Hv.
    destruct cur as [| | | | | |cs| |]; try discriminate Hc.
    cbn [has_type plain codec_free encodeField ending] in *.
    cbn [decodeField]. unfold bindD.
    destruct (IH Hp Hf cs vs enc Hv Hc He Hr) as (e & r' & E).
    rewrite E. eauto.
  - (* pointers *)
    intros e IH Hp Hf tag cur v enc Hv Hc He Hr.
    destruct v as [| | | | | | |[x|]|]; try discriminate Hv;
      try discriminate He.
    cbn [has_type plain codec_free encodeField ending] in *.
    destruct cur as [| | | | | | |[c|]|]; try discriminate Hc;
      cbn [decodeField]; unfold bindD.
    + destruct (IH Hp Hf tag c x enc Hv Hc He Hr) as (e0 & r' & E).
      rewrite E. eauto.
    + destruct (IH Hp Hf tag (zero e) x enc Hv (zero_has_type e) He Hr)
        as (e0 & r' & E).
      rewrite E. eauto.
  - (* unsupported kinds *)
    intros kind Hp. discriminate Hp.
  - (* no field *)
    intros _ _ cs vs enc Hv Hc He Hr. destruct vs; discriminate Hr.
  - (* a field and the fields after it *)
    intros name exported tag t IHt fs IHr Hp Hf cs vs enc Hv Hc He Hr.
    destruct vs as [|v vs]; try discriminate Hv.
    destruct cs as [|c cs]; try discriminate Hc.
    apply codec_free_field in Hf. destruct Hf as [Hfs Hf].
    cbn [have_types plain_fields] in *.
    apply andb_prop in Hv, Hc, Hp.
    destruct Hv as [Hv Hvs], Hc as [Hc Hcs], Hp as [Hp Hps].
    cbn [ending_fields] in Hr.
    cbn [encodeStruct] in He. cbn [decodeStruct].
    unfold skipped in *.
    assert (K : forall x,
               ending_fields fs vs = EmptyRead ->
               encodeStruct m fs vs = Ok enc ->
               exists e r',
                 bindD (decodeStruct u fs cs)
                       (fun vs'' => ret (x :: vs'')) enc = (Err e, r')).
    { intros x Hrs Hes. unfold bindD.
      destruct (IHr Hps Hfs cs vs enc Hvs Hcs Hes Hrs) as (e & r' & E).
      rewrite E. eauto. }
    destruct exported; cbn [negb orb] in *.
    + destruct (Hf eq_refl) as (Hm & Hu & Hft).
      rewrite Hm in He. rewrite Hu.
      destruct (String.eqb tag "-") eqn:Etag.
      * apply then_read_empty in Hr.
        destruct Hr as [Hr|[_ Hr]]; [|discriminate Hr].
        apply K; assumption.
      * destruct (encodeField m t v tag) as [b|] eqn:Ef; [|discriminate He].
        apply bindR_Ok in He. destruct He as (bs & Hbs & He).
        inversion He; subst enc. clear He.
        cbn [orb] in Hp. pose proof (Hft eq_refl) as Hct.
        assert (Stop : bs = [] -> ending t tag v = EmptyRead ->
                       exists e r',
                         bindD (mapErr (ErrField name) (decodeField u t c tag))
                           (fun v' =>
                              bindD (decodeStruct u fs cs)
                                    (fun vs'' => ret (v' :: vs'')))
                           (b ++ bs) = (Err e, r')).
        { intros -> Hex. rewrite app_nil_r. unfold bindD, mapErr.
          destruct (IHt Hp Hct tag c v b Hv Hc Ef Hex) as (e & r' & E).
          rewrite E. eauto. }
        assert (Go : bs <> [] \/ ending t tag v <> EmptyRead ->
                     ending_fields fs vs = EmptyRead ->
                     exists e r',
                       bindD (mapErr (ErrField name) (decodeField u t c tag))
                         (fun v' =>
                            bindD (decodeStruct u fs cs)
                                  (fun vs'' => ret (v' :: vs'')))
                         (b ++ bs) = (Err e, r')).
        { intros Hne Hrs. unfold bindD at 1. unfold mapErr.
          rewrite (RT t Hp Hct tag c v b bs Hv Hc Ef Hne).
          unfold bindD.
          destruct (IHr Hps Hfs cs vs bs Hvs Hcs Hbs Hrs) as (e & r' & E).
          rewrite E. eauto. }
        apply then_read_empty in Hr. destruct Hr as [Hr|[Hr Hex]].
        -- destruct bs as [|y bs].
           ++ destruct (ending t tag v) eqn:Ex.
              ** apply Go; [right; discriminate | exact Hr].
              ** apply Stop; reflexivity.
              ** apply Go; [right; discriminate | exact Hr].
           ++ apply Go; [left; discriminate | exact Hr].
        -- apply Stop; [|exact Hex].
           exact (QuietF fs Hps Hfs vs bs Hvs Hbs Hr).
    + apply then_read_empty in Hr.
      destruct Hr as [Hr|[_ Hr]]; [|discriminate Hr].
      apply K; assumption.
Qed.

End EndingFailure.

(** [Unmarshal] of an encoding that ends with an empty payload fails. *)
Lemma Unmarshal_ending_fails
  (m : ty -> option (value -> result (list byte)))
  (u : ty -> option (list byte -> value -> result value))
  (t : ty) (v cur : value) (enc : list byte) :
  m t = None -> u (TPtr t) = None -> codec_free m u t = true ->
  plain t = true -> has_type t v = true -> has_type t cur = true ->
  Marshal m t v = Ok enc ->
  ends_empty t "" v = true ->
  exists e, Unmarshal u enc (TPtr t) (VPtr (Some cur)) = Err e.
Proof.
  intros Hm Hu Hf Hp Hv Hc He Hs.
  unfold Marshal in He. rewrite Hm in He.
  destruct (encodeField m t v "") as [b|] eqn:Ef; [|discriminate He].
  inversion He; subst b. clear He.
  assert (Hr : ending t "" v = EmptyRead).
  { unfold ends_empty in Hs. destruct (ending t "" v); congruence. }
  destruct (fails_mutual m u) as [F _].
  destruct (F t Hp Hf "" cur v enc Hv Hc Ef Hr) as (e & r' & E).
  unfold Unmarshal, UnmarshalPartial. rewrite Hu, E. eauto.
Qed.



(** Where the bytes end.  [Loose] holds an empty [Name] and two empty
    strings as padding, and ends with [N]; [Padded] ends with the empty
    string that pads [Names]; a string under the tag "0" is written with
    no byte at all; an empty string ends its own bytes, and is read back
    when a byte follows. *)
Example ending_scenarios :
  ends_empty Loose "" loose_value = false
  /\ Marshal no_marshaler Loose loose_value = Ok loose_bytes
  /\ ends_empty Padded "" padded_value = true
  /\ Marshal no_marshaler Padded padded_value = Ok padded_bytes
  /\ Unmarshal no_unmarshaler padded_bytes (TPtr Padded)
       (VPtr (Some (zero Padded)))
     = Err (ErrValue (ErrField "Names" EOF))
  /\ ends_empty (Samples.one_field "Name" "0" TString) ""
       (VStruct [VString (bytes "abc")]) = true
  /\ Marshal no_marshaler (Samples.one_field "Name" "0" TString)
       (VStruct [VString (bytes "abc")]) = Ok []
  /\ Unmarshal no_unmarshaler [] (TPtr (Samples.one_field "Name" "0" TString))
       (VPtr (Some (VStruct [VString []])))
     = Err (ErrValue (ErrField "Name" EOF))
  /\ ends_empty TString "" (VString []) = true
  /\ Unmarshal no_unmarshaler [x00; x00; x00; x00] (TPtr TString)
       (VPtr (Some (VString (bytes "old"))))
     = Err (ErrValue EOF)
  /\ UnmarshalPartial no_unmarshaler [x00; x00; x00; x00; x2a] (TPtr TString)
       (VPtr (Some (VString (bytes "old"))))
     = (1%nat, Ok (VPtr (Some (VString [])))).
Proof. repeat split; reflexivity. Qed.

(** The round trips of [Mixed] and of the untagged [Plain3], evaluated. *)
Example roundtrip_scenarios :
  expected Mixed "" (zero Mixed) mixed_value = mixed_back
  /\ (exists enc,
         Marshal no_marshaler Mixed mixed_value = Ok enc
         /\ Unmarshal no_unmarshaler enc (TPtr Mixed)
              (VPtr (Some (zero Mixed)))
            = Ok (VPtr (Some mixed_back)))
  /\ exact Plain3 plain3_value = true
  /\ (exists enc,
         Marshal no_marshaler Plain3 plain3_value = Ok enc
         /\ length enc = 31%nat
         /\ Unmarshal no_unmarshaler enc (TPtr Plain3)
              (VPtr (Some (zero Plain3)))
            = Ok (VPtr (Some plain3_value))).
Proof.
  split; [reflexivity|]. split; [eexists; split; reflexivity|].
  split; [reflexivity|]. eexists. repeat split; reflexivity.
Qed.


(** ** Partial decoding *)




(** ** The package's own tests and the scenarios of the specification *)

(** [TestMarshalUnmarshal] (seven bytes for [A], [B], [C]), the direct slice
    of the README (24 bytes), [TestStringIgnoreTag] (12 bytes, [Data] left
    empty), the byte truncation and padding tests and the byte array tests
    under a tag. *)
Example package_tests :
  Marshal no_marshaler Samples.SimpleStruct
          (VStruct [VInt 12345; VInt (-100); VInt 255])
  = Ok [x39; x30; x00; x00; x9c; xff; xff]
  /\ Unmarshal no_unmarshaler [x39; x30; x00; x00; x9c; xff; xff]
       (TPtr Samples.SimpleStruct)
       (VPtr (Some (zero Samples.SimpleStruct)))
     = Ok (VPtr (Some (VStruct [VInt 12345; VInt (-100); VInt 255])))
  /\ (exists enc,
         Marshal no_marshaler (TSlice (TScalar Uint32))
                 (VSlice (Some (Samples.ints [10; 20; 30; 40; 50]))) = Ok enc
         /\ length enc = 24%nat
         /\ Unmarshal no_unmarshaler enc (TPtr (TSlice (TScalar Uint32)))
              (VPtr (Some (VSlice None)))
            = Ok (VPtr (Some (VSlice
                                (Some (Samples.ints [10; 20; 30; 40; 50]))))))
  /\ (exists enc,
         Marshal no_marshaler (Samples.IgnoreStruct TString)
                 (VStruct [VString (bytes "should be ignored"); VInt 42;
                           VString (bytes "test")]) = Ok enc
         /\ length enc = 12%nat
         /\ Unmarshal no_unmarshaler enc (TPtr (Samples.IgnoreStruct TString))
              (VPtr (Some (zero (Samples.IgnoreStruct TString))))
            = Ok (VPtr (Some (VStruct [VString []; VInt 42;
                                       VString (bytes "test")]))))
  /\ Marshal no_marshaler
       (Samples.one_field "Data" "3" (TSlice (TScalar Uint8)))
       (VStruct [VSlice (Some (Samples.ints [1; 2; 3; 4; 5]))])
     = Ok [x01; x02; x03]
  /\ Marshal no_marshaler
       (Samples.one_field "Data" "7" (TSlice (TScalar Uint8)))
       (VStruct [VSlice (Some (Samples.ints [1; 2; 3]))])
     = Ok [x01; x02; x03; x00; x00; x00; x00]
  /\ Unmarshal no_unmarshaler [x01; x02; x03]
       (TPtr (Samples.one_field "Data" "3" (TArray 5 (TScalar Uint8))))
       (VPtr (Some (VStruct [VArray (Samples.ints [9; 9; 9; 9; 9])])))
     = Ok (VPtr (Some (VStruct [VArray (Samples.ints [1; 2; 3; 0; 0])])))
  /\ Unmarshal no_unmarshaler [x01; x02; x03; x00; x00]
       (TPtr (Samples.one_field "Data" "5" (TArray 3 (TScalar Uint8))))
       (VPtr (Some (VStruct [VArray (Samples.ints [0; 0; 0])])))
     = Ok (VPtr (Some (VStruct [VArray (Samples.ints [1; 2; 3])]))).
Proof.
  repeat split; try reflexivity.
  - eexists. repeat split; reflexivity.
  - eexists. repeat split; reflexivity.
Qed.

(** [TestCustomMarshalerUnmarshaler]: a field with a custom codec travels
    in a length-prefixed envelope. *)
Example custom_field_test :
  Marshal TestCustom.marshaler (Samples.StructWithCustomType "")
          (VStruct [VStruct [VString (bytes "test")]; VInt 42])
  = Ok ([x0b; x00; x00; x00] ++ bytes "custom:test" ++ [x2a; x00; x00; x00])
  /\ Unmarshal TestCustom.unmarshaler
       ([x0b; x00; x00; x00] ++ bytes "custom:test" ++ [x2a; x00; x00; x00])
       (TPtr (Samples.StructWithCustomType ""))
       (VPtr (Some (zero (Samples.StructWithCustomType ""))))
     = Ok (VPtr (Some (VStruct [VStruct [VString (bytes "test")]; VInt 42]))).
Proof. split; reflexivity. Qed.

(** * Further properties of the code *)

(** ** The tag resolver *)

Lemma parse_digits_no_colon (s : string) (acc n : Z) :
  parse_digits s acc = Some n -> split_colon s = [s].
Proof.
  revert acc. induction s as [|c s IH]; intros acc H; [reflexivity|].
  cbn [parse_digits] in H. destruct (is_digit c) eqn:Ed; [|discriminate H].
  cbn [split_colon].
  destruct (Ascii.eqb_spec c ":"%char) as [->|_]; [discriminate Ed|].
  rewrite (IH _ H). reflexivity.
Qed.

Lemma split_colon_nonempty (s : string) : split_colon s <> [].
Proof.
  destruct s as [|c s]; cbn [split_colon]; [discriminate|].
  destruct (Ascii.eqb c ":"%char); [discriminate|].
  destruct (split_colon s); discriminate.
Qed.

Lemma split_colon_single (s p : string) : split_colon s = [p] -> s = p.
Proof.
  revert p. induction s as [|c s IH]; intros p H.
  - inversion H. reflexivity.
  - cbn [split_colon] in H. destruct (Ascii.eqb c ":"%char).
    + inversion H as [[Hp Hs]]. apply split_colon_nonempty in Hs.
      destruct Hs.
    + destruct (split_colon s) as [|q [|? ?]] eqn:E; inversion H; subst.
      * apply split_colon_nonempty in E. destruct E.
      * rewrite (IH q eq_refl). reflexivity.
Qed.

Lemma ParseUint32_digits (s : string) (n : Z) :
  ParseUint32 s = Some n -> exists m, parse_digits s 0 = Some m.
Proof.
  unfold ParseUint32. destruct s; [discriminate|].
  destruct (parse_digits (String a s) 0) as [m|]; [|discriminate].
  intros _. exists m. reflexivity.
Qed.

Lemma prefix_append (s1 s2 : string) :
  prefix s1 s2 = true -> exists r, s2 = String.append s1 r.
Proof.
  revert s2. induction s1 as [|c s1 IH]; intros s2 H.
  - exists s2. reflexivity.
  - destruct s2 as [|d s2]; cbn [prefix] in H; [discriminate H|].
    destruct (ascii_dec c d) as [<-|]; [|discriminate H].
    destruct (IH s2 H) as [r ->]. exists r. reflexivity.
Qed.

Lemma prefix_append_true (s1 r : string) :
  prefix s1 (String.append s1 r) = true.
Proof.
  induction s1 as [|c s1 IH]; cbn [String.append prefix].
  - destruct r; reflexivity.
  - destruct (ascii_dec c c) as [_|C]; [exact IH|congruence].
Qed.

(** [parseTag] resolves exactly two forms of tag to a length: a decimal
    number that fits 32 bits, and "len:" followed by such a number.  Both
    forms of the same number give the same length. *)
Theorem parseTag_accepts_exactly (tag : string) (n : Z) :
  parseTag tag = Some n
  <-> ParseUint32 tag = Some n
      \/ exists p, tag = String.append "len:" p /\ ParseUint32 p = Some n.
Proof.
  split.
  - unfold parseTag.
    destruct (String.eqb tag ""); [discriminate|].
    destruct (String.eqb tag "-"); [discriminate|].
    destruct (ParseUint32 tag) as [k|] eqn:E.
    + intros H. left. exact H.
    + intros H. right.
      destruct (prefix "len:" tag) eqn:Ep; [|discriminate H].
      apply prefix_append in Ep. destruct Ep as [rest ->].
      change (split_colon (String.append "len:" rest))
        with ("len" :: split_colon rest) in H.
      destruct (split_colon rest) as [|p [|? ?]] eqn:Es; try discriminate H.
      apply split_colon_single in Es. subst p.
      exists rest. split; [reflexivity | exact H].
  - intros [H | (p & -> & H)].
    + unfold parseTag. rewrite H.
      destruct tag as [|c tag]; [discriminate H|].
      destruct (String.eqb_spec (String c tag) "-") as [E|_];
        [rewrite E in H; discriminate H|].
      reflexivity.
    + destruct (ParseUint32_digits p n H) as [k Hk].
      unfold parseTag. rewrite prefix_append_true.
      change (String.eqb (String.append "len:" p) "") with false.
      change (String.eqb (String.append "len:" p) "-") with false.
      change (ParseUint32 (String.append "len:" p)) with (@None Z).
      change (split_colon (String.append "len:" p))
        with ("len" :: split_colon p).
      rewrite (parse_digits_no_colon p 0 k Hk). exact H.
Qed.

(** A length [parseTag] resolves always fits 32 bits, and neither the empty
    tag nor the exclusion marker resolves to a length. *)
Theorem parseTag_resolved_fits_uint32 (tag : string) (n : Z) :
  parseTag tag = Some n ->
  0 <= n < 2 ^ 32 /\ tag <> "" /\ tag <> "-".
Proof.
  intros H. split; [eapply parseTag_range; exact H|].
  split; intros ->; discriminate H.
Qed.

Lemma parseTag_resolved_witness :
  0 <= 20 < 2 ^ 32 /\ "len:20" <> "" /\ "len:20" <> "-".
Proof.
  exact (parseTag_resolved_fits_uint32 "len:20" 20 eq_refl).
Defined.

(** ** Tags that do not resolve *)

Section UnresolvedTag.

Variable tag : string.
Hypothesis Ht : parseTag tag = None.

Lemma encodeString_unresolved (s : list byte) :
  encodeString s tag = encodeString s "".
Proof. unfold encodeString. rewrite tag_dispatch, Ht. reflexivity. Qed.

Lemma encodeBytes_unresolved (b : list byte) :
  encodeBytes b tag = encodeBytes b "".
Proof. unfold encodeBytes. rewrite tag_dispatch, Ht. reflexivity. Qed.

Lemma encodeSlice_unresolved (enc : value -> result (list byte))
  (z : value) (xs : list value) :
  encodeSlice enc z xs tag = encodeSlice enc z xs "".
Proof. unfold encodeSlice. rewrite tag_dispatch, Ht. reflexivity. Qed.

Lemma decodeString_unresolved : decodeString tag = decodeString "".
Proof. unfold decodeString. rewrite tag_dispatch, Ht. reflexivity. Qed.

Lemma decodeBytes_unresolved : decodeBytes tag = decodeBytes "".
Proof. unfold decodeBytes. rewrite tag_dispatch, Ht. reflexivity. Qed.

Lemma decodeByteArray_unresolved (n : nat) :
  decodeByteArray n tag = decodeByteArray n "".
Proof. unfold decodeByteArray. rewrite tag_dispatch, Ht. reflexivity. Qed.

Lemma decodeSlice_unresolved (dec : value -> Dec value) (z : value) :
  decodeSlice dec z tag = decodeSlice dec z "".
Proof. unfold decodeSlice. rewrite tag_dispatch, Ht. reflexivity. Qed.

Lemma decodeArray_unresolved (dec : value -> Dec value) (z : value)
  (n : nat) (arr : list value) :
  decodeArray dec z n arr tag = decodeArray dec z n arr "".
Proof. unfold decodeArray. rewrite tag_dispatch, Ht. reflexivity. Qed.

Lemma unresolved_tag_mutual
  (m : ty -> option (value -> result (list byte)))
  (u : ty -> option (list byte -> value -> result value)) :
  (forall t v cur r,
      encodeField m t v tag = encodeField m t v ""
      /\ decodeField u t cur tag r = decodeField u t cur "" r)
  /\ (forall fs : fields, True).
Proof.
  apply ty_mutind; try (intros; exact I).
  - intros k v cur r. split; reflexivity.
  - intros v cur r. cbn [encodeField decodeField].
    rewrite decodeString_unresolved. split; [|reflexivity].
    destruct v; try reflexivity. rewrite encodeString_unresolved.
    reflexivity.
  - intros e _ v cur r. cbn [encodeField decodeField].
    rewrite decodeBytes_unresolved, decodeSlice_unresolved.
    split; [|reflexivity].
    destruct v; try reflexivity.
    rewrite encodeBytes_unresolved, encodeSlice_unresolved. reflexivity.
  - intros n e _ v cur r. cbn [encodeField decodeField].
    rewrite decodeByteArray_unresolved. split.
    + destruct v; try reflexivity. unfold encodeArray.
      rewrite encodeBytes_unresolved, encodeSlice_unresolved. reflexivity.
    + destruct cur; try reflexivity.
      rewrite decodeArray_unresolved. reflexivity.
  - intros name fs _ v cur r. split; reflexivity.
  - intros e IH v cur r. cbn [encodeField decodeField]. split.
    + destruct v as [| | | | | | |[x|]|]; try reflexivity.
      apply (IH x x r).
    + destruct cur as [| | | | | | |[c|]|]; try reflexivity; unfold bindD.
      * destruct (IH c c r) as [_ ->]. reflexivity.
      * destruct (IH (zero e) (zero e) r) as [_ ->]. reflexivity.
  - intros kind v cur r. split; reflexivity.
Qed.

End UnresolvedTag.

(** A tag on which [parseTag] fails ("len:abc", "invalid", ...) is ignored:
    the field is encoded and decoded exactly as a field without tag, in the
    default framing. *)
Theorem unresolved_tag_is_no_tag
  (m : ty -> option (value -> result (list byte)))
  (u : ty -> option (list byte -> value -> result value))
  (t : ty) (v cur : value) (tag : string) (r : Reader) :
  parseTag tag = None ->
  encodeField m t v tag = encodeField m t v ""
  /\ decodeField u t cur tag r = decodeField u t cur "" r.
Proof.
  intros Ht. apply (unresolved_tag_mutual tag Ht m u).
Qed.

Lemma unresolved_tag_witness :
  encodeField no_marshaler TString (VString (bytes "hi")) "len:abc"
  = encodeField no_marshaler TString (VString (bytes "hi")) ""
  /\ decodeField no_unmarshaler TString (VString [])
       "len:abc" ([x02; x00; x00; x00] ++ bytes "hi")
     = decodeField no_unmarshaler TString (VString [])
         "" ([x02; x00; x00; x00] ++ bytes "hi").
Proof.
  exact (unresolved_tag_is_no_tag no_marshaler no_unmarshaler TString
           (VString (bytes "hi")) (VString []) "len:abc"
           ([x02; x00; x00; x00] ++ bytes "hi") eq_refl).
Defined.

(** ** Scalars on the wire *)

(** Every integer and float kind of fixed width (all but [bool] and the
    platform [int]) is written as its [width] bytes, least significant
    first, whatever the tag, and is read back from these bytes whatever
    follows them and whatever the target held. *)
Theorem scalar_wire_format
  (m : ty -> option (value -> result (list byte)))
  (u : ty -> option (list byte -> value -> result value))
  (k : scalar) (v cur : value) (tag tag' : string) (rest : list byte) :
  fixed_width k = true -> in_range k v = true ->
  encodeField m (TScalar k) v tag = Ok (le_bytes (width k) (raw v))
  /\ length (le_bytes (width k) (raw v)) = width k
  /\ decodeField u (TScalar k) cur tag' (le_bytes (width k) (raw v) ++ rest)
     = (Ok v, rest).
Proof.
  intros Hk Hv. split; [|split].
  - cbn [encodeField]. apply write_scalar_ok; [|exact Hv].
    intros ->. discriminate Hk.
  - apply le_bytes_length.
  - rewrite decodeField_scalar by exact Hk.
    apply scalar_roundtrip; assumption.
Qed.

Lemma scalar_wire_format_witness :
  encodeField no_marshaler (TScalar Int16) (VInt (-100)) "8"
  = Ok (le_bytes (width Int16) (raw (VInt (-100))))
  /\ length (le_bytes (width Int16) (raw (VInt (-100)))) = width Int16
  /\ decodeField no_unmarshaler (TScalar Int16) (VInt 0) ""
       (le_bytes (width Int16) (raw (VInt (-100))) ++ [xff])
     = (Ok (VInt (-100)), [xff]).
Proof.
  exact (scalar_wire_format no_marshaler no_unmarshaler Int16 (VInt (-100))
           (VInt 0) "8" "" [xff] eq_refl eq_refl).
Defined.

(** Decoding a fixed-width scalar needs exactly its width: with fewer bytes
    left it fails with [io.EOF] or [io.ErrUnexpectedEOF]; with at least that
    many it succeeds, consumes exactly [width] bytes and yields a value of
    the kind. *)
Theorem scalar_decode_needs_width
  (u : ty -> option (list byte -> value -> result value))
  (k : scalar) (cur : value) (tag : string) (r : Reader) :
  fixed_width k = true ->
  ((length r < width k)%nat ->
   exists e r', decodeField u (TScalar k) cur tag r = (Err e, r')
                /\ insufficient e = true)
  /\ ((width k <= length r)%nat ->
      exists v, decodeField u (TScalar k) cur tag r
                = (Ok v, skipn (width k) r)
                /\ in_range k v = true).
Proof.
  intros Hk. rewrite decodeField_scalar by exact Hk. split.
  - apply read_scalar_short; exact Hk.
  - apply read_scalar_enough; exact Hk.
Qed.

Lemma scalar_decode_needs_width_witness :
  ((length [x01; x02] < width Uint32)%nat ->
   exists e r',
     decodeField no_unmarshaler (TScalar Uint32) (VInt 0) "" [x01; x02]
     = (Err e, r')
     /\ insufficient e = true)
  /\ ((width Uint32 <= length [x01; x02])%nat ->
      exists v,
        decodeField no_unmarshaler (TScalar Uint32) (VInt 0) "" [x01; x02]
        = (Ok v, skipn (width Uint32) [x01; x02])
        /\ in_range Uint32 v = true).
Proof.
  exact (scalar_decode_needs_width no_unmarshaler Uint32 (VInt 0) ""
           [x01; x02] eq_refl).
Defined.

(** ** Strings and byte sequences on the wire *)

(** Default framing.  Without a resolving tag, a string shorter than [2^32]
    bytes is written as its 4-byte little-endian byte count followed by its
    bytes, and a byte slice likewise; decoding these bytes gives the
    payload back and stops right after it, provided the input does not end
    where the payload is read (an empty payload with nothing after it). *)
Theorem default_framing
  (m : ty -> option (value -> result (list byte)))
  (u : ty -> option (list byte -> value -> result value))
  (tag : string) (s : list byte) (cur : value) (rest : list byte) :
  parseTag tag = None -> len s < 2 ^ 32 ->
  encodeField m TString (VString s) tag = Ok (put_uint32 (len s) ++ s)
  /\ encodeField m (TSlice (TScalar Uint8)) (VSlice (Some (values_of s))) tag
     = Ok (put_uint32 (len s) ++ s)
  /\ length (put_uint32 (len s) ++ s) = (4 + length s)%nat
  /\ (s ++ rest <> [] ->
      decodeField u TString cur tag (put_uint32 (len s) ++ s ++ rest)
      = (Ok (VString s), rest)
      /\ decodeField u (TSlice (TScalar Uint8)) cur tag
           (put_uint32 (len s) ++ s ++ rest)
         = (Ok (VSlice (Some (values_of s))), rest)).
Proof.
  intros Ht Hs.
  assert (Hu32 : uint32 (len s) = len s)
    by (unfold uint32; apply Z.mod_small; unfold len in *; lia).
  assert (Hb : bytes_of (values_of s) = s).
  { unfold bytes_of, values_of. rewrite map_map.
    rewrite <- (map_id s) at 2. apply map_ext. intros b.
    apply byte_of_Z_of_byte. }
  split; [|split; [|split]].
  - cbn [encodeField]. unfold encodeString.
    rewrite tag_dispatch, Ht, Hu32. reflexivity.
  - cbn [encodeField is_uint8 elems]. unfold encodeBytes.
    rewrite tag_dispatch, Ht, Hb, Hu32. reflexivity.
  - rewrite length_app. unfold put_uint32. rewrite le_bytes_length.
    reflexivity.
  - intros Hne.
    assert (R : read_prefixed (put_uint32 (len s) ++ s ++ rest)
                = (Ok s, rest)).
    { rewrite <- Hu32 at 1. apply read_prefixed_roundtrip; [exact Hs|].
      destruct s; [left|right]; [|discriminate].
      intros ->. apply Hne. reflexivity. }
    cbn [decodeField is_uint8]. unfold decodeString, decodeBytes.
    rewrite !tag_dispatch, Ht. unfold bindD. rewrite R. split; reflexivity.
Qed.

Lemma default_framing_witness :
  encodeField no_marshaler TString (VString (bytes "hello")) ""
  = Ok (put_uint32 (len (bytes "hello")) ++ bytes "hello")
  /\ encodeField no_marshaler (TSlice (TScalar Uint8))
       (VSlice (Some (values_of (bytes "hello")))) ""
     = Ok (put_uint32 (len (bytes "hello")) ++ bytes "hello")
  /\ length (put_uint32 (len (bytes "hello")) ++ bytes "hello")
     = (4 + length (bytes "hello"))%nat
  /\ (bytes "hello" ++ [xff] <> [] ->
      decodeField no_unmarshaler TString (VString []) ""
        (put_uint32 (len (bytes "hello")) ++ bytes "hello" ++ [xff])
      = (Ok (VString (bytes "hello")), [xff])
      /\ decodeField no_unmarshaler (TSlice (TScalar Uint8)) (VString []) ""
           (put_uint32 (len (bytes "hello")) ++ bytes "hello" ++ [xff])
         = (Ok (VSlice (Some (values_of (bytes "hello")))), [xff])).
Proof.
  exact (default_framing no_marshaler no_unmarshaler "" (bytes "hello")
           (VString []) [xff] eq_refl eq_refl).
Defined.

(** The default-framing decoder on an arbitrary input.  With fewer than
    four bytes it fails with an end-of-input error.  With a prefix [L] and
    at least [L] bytes after it, one at least, it reads exactly [L] bytes.
    With nothing after the prefix it fails with [io.EOF], also when [L] is
    zero. *)
Theorem default_framing_decode
  (tag : string) (L : Z) (r : list byte) :
  parseTag tag = None -> 0 <= L < 2 ^ 32 ->
  (forall short, (length short < 4)%nat ->
     exists e r', decodeString tag short = (Err e, r')
                  /\ insufficient e = true)
  /\ (r <> [] -> (Z.to_nat L <= length r)%nat ->
      decodeString tag (put_uint32 L ++ r)
      = (Ok (VString (firstn (Z.to_nat L) r)), skipn (Z.to_nat L) r)
      /\ decodeBytes tag (put_uint32 L ++ r)
         = (Ok (VSlice (Some (values_of (firstn (Z.to_nat L) r)))),
            skipn (Z.to_nat L) r))
  /\ decodeString tag (put_uint32 L) = (Err EOF, [])
  /\ decodeBytes tag (put_uint32 L) = (Err EOF, []).
Proof.
  intros Ht HL. unfold decodeString, decodeBytes.
  rewrite !tag_dispatch, Ht. unfold read_prefixed, bindD.
  split; [|split; [|split]].
  - intros short Hs. unfold read_uint32, bindD.
    destruct (ReadFull_short 4 short Hs) as (e & r' & E & He).
    rewrite E. exists e, r'. split; [reflexivity|exact He].
  - intros Hne Hl. rewrite read_uint32_put by exact HL.
    rewrite Read_enough by assumption. split; reflexivity.
  - rewrite <- (app_nil_r (put_uint32 L)).
    rewrite read_uint32_put by exact HL. split; reflexivity.
  - rewrite <- (app_nil_r (put_uint32 L)).
    rewrite read_uint32_put by exact HL. reflexivity.
Qed.

Lemma default_framing_decode_witness :
  (forall short, (length short < 4)%nat ->
     exists e r', decodeString "" short = (Err e, r')
                  /\ insufficient e = true)
  /\ (bytes "abc" <> [] -> (Z.to_nat 2 <= length (bytes "abc"))%nat ->
      decodeString "" (put_uint32 2 ++ bytes "abc")
      = (Ok (VString (firstn (Z.to_nat 2) (bytes "abc"))),
         skipn (Z.to_nat 2) (bytes "abc"))
      /\ decodeBytes "" (put_uint32 2 ++ bytes "abc")
         = (Ok (VSlice (Some (values_of (firstn (Z.to_nat 2) (bytes "abc"))))),
            skipn (Z.to_nat 2) (bytes "abc")))
  /\ decodeString "" (put_uint32 2) = (Err EOF, [])
  /\ decodeBytes "" (put_uint32 2) = (Err EOF, []).
Proof.
  apply (default_framing_decode "" 2 (bytes "abc")); [reflexivity | lia].
Defined.

(** Fixed framing on the encoding side.  Under a tag that resolves to [n],
    a string, a byte slice and a byte array are written as exactly [n]
    bytes and no length: the first [n] bytes of the payload when it has
    that many, otherwise the payload followed by zero bytes. *)
Theorem fixed_framing_encode
  (m : ty -> option (value -> result (list byte)))
  (tag : string) (n : Z) (s : list byte) (N : nat) :
  parseTag tag = Some n -> len s < 2 ^ 32 ->
  encodeField m TString (VString s) tag
  = Ok (firstn (Z.to_nat n) s ++ repeat x00 (Z.to_nat n - length s))
  /\ encodeField m (TSlice (TScalar Uint8)) (VSlice (Some (values_of s))) tag
     = Ok (firstn (Z.to_nat n) s ++ repeat x00 (Z.to_nat n - length s))
  /\ encodeField m (TArray N (TScalar Uint8)) (VArray (values_of s)) tag
     = Ok (firstn (Z.to_nat n) s ++ repeat x00 (Z.to_nat n - length s))
  /\ length (firstn (Z.to_nat n) s ++ repeat x00 (Z.to_nat n - length s))
     = Z.to_nat n.
Proof.
  intros Ht Hs.
  assert (Hb : bytes_of (values_of s) = s).
  { unfold bytes_of, values_of. rewrite map_map.
    rewrite <- (map_id s) at 2. apply map_ext. intros b.
    apply byte_of_Z_of_byte. }
  cbn [encodeField is_uint8 elems]. rewrite Hb.
  rewrite (encodeString_fixed tag n s Ht Hs).
  rewrite (encodeBytes_fixed tag n s Ht Hs).
  repeat split.
  rewrite length_app, length_firstn, repeat_length. lia.
Qed.

Lemma fixed_framing_encode_witness :
  encodeField no_marshaler TString (VString (bytes "hello")) "3"
  = Ok (firstn (Z.to_nat 3) (bytes "hello")
          ++ repeat x00 (Z.to_nat 3 - length (bytes "hello")))
  /\ encodeField no_marshaler (TSlice (TScalar Uint8))
       (VSlice (Some (values_of (bytes "hello")))) "3"
     = Ok (firstn (Z.to_nat 3) (bytes "hello")
             ++ repeat x00 (Z.to_nat 3 - length (bytes "hello")))
  /\ encodeField no_marshaler (TArray 5 (TScalar Uint8))
       (VArray (values_of (bytes "hello"))) "3"
     = Ok (firstn (Z.to_nat 3) (bytes "hello")
             ++ repeat x00 (Z.to_nat 3 - length (bytes "hello")))
  /\ length (firstn (Z.to_nat 3) (bytes "hello")
               ++ repeat x00 (Z.to_nat 3 - length (bytes "hello")))
     = Z.to_nat 3.
Proof.
  exact (fixed_framing_encode no_marshaler "3" 3 (bytes "hello") 5
           eq_refl eq_refl).
Defined.

(** Fixed framing on the decoding side.  Under a tag that resolves to [n],
    with at least [n] bytes left and the input not at its end, exactly [n]
    bytes are read and no length; a string loses its trailing zero bytes, a
    byte slice keeps all [n] bytes. *)
Theorem fixed_framing_decode
  (u : ty -> option (list byte -> value -> result value))
  (tag : string) (n : Z) (cur : value) (r : Reader) :
  parseTag tag = Some n -> r <> [] -> (Z.to_nat n <= length r)%nat ->
  decodeField u TString cur tag r
  = (Ok (VString (TrimRight_zeros (firstn (Z.to_nat n) r))),
     skipn (Z.to_nat n) r)
  /\ decodeField u (TSlice (TScalar Uint8)) cur tag r
     = (Ok (VSlice (Some (values_of (firstn (Z.to_nat n) r)))),
        skipn (Z.to_nat n) r).
Proof.
  intros Ht Hne Hl. cbn [decodeField is_uint8].
  rewrite (decodeString_fixed tag n r Ht Hne Hl).
  rewrite (decodeBytes_fixed tag n r Ht Hne Hl).
  split; reflexivity.
Qed.

Lemma fixed_framing_decode_witness :
  decodeField no_unmarshaler TString (VString []) "4"
    (bytes "ab" ++ [x00; x00; xff])
  = (Ok (VString (TrimRight_zeros
                    (firstn (Z.to_nat 4) (bytes "ab" ++ [x00; x00; xff])))),
     skipn (Z.to_nat 4) (bytes "ab" ++ [x00; x00; xff]))
  /\ decodeField no_unmarshaler (TSlice (TScalar Uint8)) (VString []) "4"
       (bytes "ab" ++ [x00; x00; xff])
     = (Ok (VSlice (Some (values_of
                            (firstn (Z.to_nat 4)
                                    (bytes "ab" ++ [x00; x00; xff]))))),
        skipn (Z.to_nat 4) (bytes "ab" ++ [x00; x00; xff])).
Proof.
  apply (fixed_framing_decode no_unmarshaler "4" 4 (VString [])
           (bytes "ab" ++ [x00; x00; xff]));
    [reflexivity | discriminate | simpl; lia].
Defined.

(** ** Byte arrays *)

Lemma fill_array_firstn (N n : nat) (r : list byte) :
  (n <= length r)%nat ->
  fill_array N (firstn n r)
  = VArray (values_of (firstn (Nat.min n N) r) ++ repeat (VInt 0) (N - n)).
Proof.
  intros Hl. unfold fill_array.
  rewrite length_firstn, (Nat.min_l n (length r)) by exact Hl.
  rewrite firstn_firstn.
  replace (Nat.min (Nat.min n N) n) with (Nat.min n N) by lia.
  replace (N - Nat.min n N)%nat with (N - n)%nat by lia.
  reflexivity.
Qed.



(** ** The cursor *)

Lemma advances_ret {A} (a : A) : advances (ret a).
Proof. intros r. exists []. reflexivity. Qed.

Lemma advances_fail {A} (e : error) : advances (@fail A e).
Proof. intros r. exists []. reflexivity. Qed.

Lemma advances_bindD {A B} (m : Dec A) (k : A -> Dec B) :
  advances m -> (forall a, advances (k a)) -> advances (bindD m k).
Proof.
  intros Hm Hk r. unfold bindD. destruct (Hm r) as [c1 E1].
  destruct (m r) as [[a|e] r1]; cbn [snd] in E1.
  - destruct (Hk a r1) as [c2 E2]. exists (c1 ++ c2).
    rewrite <- app_assoc, <- E2. exact E1.
  - exists c1. exact E1.
Qed.

Lemma advances_mapErr {A} (f : error -> error) (m : Dec A) :
  advances m -> advances (mapErr f m).
Proof.
  intros Hm r. unfold mapErr. destruct (Hm r) as [c E].
  destruct (m r) as [[a|e] r1]; exists c; exact E.
Qed.

Lemma advances_Read (n : nat) : advances (Read n).
Proof.
  intros r. unfold Read. destruct r as [|b r].
  - exists []. reflexivity.
  - exists (firstn n (b :: r)). cbn [snd]. symmetry. apply firstn_skipn.
Qed.

Lemma advances_ReadFull (w : nat) : advances (ReadFull w).
Proof.
  intros r. unfold ReadFull. destruct r as [|b r].
  - exists []. reflexivity.
  - destruct (length (b :: r) <? w)%nat; cbn [snd].
    + exists (b :: r). rewrite app_nil_r. reflexivity.
    + exists (firstn w (b :: r)). symmetry. apply firstn_skipn.
Qed.

Lemma advances_forD {St} (body : nat -> St -> Dec St) (n i : nat) (s : St) :
  (forall j s', advances (body j s')) -> advances (forD body i n s).
Proof.
  intros Hb. revert i s. induction n as [|n IH]; intros i s; cbn [forD].
  - apply advances_ret.
  - apply advances_bindD; [apply Hb|]. intros s'. apply IH.
Qed.

Create HintDb advances.
#[local] Hint Resolve advances_ret advances_fail advances_Read
  advances_ReadFull : advances.

Lemma advances_read_uint32 : advances read_uint32.
Proof.
  unfold read_uint32. apply advances_bindD; auto with advances.
Qed.

Lemma advances_read_prefixed : advances read_prefixed.
Proof.
  unfold read_prefixed. apply advances_bindD;
    [apply advances_read_uint32 | auto with advances].
Qed.

Lemma advances_tagged {A} (tag : string) (f : Z -> Dec A) (d : Dec A) :
  (forall n, advances (f n)) -> advances d ->
  advances (if negb (String.eqb tag "") then
              match parseTag tag with Some n => f n | None => d end
            else d).
Proof.
  intros Hf Hd. destruct (negb (String.eqb tag "")); [|exact Hd].
  destruct (parseTag tag); [apply Hf | exact Hd].
Qed.

Lemma advances_read_scalar (k : scalar) : advances (read_scalar k).
Proof.
  destruct k; unfold read_scalar;
    try apply advances_bindD; auto with advances.
Qed.

Lemma advances_decodeString (tag : string) : advances (decodeString tag).
Proof.
  unfold decodeString. apply advances_tagged; intros;
    apply advances_bindD;
    auto using advances_read_prefixed with advances.
Qed.

Lemma advances_decodeBytes (tag : string) : advances (decodeBytes tag).
Proof.
  unfold decodeBytes. apply advances_tagged; intros;
    apply advances_bindD;
    auto using advances_read_prefixed with advances.
Qed.

Lemma advances_decodeByteArray (n : nat) (tag : string) :
  advances (decodeByteArray n tag).
Proof.
  unfold decodeByteArray. apply advances_tagged; intros;
    apply advances_bindD;
    auto using advances_read_prefixed with advances.
Qed.

Lemma advances_decodeSlice (dec : value -> Dec value) (z : value)
  (tag : string) :
  (forall c, advances (dec c)) -> advances (decodeSlice dec z tag).
Proof.
  intros Hd.
  assert (L : forall n, advances (decodeSlice_loop dec z n)).
  { intros n. unfold decodeSlice_loop. apply advances_bindD.
    - apply advances_forD. intros j s. apply advances_bindD;
        [apply Hd | auto with advances].
    - auto with advances. }
  unfold decodeSlice. apply advances_tagged; intros.
  - apply L.
  - apply advances_bindD; [apply advances_read_uint32 | intros; apply L].
Qed.

Lemma advances_decodeArray (dec : value -> Dec value) (z : value)
  (n : nat) (arr : list value) (tag : string) :
  (forall c, advances (dec c)) -> advances (decodeArray dec z n arr tag).
Proof.
  intros Hd.
  assert (L : forall a len, advances (decodeArray_loop dec z a arr len)).
  { intros a len. unfold decodeArray_loop. apply advances_bindD.
    - apply advances_forD. intros j s. unfold decodeArray_body.
      destruct (Z.of_nat j <? a); apply advances_bindD;
        auto with advances.
    - auto with advances. }
  unfold decodeArray. apply advances_tagged; intros.
  - apply L.
  - apply advances_bindD; [apply advances_read_uint32 | intros; apply L].
Qed.

Lemma advances_mutual
  (u : ty -> option (list byte -> value -> result value)) :
  (forall t cur tag, advances (decodeField u t cur tag))
  /\ (forall fs cs, advances (decodeStruct u fs cs)).
Proof.
  apply ty_mutind.
  - intros k cur tag. destruct k; cbn [decodeField];
      auto using advances_read_scalar with advances.
  - intros cur tag. apply advances_decodeString.
  - intros e IH cur tag. cbn [decodeField]. destruct (is_uint8 e).
    + apply advances_decodeBytes.
    + apply advances_decodeSlice. intros c. apply IH.
  - intros n e IH cur tag. cbn [decodeField]. destruct (is_uint8 e).
    + apply advances_decodeByteArray.
    + destruct cur; auto with advances.
      apply advances_decodeArray. intros c. apply IH.
  - intros name fs IH cur tag. cbn [decodeField].
    destruct cur; auto with advances.
    apply advances_bindD; [apply IH | auto with advances].
  - intros e IH cur tag. cbn [decodeField].
    destruct cur as [| | | | | | |[c|]|]; auto with advances;
      (apply advances_bindD; [apply IH | auto with advances]).
  - intros kind cur tag. cbn [decodeField]. auto with advances.
  - intros cs. cbn [decodeStruct]. destruct cs; auto with advances.
  - intros name exported tag t IHt rest IHr cs. cbn [decodeStruct].
    destruct cs as [|c cs]; auto with advances.
    assert (K : forall x, advances
                  (bindD (decodeStruct u rest cs)
                         (fun vs'' => ret (x :: vs'')))).
    { intros x. apply advances_bindD; [apply IHr | auto with advances]. }
    destruct (negb exported); [apply K|].
    destruct (if is_struct t then u (TPtr t) else None) as [UB|].
    + apply advances_bindD; [apply advances_read_uint32|]. intros L.
      apply advances_bindD; [apply advances_Read|]. intros data.
      destruct (UB data (VPtr (Some c))) as [[| | | | | | |[v'|]|]|e];
        auto with advances.
    + destruct (String.eqb tag "-"); [apply K|].
      apply advances_bindD; [apply advances_mapErr, IHt|].
      intros v'. apply K.
Qed.

(** The decode cursor only moves forward: whatever the type, the target,
    the tag, the custom codecs and the input, and whether decoding succeeds
    or fails, the reader [decodeField] and [decodeStruct] leave is the input
    minus a prefix.  Nothing is read twice and no byte is made up. *)
Theorem decoder_only_advances
  (u : ty -> option (list byte -> value -> result value))
  (t : ty) (fs : fields) (cur : value) (cs : list value) (tag : string)
  (r : Reader) :
  (exists consumed, r = consumed ++ snd (decodeField u t cur tag r))
  /\ (exists consumed, r = consumed ++ snd (decodeStruct u fs cs r)).
Proof.
  destruct (advances_mutual u) as [H1 H2]. split; [apply H1 | apply H2].
Qed.

(** [UnmarshalPartial] never reports more bytes remaining than it was
    given, on success and on failure. *)
Theorem UnmarshalPartial_remaining_bound
  (u : ty -> option (list byte -> value -> result value))
  (data : list byte) (t : ty) (v : value) :
  (fst (UnmarshalPartial u data t v) <= length data)%nat.
Proof.
  unfold UnmarshalPartial. destruct (u t); cbn [fst]; [lia|].
  destruct t; cbn [fst]; try lia.
  destruct v as [| | | | | | |[c|]|]; cbn [fst]; try lia.
  destruct (advances_mutual u) as [H _].
  destruct (H t c "" data) as [consumed E].
  destruct (decodeField u t c "" data) as [[x|e] buf]; cbn [fst snd] in *;
    apply (f_equal (@length _)) in E; rewrite length_app in E; lia.
Qed.

(** ** Records *)

Lemma bindR_concat (A B : result (list byte)) (pre : list byte) :
  bindR (bindR A (fun a => bindR B (fun b => Ok (a ++ b))))
        (fun bs => Ok (pre ++ bs))
  = bindR (bindR A (fun bs => Ok (pre ++ bs)))
          (fun a => bindR B (fun b => Ok (a ++ b))).
Proof.
  destruct A as [a|e]; [|reflexivity]. destruct B as [b|e]; [|reflexivity].
  cbn [bindR]. rewrite app_assoc. reflexivity.
Qed.

Lemma encodeStruct_app
  (m : ty -> option (value -> result (list byte)))
  (fs2 : fields) (vs2 : list value) :
  forall (fs1 : fields) (vs1 : list value),
    length vs1 = NumField fs1 ->
    encodeStruct m (fapp fs1 fs2) (vs1 ++ vs2)
    = bindR (encodeStruct m fs1 vs1) (fun a =>
      bindR (encodeStruct m fs2 vs2) (fun b => Ok (a ++ b))).
Proof.
  induction fs1 as [|name exported tag t fs1 IH]; intros [|v vs1] Hl;
    try discriminate Hl.
  - cbn [fapp app encodeStruct bindR].
    destruct (encodeStruct m fs2 vs2); reflexivity.
  - injection Hl as Hl. cbn [fapp app encodeStruct].
    rewrite (IH vs1 Hl).
    destruct (negb exported); [reflexivity|].
    destruct (m t) as [MB|].
    + destruct (MB v) as [fd|e]; [|reflexivity].
      destruct (encodeStruct m fs1 vs1) as [a|e]; [|reflexivity].
      destruct (encodeStruct m fs2 vs2) as [b|e]; [|reflexivity].
      cbn [bindR]. rewrite <- !app_assoc. reflexivity.
    + destruct (String.eqb tag "-"); [reflexivity|].
      destruct (encodeField m t v tag) as [b0|e]; [|reflexivity].
      apply bindR_concat.
Qed.

Lemma decodeStruct_app
  (u : ty -> option (list byte -> value -> result value))
  (fs2 : fields) (cs2 : list value) :
  forall (fs1 : fields) (cs1 : list value) (r : Reader),
    length cs1 = NumField fs1 ->
    decodeStruct u (fapp fs1 fs2) (cs1 ++ cs2) r
    = bindD (decodeStruct u fs1 cs1) (fun a =>
      bindD (decodeStruct u fs2 cs2) (fun b => ret (a ++ b))) r.
Proof.
  induction fs1 as [|name exported tag t fs1 IH]; intros [|c cs1] r Hl;
    try discriminate Hl.
  - cbn [fapp app decodeStruct]. unfold bindD, ret. cbn [app].
    destruct (decodeStruct u fs2 cs2 r) as [[b|e] r']; reflexivity.
  - injection Hl as Hl. cbn [fapp app decodeStruct].
    assert (K : forall (x : value) (r1 : Reader),
               bindD (decodeStruct u (fapp fs1 fs2) (cs1 ++ cs2))
                     (fun vs'' => ret (x :: vs'')) r1
               = bindD (bindD (decodeStruct u fs1 cs1)
                              (fun vs'' => ret (x :: vs'')))
                       (fun a => bindD (decodeStruct u fs2 cs2)
                                       (fun b => ret (a ++ b))) r1).
    { intros x r1. unfold bindD at 1. rewrite (IH cs1 r1 Hl).
      unfold bindD, ret.
      destruct (decodeStruct u fs1 cs1 r1) as [[a|e] r2]; [|reflexivity].
      destruct (decodeStruct u fs2 cs2 r2) as [[b|e] r3]; reflexivity. }
    destruct (negb exported); [apply K|].
    destruct (if is_struct t then u (TPtr t) else None) as [UB|].
    + rewrite !bindD_assoc. apply bindD_ext. intros L r1.
      rewrite !bindD_assoc. apply bindD_ext. intros data r2.
      destruct (UB data (VPtr (Some c))) as [[| | | | | | |[v'|]|]|e];
        try reflexivity.
      apply K.
    + destruct (String.eqb tag "-"); [apply K|].
      rewrite !bindD_assoc. apply bindD_ext. intros v' r1. apply K.
Qed.

(** Record framing is plain concatenation, with no record-level length or
    delimiter: a record whose field table is [fs1] followed by [fs2] is
    encoded as the encoding of the [fs1] part followed by that of the [fs2]
    part, and decoded by decoding the [fs1] part and then, from where that
    stopped, the [fs2] part.  The first error of either part is the error
    of the whole. *)
Theorem record_framing_is_concatenation
  (m : ty -> option (value -> result (list byte)))
  (u : ty -> option (list byte -> value -> result value))
  (fs1 fs2 : fields) (vs1 vs2 cs1 cs2 : list value) (r : Reader) :
  length vs1 = NumField fs1 -> length cs1 = NumField fs1 ->
  encodeStruct m (fapp fs1 fs2) (vs1 ++ vs2)
  = bindR (encodeStruct m fs1 vs1) (fun a =>
    bindR (encodeStruct m fs2 vs2) (fun b => Ok (a ++ b)))
  /\ decodeStruct u (fapp fs1 fs2) (cs1 ++ cs2) r
     = bindD (decodeStruct u fs1 cs1) (fun a =>
       bindD (decodeStruct u fs2 cs2) (fun b => ret (a ++ b))) r.
Proof.
  intros Hv Hc. split.
  - apply encodeStruct_app; exact Hv.
  - apply decodeStruct_app; exact Hc.
Qed.

Lemma record_framing_witness :
  encodeStruct no_marshaler
    (fapp (FCons "A" true "" (TScalar Uint32) FNil)
          (FCons "Name" true "" TString FNil))
    ([VInt 42] ++ [VString (bytes "test")])
  = bindR (encodeStruct no_marshaler
             (FCons "A" true "" (TScalar Uint32) FNil) [VInt 42])
      (fun a =>
       bindR (encodeStruct no_marshaler
                (FCons "Name" true "" TString FNil) [VString (bytes "test")])
             (fun b => Ok (a ++ b)))
  /\ decodeStruct no_unmarshaler
       (fapp (FCons "A" true "" (TScalar Uint32) FNil)
             (FCons "Name" true "" TString FNil))
       ([VInt 0] ++ [VString []])
       ([x2a; x00; x00; x00; x04; x00; x00; x00] ++ bytes "test")
     = bindD (decodeStruct no_unmarshaler
                (FCons "A" true "" (TScalar Uint32) FNil) [VInt 0])
         (fun a =>
          bindD (decodeStruct no_unmarshaler
                   (FCons "Name" true "" TString FNil) [VString []])
                (fun b => ret (a ++ b)))
         ([x2a; x00; x00; x00; x04; x00; x00; x00] ++ bytes "test").
Proof.
  exact (record_framing_is_concatenation no_marshaler no_unmarshaler
           (FCons "A" true "" (TScalar Uint32) FNil)
           (FCons "Name" true "" TString FNil)
           [VInt 42] [VString (bytes "test")] [VInt 0] [VString []]
           ([x2a; x00; x00; x00; x04; x00; x00; x00] ++ bytes "test")
           eq_refl eq_refl).
Defined.

Lemma decodeStruct_length
  (u : ty -> option (list byte -> value -> result value)) :
  forall (fs : fields) (cs vs : list value) (r r' : Reader),
    decodeStruct u fs cs r = (Ok vs, r') -> length vs = NumField fs.
Proof.
  induction fs as [|name exported tag t fs IH]; intros cs vs r r' H.
  - destruct cs; cbn [decodeStruct] in H; inversion H. reflexivity.
  - destruct cs as [|c cs]; cbn [decodeStruct] in H; [discriminate H|].
    assert (K : forall x r1,
               bindD (decodeStruct u fs cs) (fun vs'' => ret (x :: vs'')) r1
               = (Ok vs, r') -> length vs = NumField (FCons name exported tag t fs)).
    { intros x r1 E. unfold bindD, ret in E.
      destruct (decodeStruct u fs cs r1) as [[w|e] r2] eqn:Ed;
        [|discriminate E].
      inversion E; subst. cbn [length NumField]. f_equal.
      eapply IH; exact Ed. }
    destruct (negb exported); [eapply K; exact H|].
    destruct (if is_struct t then u (TPtr t) else None) as [UB|].
    + unfold bindD at 1 in H.
      destruct (read_uint32 r) as [[L|e] r1]; [|discriminate H].
      unfold bindD at 1 in H.
      destruct (Read (Z.to_nat L) r1) as [[data|e] r2]; [|discriminate H].
      destruct (UB data (VPtr (Some c))) as [[| | | | | | |[v'|]|]|e];
        try discriminate H.
      eapply K; exact H.
    + destruct (String.eqb tag "-"); [eapply K; exact H|].
      unfold bindD at 1 in H.
      destruct (mapErr (ErrField name) (decodeField u t c tag) r)
        as [[v'|e] r1]; [|discriminate H].
      eapply K; exact H.
Qed.

(** An unexported field never reaches the wire, whatever its type, its tag,
    its value and the custom codecs: the record is encoded as the record
    without that field is, and decoding reads what it reads for the record
    without the field and leaves the unexported field holding what the
    target held. *)
Theorem unexported_field_is_skipped
  (m : ty -> option (value -> result (list byte)))
  (u : ty -> option (list byte -> value -> result value))
  (fs1 fs2 : fields) (name tag : string) (t : ty)
  (vs1 vs2 : list value) (v : value)
  (cs1 cs2 : list value) (c : value) (r : Reader) :
  length vs1 = NumField fs1 -> length cs1 = NumField fs1 ->
  encodeStruct m (fapp fs1 (FCons name false tag t fs2)) (vs1 ++ v :: vs2)
  = encodeStruct m (fapp fs1 fs2) (vs1 ++ vs2)
  /\ decodeStruct u (fapp fs1 (FCons name false tag t fs2))
                  (cs1 ++ c :: cs2) r
     = mapOk (fun cs' => firstn (NumField fs1) cs'
                           ++ c :: skipn (NumField fs1) cs')
             (decodeStruct u (fapp fs1 fs2) (cs1 ++ cs2) r).
Proof.
  intros Hv Hc. split.
  - rewrite !encodeStruct_app by exact Hv. reflexivity.
  - rewrite !decodeStruct_app by exact Hc.
    unfold bindD, mapOk.
    destruct (decodeStruct u fs1 cs1 r) as [[a|e] r1] eqn:E1; [|reflexivity].
    apply decodeStruct_length in E1.
    cbn [decodeStruct negb]. unfold bindD, ret.
    destruct (decodeStruct u fs2 cs2 r1) as [[b|e] r2]; [|reflexivity].
    rewrite <- E1, firstn_app, firstn_all, Nat.sub_diag, firstn_O, app_nil_r.
    rewrite skipn_app, skipn_all, Nat.sub_diag. reflexivity.
Qed.

(** [struct { A uint32; hidden chan int; Name string }]: a field of an
    unsupported type, unexported. *)
Lemma unexported_field_witness :
  encodeStruct no_marshaler
    (fapp (FCons "A" true "" (TScalar Uint32) FNil)
          (FCons "hidden" false "" (TUnsupported "chan")
                 (FCons "Name" true "" TString FNil)))
    ([VInt 42] ++ VNone :: [VString (bytes "test")])
  = encodeStruct no_marshaler
      (fapp (FCons "A" true "" (TScalar Uint32) FNil)
            (FCons "Name" true "" TString FNil))
      ([VInt 42] ++ [VString (bytes "test")])
  /\ decodeStruct no_unmarshaler
       (fapp (FCons "A" true "" (TScalar Uint32) FNil)
             (FCons "hidden" false "" (TUnsupported "chan")
                    (FCons "Name" true "" TString FNil)))
       ([VInt 0] ++ VNone :: [VString []])
       ([x2a; x00; x00; x00; x04; x00; x00; x00] ++ bytes "test")
     = mapOk (fun cs' =>
                firstn (NumField (FCons "A" true "" (TScalar Uint32) FNil)) cs'
                  ++ VNone
                  :: skipn (NumField (FCons "A" true "" (TScalar Uint32) FNil))
                           cs')
         (decodeStruct no_unmarshaler
            (fapp (FCons "A" true "" (TScalar Uint32) FNil)
                  (FCons "Name" true "" TString FNil))
            ([VInt 0] ++ [VString []])
            ([x2a; x00; x00; x00; x04; x00; x00; x00] ++ bytes "test")).
Proof.
  exact (unexported_field_is_skipped no_marshaler no_unmarshaler
           (FCons "A" true "" (TScalar Uint32) FNil)
           (FCons "Name" true "" TString FNil)
           "hidden" "" (TUnsupported "chan")
           [VInt 42] [VString (bytes "test")] VNone
           [VInt 0] [VString []] VNone
           ([x2a; x00; x00; x00; x04; x00; x00; x00] ++ bytes "test")
           eq_refl eq_refl).
Defined.

(** A field whose type has a custom codec travels in an envelope, whatever
    its tag: [MarshalBinary]'s output preceded by its 4-byte length.  On the
    way in, [UnmarshalBinary] of a struct-typed field receives exactly that
    output, no more and no less, and the fields after it are decoded from
    the byte after the envelope (the input must not end where the payload
    is read, which only an empty payload at the very end does). *)
Theorem custom_field_envelope
  (m : ty -> option (value -> result (list byte)))
  (u : ty -> option (list byte -> value -> result value))
  (MarshalBinary : value -> result (list byte))
  (UnmarshalBinary : list byte -> value -> result value)
  (name tag : string) (t : ty) (fs : fields)
  (v c : value) (vs cs : list value) (data r : list byte) :
  m t = Some MarshalBinary -> MarshalBinary v = Ok data ->
  len data < 2 ^ 32 ->
  is_struct t = true -> u (TPtr t) = Some UnmarshalBinary ->
  data ++ r <> [] ->
  encodeStruct m (FCons name true tag t fs) (v :: vs)
  = bindR (encodeStruct m fs vs)
          (fun bs => Ok (put_uint32 (len data) ++ data ++ bs))
  /\ decodeStruct u (FCons name true tag t fs) (c :: cs)
                  (put_uint32 (len data) ++ data ++ r)
     = match UnmarshalBinary data (VPtr (Some c)) with
       | Err e => (Err (ErrField name e), r)
       | Ok (VPtr (Some c')) =>
           mapOk (fun cs' => c' :: cs') (decodeStruct u fs cs r)
       | Ok _ => (Err Panic, r)
       end.
Proof.
  intros Hm HM Hd Hs Hu Hne.
  assert (Hu32 : uint32 (len data) = len data)
    by (unfold uint32; apply Z.mod_small; unfold len in *; lia).
  split.
  - cbn [encodeStruct negb]. rewrite Hm, HM, Hu32. reflexivity.
  - cbn [decodeStruct negb]. rewrite Hs, Hu. unfold bindD at 1.
    rewrite read_uint32_put by (unfold len in *; lia).
    unfold bindD at 1. unfold len. rewrite Nat2Z.id.
    rewrite Read_app by (try reflexivity; exact Hne).
    destruct (UnmarshalBinary data (VPtr (Some c)))
      as [[| | | | | | |[c'|]|]|e]; reflexivity.
Qed.

(** [TestCustomMarshalerUnmarshaler], the field tagged "7" for good
    measure. *)
Lemma custom_field_envelope_witness :
  encodeStruct TestCustom.marshaler
    (FCons "Custom" true "7" TestCustom.CustomType
           (FCons "Number" true "" (TScalar Uint32) FNil))
    (VStruct [VString (bytes "test")] :: [VInt 42])
  = bindR (encodeStruct TestCustom.marshaler
             (FCons "Number" true "" (TScalar Uint32) FNil) [VInt 42])
      (fun bs => Ok (put_uint32 (len (bytes "custom:test"))
                       ++ bytes "custom:test" ++ bs))
  /\ decodeStruct TestCustom.unmarshaler
       (FCons "Custom" true "7" TestCustom.CustomType
              (FCons "Number" true "" (TScalar Uint32) FNil))
       (VStruct [VString []] :: [VInt 0])
       (put_uint32 (len (bytes "custom:test")) ++ bytes "custom:test"
          ++ [x2a; x00; x00; x00])
     = match TestCustom.UnmarshalBinary (bytes "custom:test")
               (VPtr (Some (VStruct [VString []]))) with
       | Err e => (Err (ErrField "Custom" e), [x2a; x00; x00; x00])
       | Ok (VPtr (Some c')) =>
           mapOk (fun cs' => c' :: cs')
             (decodeStruct TestCustom.unmarshaler
                (FCons "Number" true "" (TScalar Uint32) FNil) [VInt 0]
                [x2a; x00; x00; x00])
       | Ok _ => (Err Panic, [x2a; x00; x00; x00])
       end.
Proof.
  apply (custom_field_envelope TestCustom.marshaler TestCustom.unmarshaler
           TestCustom.MarshalBinary TestCustom.UnmarshalBinary
           "Custom" "7" TestCustom.CustomType
           (FCons "Number" true "" (TScalar Uint32) FNil)
           (VStruct [VString (bytes "test")]) (VStruct [VString []])
           [VInt 42] [VInt 0] (bytes "custom:test") [x2a; x00; x00; x00]);
    try reflexivity; discriminate.
Defined.

(** ** Decoding a stream of values *)

(** Values marshalled one after the other into one buffer can be read back
    one after the other, as the README does: [UnmarshalPartial] decodes the
    first and reports as remaining exactly the length of the rest, the
    buffer cut at [len(data) - remaining] is the encoding of the second, and
    a second [UnmarshalPartial] on it decodes the second and reports zero
    (no custom codecs; types and values as in the round-trip theorems). *)
Theorem sequential_decoding
  (m : ty -> option (value -> result (list byte)))
  (u : ty -> option (list byte -> value -> result value))
  (t1 t2 : ty) (v1 v2 c1 c2 : value) (e1 e2 : list byte) :
  (forall t', m t' = None) -> (forall t', u t' = None) ->
  plain t1 = true -> has_type t1 v1 = true -> has_type t1 c1 = true ->
  plain t2 = true -> has_type t2 v2 = true -> has_type t2 c2 = true ->
  solid t1 "" v1 = true -> solid t2 "" v2 = true ->
  Marshal m t1 v1 = Ok e1 -> Marshal m t2 v2 = Ok e2 ->
  UnmarshalPartial u (e1 ++ e2) (TPtr t1) (VPtr (Some c1))
  = (length e2, Ok (VPtr (Some (expected t1 "" c1 v1))))
  /\ skipn (length (e1 ++ e2) - length e2) (e1 ++ e2) = e2
  /\ UnmarshalPartial u (skipn (length (e1 ++ e2) - length e2) (e1 ++ e2))
       (TPtr t2) (VPtr (Some c2))
     = (0%nat, Ok (VPtr (Some (expected t2 "" c2 v2)))).
Proof.
  intros Hm Hu Hp1 Hv1 Hc1 Hp2 Hv2 Hc2 Hs1 Hs2 He1 He2.
  assert (Hcut : skipn (length (e1 ++ e2) - length e2) (e1 ++ e2) = e2).
  { rewrite length_app.
    replace (length e1 + length e2 - length e2)%nat with (length e1) by lia.
    rewrite skipn_app, skipn_all, Nat.sub_diag. reflexivity. }
  split; [|split].
  - apply UnmarshalPartial_roundtrip with (m := m); auto.
  - exact Hcut.
  - rewrite Hcut. rewrite <- (app_nil_r e2) at 1.
    apply UnmarshalPartial_roundtrip with (m := m); auto.
Qed.

(** Two [SimpleStruct] values in a row, the second part of the package's
    [TestUnmarshalPartial]. *)
Lemma sequential_decoding_witness :
  UnmarshalPartial no_unmarshaler
    ([x39; x30; x00; x00; x9c; xff; xff]
       ++ [x01; x00; x00; x00; x02; x00; x03])
    (TPtr Samples.SimpleStruct) (VPtr (Some (zero Samples.SimpleStruct)))
  = (length [x01; x00; x00; x00; x02; x00; x03],
     Ok (VPtr (Some (expected Samples.SimpleStruct ""
                       (zero Samples.SimpleStruct)
                       (VStruct [VInt 12345; VInt (-100); VInt 255])))))
  /\ skipn (length ([x39; x30; x00; x00; x9c; xff; xff]
                      ++ [x01; x00; x00; x00; x02; x00; x03])
            - length [x01; x00; x00; x00; x02; x00; x03])
           ([x39; x30; x00; x00; x9c; xff; xff]
              ++ [x01; x00; x00; x00; x02; x00; x03])
     = [x01; x00; x00; x00; x02; x00; x03]
  /\ UnmarshalPartial no_unmarshaler
       (skipn (length ([x39; x30; x00; x00; x9c; xff; xff]
                         ++ [x01; x00; x00; x00; x02; x00; x03])
               - length [x01; x00; x00; x00; x02; x00; x03])
              ([x39; x30; x00; x00; x9c; xff; xff]
                 ++ [x01; x00; x00; x00; x02; x00; x03]))
       (TPtr Samples.SimpleStruct) (VPtr (Some (zero Samples.SimpleStruct)))
     = (0%nat,
        Ok (VPtr (Some (expected Samples.SimpleStruct ""
                          (zero Samples.SimpleStruct)
                          (VStruct [VInt 1; VInt 2; VInt 3]))))).
Proof.
  exact (sequential_decoding no_marshaler no_unmarshaler
           Samples.SimpleStruct Samples.SimpleStruct
           (VStruct [VInt 12345; VInt (-100); VInt 255])
           (VStruct [VInt 1; VInt 2; VInt 3])
           (zero Samples.SimpleStruct) (zero Samples.SimpleStruct)
           [x39; x30; x00; x00; x9c; xff; xff]
           [x01; x00; x00; x00; x02; x00; x03]
           (fun _ => eq_refl) (fun _ => eq_refl)
           eq_refl eq_refl eq_refl eq_refl eq_refl eq_refl
           eq_refl eq_refl eq_refl eq_refl).
Defined.

(** ** Lengths of decoded sequences *)

Lemma Read_length (n : nat) (r r' : Reader) (data : list byte) :
  Read n r = (Ok data, r') -> length data = n.
Proof.
  unfold Read. destruct r as [|b r]; [discriminate|].
  intros H.
  assert (E : data = firstn n (b :: r) ++ repeat x00 (n - length (b :: r)))
    by congruence.
  rewrite E, length_app, length_firstn, repeat_length. lia.
Qed.

Lemma fill_array_length (N : nat) (data : list byte) :
  exists ys, fill_array N data = VArray ys /\ length ys = N.
Proof.
  unfold fill_array. cbv zeta. eexists. split; [reflexivity|].
  rewrite length_app, values_of_length, length_firstn, repeat_length. lia.
Qed.

(** Whatever the input holds: a slice decoded under a tag that resolves to
    [n] is never nil and has exactly [n] elements, and decoding into an
    array never changes its number of elements, tag or no tag, whatever
    count the input announces. *)
Theorem decoded_sequence_lengths
  (u : ty -> option (list byte -> value -> result value))
  (e : ty) (N : nat) (tag : string) (cur : value) (arr : list value)
  (r r' : Reader) (v : value) :
  (forall n, parseTag tag = Some n ->
     decodeField u (TSlice e) cur tag r = (Ok v, r') ->
     exists ys, v = VSlice (Some ys) /\ length ys = Z.to_nat n)
  /\ (length arr = N -> Z.of_nat N < 2 ^ 32 ->
      decodeField u (TArray N e) (VArray arr) tag r = (Ok v, r') ->
      exists ys, v = VArray ys /\ length ys = N).
Proof.
  split.
  - intros n Ht H. cbn [decodeField] in H. destruct (is_uint8 e).
    + unfold decodeBytes in H. rewrite tag_dispatch, Ht in H.
      unfold bindD, ret in H.
      destruct (Read (Z.to_nat n) r) as [[data|err] r1] eqn:E;
        [|discriminate H].
      apply Read_length in E. inversion H; subst.
      eexists. split; [reflexivity|]. rewrite values_of_length. exact E.
    + unfold decodeSlice in H. rewrite tag_dispatch, Ht in H.
      rewrite decodeSlice_loop_spec in H.
      destruct (decode_all (fun c => decodeField u e c "")
                  (repeat (zero e) (Z.to_nat n)) r) as [[ys|err] r1] eqn:E;
        [|discriminate H].
      apply decode_all_length in E. rewrite repeat_length in E.
      inversion H; subst. exists ys. split; [reflexivity|exact E].
  - intros Hl HN H. cbn [decodeField] in H. destruct (is_uint8 e).
    + unfold decodeByteArray in H. rewrite tag_dispatch in H.
      assert (K : forall (d : Dec (list byte)),
                 bindD d (fun data => ret (fill_array N data)) r = (Ok v, r')
                 -> exists ys, v = VArray ys /\ length ys = N).
      { intros d Hd. unfold bindD, ret in Hd.
        destruct (d r) as [[data|err] r1]; [|discriminate Hd].
        inversion Hd; subst. apply fill_array_length. }
      destruct (parseTag tag); eapply K; exact H.
    + unfold decodeArray in H. rewrite tag_dispatch in H.
      unfold uint32 in H. rewrite Z.mod_small in H by lia.
      assert (K : forall (k : Z) (r0 : Reader),
                 decodeArray_loop (fun c => decodeField u e c "") (zero e)
                                  (Z.of_nat N) arr k r0 = (Ok v, r')
                 -> exists ys, v = VArray ys /\ length ys = N).
      { intros k r0 Hk. rewrite <- Hl in Hk at 1.
        rewrite decodeArray_loop_spec in Hk.
        destruct (decode_all (fun c => decodeField u e c "")
                    (fixed_elems (Z.to_nat k) arr (zero e)) r0)
          as [[ys|err] r1] eqn:E; [|discriminate Hk].
        apply decode_all_length in E. rewrite fixed_elems_length in E.
        inversion Hk; subst. eexists. split; [reflexivity|].
        rewrite length_app, length_firstn, repeat_length. lia. }
      destruct (parseTag tag) as [k|].
      * eapply K; exact H.
      * unfold bindD in H.
        destruct (read_uint32 r) as [[k|err] r1]; [|discriminate H].
        eapply K; exact H.
Qed.

(** Two elements under the tag "2"; an array of three fed a count of five. *)
Lemma decoded_sequence_lengths_witness :
  (exists ys, VSlice (Some (Samples.ints [1; 2])) = VSlice (Some ys)
              /\ length ys = Z.to_nat 2)
  /\ (exists ys, VArray (Samples.ints [1; 2; 3]) = VArray ys
                 /\ length ys = 3%nat).
Proof.
  split.
  - apply (proj1 (decoded_sequence_lengths no_unmarshaler (TScalar Uint32)
                    3 "2" (VSlice None) []
                    (le_bytes 4 1 ++ le_bytes 4 2) []
                    (VSlice (Some (Samples.ints [1; 2])))) 2);
      reflexivity.
  - apply (proj2 (decoded_sequence_lengths no_unmarshaler (TScalar Uint32)
                    3 "" (VSlice None) (Samples.ints [0; 0; 0])
                    (put_uint32 5 ++ le_bytes 4 1 ++ le_bytes 4 2
                       ++ le_bytes 4 3 ++ le_bytes 4 4 ++ le_bytes 4 5) []
                    (VArray (Samples.ints [1; 2; 3]))));
      [reflexivity | reflexivity | reflexivity].
Defined.

(** ** Re-encoding what was decoded *)

Lemma TrimRight_zeros_spec (b : list byte) :
  exists k, b = TrimRight_zeros b ++ repeat x00 k.
Proof.
  induction b as [|x b [k IH]].
  - exists O. reflexivity.
  - cbn [TrimRight_zeros]. destruct (TrimRight_zeros b) as [|y t] eqn:E.
    + cbn [app] in IH. destruct (Byte.eqb x x00) eqn:Ex.
      * apply Byte.byte_dec_bl in Ex. subst x. exists (S k).
        cbn [app repeat]. rewrite <- IH. reflexivity.
      * exists k. cbn [app]. rewrite <- IH. reflexivity.
    + exists k. cbn [app]. rewrite IH at 1. reflexivity.
Qed.

Lemma fixed_payload_same_length (b : list byte) (n : Z) :
  0 <= n < 2 ^ 32 -> length b = Z.to_nat n -> fixed_payload b n = b.
Proof.
  intros Hn Hl. rewrite fixed_payload_spec by (unfold len; lia).
  rewrite <- Hl, firstn_all, Nat.sub_diag. apply app_nil_r.
Qed.

Lemma fixed_payload_trim (b : list byte) (n : Z) :
  0 <= n < 2 ^ 32 -> length b = Z.to_nat n ->
  fixed_payload (TrimRight_zeros b) n = b.
Proof.
  intros Hn Hl. destruct (TrimRight_zeros_spec b) as [k E].
  assert (Hk : (length (TrimRight_zeros b) + k = Z.to_nat n)%nat).
  { rewrite <- Hl. rewrite E at 2. rewrite length_app, repeat_length.
    reflexivity. }
  rewrite fixed_payload_spec by (unfold len; lia).
  rewrite firstn_all2 by lia.
  replace (Z.to_nat n - length (TrimRight_zeros b))%nat with k by lia.
  symmetry. exact E.
Qed.

Lemma bytes_of_values_of (b : list byte) : bytes_of (values_of b) = b.
Proof.
  unfold bytes_of, values_of. rewrite map_map.
  rewrite <- (map_id b) at 2. apply map_ext. intros x.
  apply byte_of_Z_of_byte.
Qed.

Lemma bytes_of_app (l1 l2 : list value) :
  bytes_of (l1 ++ l2) = bytes_of l1 ++ bytes_of l2.
Proof. apply map_app. Qed.

Lemma bytes_of_zeros (k : nat) : bytes_of (repeat (VInt 0) k) = repeat x00 k.
Proof.
  induction k as [|k IH]; [reflexivity|].
  cbn [repeat bytes_of map]. fold (bytes_of (repeat (VInt 0) k)).
  rewrite IH. reflexivity.
Qed.

Section Reencode.

Variable enc : value -> result (list byte).

(** [y] encodes to what [x] encodes to, when [x] can be encoded. *)
Let same (y x : value) : Prop := forall b, enc x = Ok b -> enc y = Ok b.

Lemma encode_all_same (ys xs : list value) (bs : list byte) :
  Forall2 same ys xs -> encode_all enc xs = Ok bs ->
  encode_all enc ys = Ok bs.
Proof.
  intros F. revert bs. induction F as [|y x ys xs Hyx F IH]; intros bs H.
  - exact H.
  - apply encode_all_cons in H. destruct H as (b & bs' & Hb & Hbs & ->).
    cbn [encode_all]. rewrite (Hyx b Hb), (IH bs' Hbs). reflexivity.
Qed.

Lemma same_map (f : value -> value) (wt : value -> bool) (xs : list value) :
  (forall x, wt x = true -> same (f x) x) ->
  forallb wt xs = true -> Forall2 same (map f xs) xs.
Proof.
  intros Hf. induction xs as [|x xs IH]; intros H; [constructor|].
  cbn [forallb] in H. apply andb_prop in H. destruct H as [Hx Hxs].
  cbn [map]. constructor; [apply Hf, Hx | apply IH, Hxs].
Qed.

Lemma same_zipWith (f : value -> value -> value) (wt : value -> bool)
  (cs xs : list value) :
  (forall c x, wt c = true -> wt x = true -> same (f c x) x) ->
  length cs = length xs ->
  forallb wt cs = true -> forallb wt xs = true ->
  Forall2 same (zipWith f cs xs) xs.
Proof.
  intros Hf. revert cs. induction xs as [|x xs IH]; intros [|c cs] Hl Hc Hx;
    try discriminate Hl; [constructor|].
  cbn [forallb] in Hc, Hx. apply andb_prop in Hc, Hx.
  destruct Hc as [Hc Hcs], Hx as [Hx Hxs].
  cbn [zipWith]. constructor; [apply Hf; assumption|].
  apply IH; [injection Hl; auto | assumption | assumption].
Qed.

Lemma same_refl (xs : list value) : Forall2 same xs xs.
Proof.
  induction xs; constructor; [intros b H; exact H | assumption].
Qed.

End Reencode.

Lemma fixed_elems_exact (n : nat) (xs : list value) (z : value) :
  length xs = n -> fixed_elems n xs z = xs.
Proof.
  intros <-. unfold fixed_elems.
  rewrite firstn_all, Nat.sub_diag. apply app_nil_r.
Qed.

Lemma zipWith_app {A B C} (f : A -> B -> C) (a a' : list A) (b b' : list B) :
  length a = length b ->
  zipWith f (a ++ a') (b ++ b') = zipWith f a b ++ zipWith f a' b'.
Proof.
  revert b. induction a as [|x a IH]; intros [|y b] H; try discriminate H;
    cbn [app zipWith]; [reflexivity|].
  rewrite IH by (injection H; auto). reflexivity.
Qed.

(** The bytes of a byte array refilled from what was written for it under
    a length tag are encoded, under that tag, to the same bytes. *)
Lemma fixed_payload_refilled (b : list byte) (N : nat) (n : Z) :
  length b = N -> Z.of_nat N < 2 ^ 32 -> 0 <= n < 2 ^ 32 ->
  let B := fixed_payload b n in
  let copyLen := Nat.min (length B) N in
  fixed_payload (firstn copyLen B ++ repeat x00 (N - copyLen)) n
  = fixed_payload b n.
Proof.
  intros Hb HN Hn B copyLen.
  assert (HB : length B = Z.to_nat n)
    by (apply fixed_payload_length; unfold len; lia).
  assert (EB : B = firstn (Z.to_nat n) b
                     ++ repeat x00 (Z.to_nat n - length b))
    by (apply fixed_payload_spec; unfold len; lia).
  rewrite (fixed_payload_spec b) by (unfold len; lia).
  rewrite fixed_payload_spec;
    [|unfold len; rewrite length_app, length_firstn, repeat_length; lia|lia].
  rewrite length_app, length_firstn, repeat_length.
  subst copyLen. rewrite HB, Hb.
  destruct (Nat.le_gt_cases (Z.to_nat n) N) as [Hle|Hgt].
  - rewrite (Nat.min_l _ _ Hle).
    rewrite (firstn_all2 B) by lia.
    rewrite firstn_app, HB, Nat.sub_diag. cbn [firstn].
    rewrite (firstn_all2 B) by lia. rewrite app_nil_r.
    replace (Z.to_nat n - _)%nat with O by lia.
    replace (Z.to_nat n - N)%nat with O by lia.
    rewrite EB, Hb. replace (Z.to_nat n - N)%nat with O by lia.
    cbn [repeat]. rewrite !app_nil_r. reflexivity.
  - rewrite Nat.min_r by lia. rewrite Nat.sub_diag. cbn [repeat].
    rewrite app_nil_r.
    assert (E : firstn N B = b).
    { rewrite EB. rewrite (firstn_all2 b) by lia.
      rewrite firstn_app, Hb, Nat.sub_diag. cbn [firstn].
      rewrite app_nil_r. rewrite <- Hb. apply firstn_all. }
    rewrite E. do 2 f_equal. lia.
Qed.

Section ReencodeArray.

Variable enc : value -> result (list byte).
Variable f : value -> value -> value.
Variable wt : value -> bool.
Variable z : value.

Hypothesis Hf : forall c x b,
    wt c = true -> wt x = true -> enc x = Ok b -> enc (f c x) = Ok b.

(** The elements an array holds after a decode under a length tag are
    encoded, under that tag, to what was decoded. *)
Lemma encode_all_refilled (cs xs : list value) (n : nat) (bs : list byte) :
  length cs = length xs ->
  forallb wt cs = true -> forallb wt xs = true ->
  encode_all enc (fixed_elems n xs z) = Ok bs ->
  encode_all enc
    (fixed_elems n
       (firstn (length xs)
          (zipWith f (fixed_elems n cs z) (fixed_elems n xs z))
          ++ repeat z (length xs - n)) z)
  = Ok bs.
Proof.
  intros Hl Hc Hx. apply encode_all_same.
  assert (Hf' : forall c x, wt c = true -> wt x = true ->
                            forall b, enc x = Ok b -> enc (f c x) = Ok b)
    by (intros; apply Hf; assumption).
  unfold fixed_elems. rewrite Hl.
  destruct (Nat.le_gt_cases n (length xs)) as [Hle|Hgt].
  - replace (n - length xs)%nat with O by lia. cbn [repeat].
    rewrite !app_nil_r.
    assert (Hlz : length (zipWith f (firstn n cs) (firstn n xs)) = n).
    { rewrite zipWith_length; rewrite !length_firstn; lia. }
    rewrite (firstn_all2 (zipWith _ _ _)) by lia.
    rewrite firstn_app, Hlz, Nat.sub_diag. cbn [firstn].
    rewrite app_nil_r. rewrite firstn_all2 by lia.
    rewrite length_app, Hlz, repeat_length.
    replace (n - _)%nat with O by lia. cbn [repeat]. rewrite app_nil_r.
    apply (same_zipWith enc f wt); auto using forallb_firstn.
    rewrite !length_firstn. lia.
  - rewrite (firstn_all2 cs), (firstn_all2 xs) by lia.
    rewrite zipWith_app by exact Hl.
    assert (Hlz : length (zipWith f cs xs) = length xs)
      by (rewrite zipWith_length; auto).
    assert (E : forall tl, firstn (length xs) (zipWith f cs xs ++ tl)
                           = zipWith f cs xs).
    { intros tl. rewrite firstn_app, Hlz, Nat.sub_diag. cbn [firstn].
      rewrite app_nil_r. apply firstn_all2. lia. }
    rewrite E. replace (length xs - n)%nat with O by lia. cbn [repeat].
    rewrite app_nil_r. rewrite firstn_all2 by lia. rewrite Hlz.
    apply Forall2_app.
    + apply (same_zipWith enc f wt); auto.
    + apply same_refl.
Qed.

End ReencodeArray.

Lemma encodeBytes_tagged (b : list byte) (tag : string) (n : Z) :
  parseTag tag = Some n -> encodeBytes b tag = fixed_payload b n.
Proof.
  intros Ht. unfold encodeBytes. cbv zeta. rewrite tag_dispatch, Ht.
  reflexivity.
Qed.

Lemma encodeString_tagged (s : list byte) (tag : string) (n : Z) :
  parseTag tag = Some n -> encodeString s tag = fixed_payload s n.
Proof.
  intros Ht. unfold encodeString. cbv zeta. rewrite tag_dispatch, Ht.
  reflexivity.
Qed.

Lemma bytes_of_refilled (N : nat) (B : list byte) (ys : list value) :
  fill_array N B = VArray ys ->
  bytes_of ys
  = firstn (Nat.min (length B) N) B
      ++ repeat x00 (N - Nat.min (length B) N).
Proof.
  unfold fill_array. cbv zeta. intros H. inversion H; subst ys.
  rewrite bytes_of_app, bytes_of_values_of, bytes_of_zeros. reflexivity.
Qed.

Section ReencodeEngine.

Variable m : ty -> option (value -> result (list byte)).
Hypothesis Hm : forall t, m t = None.

Lemma reencode_mutual :
  (forall t, plain t = true ->
     forall tag cur v enc,
       has_type t v = true -> has_type t cur = true ->
       encodeField m t v tag = Ok enc ->
       encodeField m t (expected t tag cur v) tag = Ok enc)
  /\ (forall fs, plain_fields fs = true ->
        forall cs vs enc,
          have_types fs vs = true -> have_types fs cs = true ->
          encodeStruct m fs vs = Ok enc ->
          encodeStruct m fs (expected_fields fs cs vs) = Ok enc).
Proof.
  apply ty_mutind.
  - (* scalars *)
    intros k Hp tag cur v enc Hv Hc He. exact He.
  - (* strings *)
    intros _ tag cur v enc Hv Hc He.
    destruct v as [| | |s| | | | |]; try discriminate Hv.
    cbn [has_type] in Hv. apply Z.ltb_lt in Hv.
    cbn [encodeField expected] in *.
    destruct (parseTag tag) as [n|] eqn:Et; [|exact He].
    pose proof (parseTag_range _ _ Et) as Hn.
    rewrite (encodeString_tagged _ _ _ Et) in He.
    rewrite (encodeString_tagged _ _ _ Et).
    rewrite fixed_payload_trim; [exact He | exact Hn |].
    apply fixed_payload_length; [exact Hv | lia].
  - (* slices *)
    intros e IH Hp tag cur v enc Hv Hc He.
    destruct v as [| | | |xs| | | |]; try discriminate Hv.
    cbn [has_type] in Hv. apply andb_prop in Hv. destruct Hv as [Hlen Hv].
    apply Z.ltb_lt in Hlen.
    cbn [plain] in Hp. cbn [encodeField] in He. cbn [expected].
    destruct (is_uint8 e) eqn:E8.
    + destruct (parseTag tag) as [n|] eqn:Et;
        cbn [encodeField elems]; rewrite E8, bytes_of_values_of.
      * pose proof (parseTag_range _ _ Et) as Hn.
        rewrite (encodeBytes_tagged _ _ _ Et) in He.
        rewrite (encodeBytes_tagged _ _ _ Et).
        rewrite (fixed_payload_same_length (fixed_payload _ _)); [exact He| |].
        -- exact Hn.
        -- apply fixed_payload_length; [|lia].
           unfold len in *. rewrite bytes_of_length. exact Hlen.
      * exact He.
    + assert (Helem : forall x, has_type e x = true ->
                 forall b, encodeField m e x "" = Ok b ->
                           encodeField m e (expected e "" (zero e) x) "" = Ok b)
        by (intros x Hx b Hb; apply IH; auto using zero_has_type).
      destruct (parseTag tag) as [n|] eqn:Et;
        cbn [encodeField elems]; rewrite E8.
      * pose proof (parseTag_range _ _ Et) as Hn.
        rewrite (encodeSlice_fixed _ _ _ _ _ Et) in He by exact Hlen.
        rewrite (encodeSlice_fixed _ _ _ _ _ Et)
          by (unfold len; rewrite length_map, fixed_elems_length; lia).
        rewrite fixed_elems_exact
          by (rewrite length_map; apply fixed_elems_length).
        apply (encode_all_same _ _ _ _
                 (same_map _ _ (has_type e) _ Helem
                    (forallb_fixed_elems _ _ _ _ Hv (zero_has_type e))) He).
      * rewrite (encodeSlice_default _ _ _ _ Et) in He by exact Hlen.
        rewrite (encodeSlice_default _ _ _ _ Et)
          by (unfold len in *; rewrite length_map; exact Hlen).
        apply bindR_Ok in He. destruct He as (bs & Hbs & He).
        rewrite (encode_all_same _ _ _ _
                   (same_map _ _ (has_type e) _ Helem Hv) Hbs).
        cbn [bindR]. unfold len in *. rewrite length_map. exact He.
  - (* arrays *)
    intros N e IH Hp tag cur v enc Hv Hc He.
    destruct v as [| | | | |xs| | |]; try discriminate Hv.
    destruct cur as [| | | | |cs| | |]; try discriminate Hc.
    cbn [has_type] in Hv, Hc. apply andb_prop in Hv, Hc.
    destruct Hv as [Hlx Hv], Hc as [Hlc Hc].
    apply Nat.eqb_eq in Hlx, Hlc.
    cbn [plain] in Hp. apply andb_prop in Hp. destruct Hp as [HN Hp].
    apply Z.ltb_lt in HN.
    cbn [encodeField] in He. cbn [expected].
    destruct (is_uint8 e) eqn:E8.
    + destruct (parseTag tag) as [n|] eqn:Et.
      * pose proof (parseTag_range _ _ Et) as Hn.
        destruct (fill_array N (fixed_payload (bytes_of xs) n))
          as [| | | | |ys| | |] eqn:Ef; try discriminate Ef.
        cbn [encodeField]. rewrite E8.
        rewrite (bytes_of_refilled _ _ _ Ef).
        rewrite (encodeBytes_tagged _ _ _ Et) in He.
        rewrite (encodeBytes_tagged _ _ _ Et).
        rewrite (fixed_payload_refilled (bytes_of xs) N n);
          [exact He | | exact HN | exact Hn].
        rewrite bytes_of_length. exact Hlx.
      * destruct (fill_array N (bytes_of xs))
          as [| | | | |ys| | |] eqn:Ef; try discriminate Ef.
        cbn [encodeField]. rewrite E8.
        rewrite (bytes_of_refilled _ _ _ Ef).
        rewrite bytes_of_length, Hlx, Nat.min_id, Nat.sub_diag.
        cbn [repeat]. rewrite app_nil_r.
        rewrite <- Hlx, <- (bytes_of_length xs), firstn_all. exact He.
    + assert (Helem : forall c x b, has_type e c = true ->
                 has_type e x = true ->
                 encodeField m e x "" = Ok b ->
                 encodeField m e (expected e "" c x) "" = Ok b)
        by (intros c x b Hcc Hx Hb; apply IH; auto).
      unfold encodeArray in *.
      destruct (parseTag tag) as [n|] eqn:Et; cbn [encodeField]; rewrite E8;
        unfold encodeArray.
      * pose proof (parseTag_range _ _ Et) as Hn.
        rewrite (encodeSlice_fixed _ _ _ _ _ Et) in He
          by (unfold len; lia).
        rewrite (encodeSlice_fixed _ _ _ _ _ Et).
        -- subst N.
           apply (encode_all_refilled _ _ (has_type e) (zero e) Helem
                    cs xs (Z.to_nat n) enc Hlc Hc Hv He).
        -- unfold len. rewrite length_app, length_firstn, repeat_length.
           rewrite zipWith_length by (rewrite !fixed_elems_length; reflexivity).
           rewrite fixed_elems_length. lia.
      * rewrite (encodeSlice_default _ _ _ _ Et) in He
          by (unfold len; lia).
        assert (Hlz : length (zipWith (expected e "") cs xs) = length xs)
          by (rewrite zipWith_length; lia).
        rewrite (encodeSlice_default _ _ _ _ Et)
          by (unfold len; rewrite Hlz; lia).
        apply bindR_Ok in He. destruct He as (bs & Hbs & He).
        rewrite (encode_all_same _ _ _ _
                   (same_zipWith _ _ (has_type e) cs xs
                      (fun c x Hcc Hx b Hb => Helem c x b Hcc Hx Hb)
                      (eq_trans Hlc (eq_sym Hlx)) Hc Hv) Hbs).
        cbn [bindR]. unfold len in *. rewrite Hlz. exact He.
  - (* structs *)
    intros name fs IH Hp tag cur v enc Hv Hc He.
    destruct v as [| | | | | |vs| |]; try discriminate Hv.
    destruct cur as [| | | | | |cs| |]; try discriminate Hc.
    cbn [has_type plain encodeField expected] in *.
    apply IH; assumption.
  - (* pointers *)
    intros e IH Hp tag cur v enc Hv Hc He.
    destruct v as [| | | | | | |[x|]|]; try discriminate Hv;
      try discriminate He.
    cbn [has_type plain encodeField expected] in *.
    apply IH; try assumption.
    destruct cur as [| | | | | | |[c|]|]; try discriminate Hc;
      auto using zero_has_type.
  - (* unsupported kinds *)
    intros kind Hp. discriminate Hp.
  - (* no field *)
    intros _ cs vs enc Hv Hc He.
    destruct vs; try discriminate Hv. destruct cs; try discriminate Hc.
    exact He.
  - (* a field and the fields after it *)
    intros name exported tag t IHt fs IHr Hp cs vs enc Hv Hc He.
    destruct vs as [|v vs]; try discriminate Hv.
    destruct cs as [|c cs]; try discriminate Hc.
    cbn [have_types plain_fields] in *.
    apply andb_prop in Hv, Hc, Hp.
    destruct Hv as [Hv Hvs], Hc as [Hc Hcs], Hp as [Hp Hps].
    cbn [encodeStruct] in He. cbn [encodeStruct expected_fields].
    rewrite Hm in *. unfold skipped in *.
    destruct exported; cbn [negb orb] in *.
    + destruct (String.eqb tag "-") eqn:Etag.
      * apply IHr; assumption.
      * destruct (encodeField m t v tag) as [b|] eqn:Ef; [|discriminate He].
        apply bindR_Ok in He. destruct He as (bs & Hbs & He).
        rewrite (IHt Hp tag c v b Hv Hc Ef).
        rewrite (IHr Hps cs vs bs Hvs Hcs Hbs). exact He.
    + apply IHr; assumption.
Qed.

End ReencodeEngine.

(** Encoding what was decoded.  Without custom codecs, for a type the round
    trip covers and a value that holds no empty payload: the value
    [Unmarshal] leaves in the target from the bytes [Marshal] produced is
    encoded by [Marshal] to those same bytes, whatever the target held
    before and whatever the length tags cut, padded or skipped. *)
Theorem decoded_value_reencodes
  (m : ty -> option (value -> result (list byte)))
  (u : ty -> option (list byte -> value -> result value))
  (t : ty) (v cur w : value) (enc : list byte) :
  (forall t', m t' = None) -> (forall t', u t' = None) ->
  plain t = true -> has_type t v = true -> has_type t cur = true ->
  solid t "" v = true ->
  Marshal m t v = Ok enc ->
  Unmarshal u enc (TPtr t) (VPtr (Some cur)) = Ok (VPtr (Some w)) ->
  Marshal m t w = Ok enc.
Proof.
  intros Hm Hu Hp Hv Hc Hs He Hd.
  unfold Unmarshal in Hd. rewrite <- (app_nil_r enc) in Hd.
  rewrite (UnmarshalPartial_roundtrip m u t v cur enc [] Hm Hu Hp Hv Hc He)
    in Hd by (right; exact Hs).
  cbn in Hd. inversion Hd; subst w.
  apply Marshal_plain in He; [|exact Hm].
  destruct (reencode_mutual m Hm) as [RE _].
  unfold Marshal. rewrite Hm.
  rewrite (RE t Hp "" cur v enc Hv Hc He). reflexivity.
Qed.

Lemma decoded_value_reencodes_witness :
  Marshal no_marshaler Mixed mixed_back = Ok mixed_bytes.
Proof.
  apply (decoded_value_reencodes no_marshaler no_unmarshaler Mixed
           mixed_value (zero Mixed) mixed_back mixed_bytes);
    try reflexivity; intros; reflexivity.
Defined.

(** ** Decoding keeps the target well-typed *)

Lemma yields_ret {A} (P : A -> Prop) (a : A) : P a -> yields P (ret a).
Proof. intros H r a' r' E. inversion E; subst. exact H. Qed.

Lemma yields_fail {A} (P : A -> Prop) (e : error) : yields P (@fail A e).
Proof. intros r a r' E. discriminate E. Qed.

Lemma yields_bindD {A B} (Q : A -> Prop) (P : B -> Prop)
  (m : Dec A) (k : A -> Dec B) :
  yields Q m -> (forall a, Q a -> yields P (k a)) -> yields P (bindD m k).
Proof.
  intros Hm Hk r b r' E. unfold bindD in E.
  destruct (m r) as [[a|e] r1] eqn:Em; [|discriminate E].
  exact (Hk a (Hm _ _ _ Em) _ _ _ E).
Qed.

Lemma yields_mapErr {A} (P : A -> Prop) (f : error -> error) (m : Dec A) :
  yields P m -> yields P (mapErr f m).
Proof.
  intros Hm r a r' E. unfold mapErr in E.
  destruct (m r) as [[a'|e] r1] eqn:Em; [|discriminate E].
  inversion E; subst. exact (Hm _ _ _ Em).
Qed.

Lemma yields_Read (n : nat) : yields (fun bs => length bs = n) (Read n).
Proof. intros r a r' E. exact (Read_length _ _ _ _ E). Qed.

Lemma yields_ReadFull (w : nat) :
  yields (fun bs => length bs = w) (ReadFull w).
Proof.
  intros r a r' E. unfold ReadFull in E. destruct r as [|b r];
    [discriminate E|].
  destruct (Nat.ltb_spec (length (b :: r)) w); [discriminate E|].
  inversion E; subst. apply firstn_length_le. assumption.
Qed.

Lemma yields_read_uint32 : yields (fun n => 0 <= n < 2 ^ 32) read_uint32.
Proof.
  unfold read_uint32.
  apply (yields_bindD _ _ _ _ (yields_ReadFull 4)). intros bs Hl.
  apply yields_ret. pose proof (le_value_range bs) as R.
  unfold len in R. rewrite Hl in R. exact R.
Qed.

Lemma yields_read_prefixed :
  yields (fun bs => len bs < 2 ^ 32) read_prefixed.
Proof.
  unfold read_prefixed.
  apply (yields_bindD _ _ _ _ yields_read_uint32). intros n Hn.
  intros r a r' E. apply Read_length in E. unfold len. lia.
Qed.

Lemma yields_forD {St} (I : St -> Prop) (body : nat -> St -> Dec St)
  (n i : nat) (s : St) :
  (forall j s', I s' -> yields I (body j s')) -> I s ->
  yields I (forD body i n s).
Proof.
  intros Hb. revert i s. induction n as [|n IH]; intros i s Hs; cbn [forD].
  - apply yields_ret, Hs.
  - apply (yields_bindD I); [apply Hb, Hs|]. intros s' Hs'. apply IH, Hs'.
Qed.

Lemma yields_tagged {A} (P : A -> Prop) (tag : string) (f : Z -> Dec A)
  (d : Dec A) :
  (forall n, 0 <= n < 2 ^ 32 -> yields P (f n)) -> yields P d ->
  yields P (if negb (String.eqb tag "") then
              match parseTag tag with Some n => f n | None => d end
            else d).
Proof.
  intros Hf Hd. destruct (negb (String.eqb tag "")); [|exact Hd].
  destruct (parseTag tag) as [n|] eqn:E; [|exact Hd].
  apply Hf. eapply parseTag_range, E.
Qed.

Lemma yields_read_scalar (k : scalar) :
  yields (fun v => in_range k v = true) (read_scalar k).
Proof.
  destruct k; unfold read_scalar; try apply yields_fail;
    (eapply yields_bindD; [apply yields_ReadFull|]);
    cbv beta; intros bs Hl; apply yields_ret;
    pose proof (le_value_range bs) as R; unfold len in R; rewrite Hl in R;
    unfold in_range, to_signed; try reflexivity;
    cbn [width] in *; remember (le_value bs) as x eqn:Ex; clear Ex;
    repeat match goal with
    | |- context [2 ^ ?e] =>
        let c := eval vm_compute in (2 ^ e) in change (2 ^ e) with c
    | H : context [2 ^ ?e] |- _ =>
        let c := eval vm_compute in (2 ^ e) in change (2 ^ e) with c in H
    end;
    apply andb_true_intro; split;
    first [apply Z.leb_le | apply Z.ltb_lt];
    try match goal with
        | |- context [if ?a <? ?b then _ else _] =>
            destruct (Z.ltb_spec a b)
        end; lia.
Qed.

Lemma TrimRight_zeros_length (b : list byte) :
  (length (TrimRight_zeros b) <= length b)%nat.
Proof.
  destruct (TrimRight_zeros_spec b) as [k E].
  apply (f_equal (@length _)) in E. rewrite length_app in E. lia.
Qed.

Lemma values_of_typed (bs : list byte) :
  forallb (in_range Uint8) (values_of bs) = true.
Proof.
  induction bs as [|b bs IH]; [reflexivity|].
  cbn [values_of map forallb]. fold (values_of bs). rewrite IH.
  pose proof (Z_of_byte_range b). cbn [in_range width].
  rewrite andb_true_r. apply andb_true_intro.
  split; [apply Z.leb_le | apply Z.ltb_lt]; cbn; lia.
Qed.

Lemma forallb_upd (f : value -> bool) (i : nat) (x : value)
  (l : list value) :
  forallb f l = true -> f x = true -> forallb f (upd i x l) = true.
Proof.
  revert i. induction l as [|y l IH]; intros [|i] Hl Hx;
    cbn [upd forallb] in *; try reflexivity;
    apply andb_prop in Hl; destruct Hl as [Hy Hl].
  - rewrite Hx, Hl. reflexivity.
  - rewrite Hy, IH by assumption. reflexivity.
Qed.

Lemma forallb_nth (f : value -> bool) (i : nat) (l : list value)
  (z : value) :
  forallb f l = true -> f z = true -> f (nth i l z) = true.
Proof.
  revert i. induction l as [|y l IH]; intros [|i] Hl Hz; cbn [nth];
    try exact Hz; cbn [forallb] in Hl; apply andb_prop in Hl;
    destruct Hl as [Hy Hl]; [exact Hy | apply IH; assumption].
Qed.

Section TypedContainers.

Variable dec : value -> Dec value.
Variable wt : value -> bool.
Variable z : value.

Hypothesis Hdec : forall c, wt c = true -> yields (fun v => wt v = true) (dec c).
Hypothesis Hz : wt z = true.

Lemma yields_decodeSlice_loop (n : nat) :
  Z.of_nat n < 2 ^ 32 ->
  yields (fun v => exists ys, v = VSlice (Some ys)
                              /\ len ys < 2 ^ 32 /\ forallb wt ys = true)
         (decodeSlice_loop dec z n).
Proof.
  intros Hn. unfold decodeSlice_loop.
  eapply (yields_bindD (fun s => length s = n /\ forallb wt s = true)).
  - apply yields_forD.
    + intros j s [Hl Hs].
      eapply yields_bindD; [apply Hdec, forallb_nth; assumption|].
      cbv beta. intros x Hx. apply yields_ret.
      rewrite upd_length. split; [exact Hl | apply forallb_upd; assumption].
    + rewrite repeat_length. split; [reflexivity|].
      apply forallb_repeat, Hz.
  - intros s [Hl Hs]. apply yields_ret. exists s.
    unfold len. rewrite Hl. auto.
Qed.

Lemma yields_decodeSlice (tag : string) :
  yields (fun v => exists ys, v = VSlice (Some ys)
                              /\ len ys < 2 ^ 32 /\ forallb wt ys = true)
         (decodeSlice dec z tag).
Proof.
  unfold decodeSlice. apply yields_tagged.
  - intros n Hn. apply yields_decodeSlice_loop. lia.
  - eapply yields_bindD; [apply yields_read_uint32|].
    intros n Hn. cbv beta in Hn. apply yields_decodeSlice_loop. lia.
Qed.

Lemma fold_upd_typed (l : list nat) (a : list value) :
  forallb wt a = true ->
  length (fold_left (fun a i => upd i z a) l a) = length a
  /\ forallb wt (fold_left (fun a i => upd i z a) l a) = true.
Proof.
  revert a. induction l as [|i l IH]; intros a Ha; cbn [fold_left].
  - auto.
  - destruct (IH (upd i z a)) as [E1 E2]; [apply forallb_upd; assumption|].
    rewrite upd_length in E1. auto.
Qed.

Lemma yields_decodeArray_loop (arrayLen : Z) (arr : list value)
  (length : Z) :
  forallb wt arr = true ->
  yields (fun v => exists ys, v = VArray ys
                              /\ List.length ys = List.length arr
                              /\ forallb wt ys = true)
         (decodeArray_loop dec z arrayLen arr length).
Proof.
  intros Ha. unfold decodeArray_loop.
  eapply (yields_bindD
            (fun s => List.length s = List.length arr
                      /\ forallb wt s = true)).
  - apply yields_forD; [|auto].
    intros j s [Hl Hs]. unfold decodeArray_body.
    destruct (Z.of_nat j <? arrayLen).
    + eapply yields_bindD; [apply Hdec, forallb_nth; assumption|].
      cbv beta. intros x Hx. apply yields_ret.
      rewrite upd_length. split; [exact Hl | apply forallb_upd; assumption].
    + eapply yields_bindD; [apply Hdec, Hz|].
      cbv beta. intros _ _. apply yields_ret. auto.
  - intros s [Hl Hs]. apply yields_ret. eexists. split; [reflexivity|].
    destruct (fold_upd_typed
                (seq (Z.to_nat length)
                     (Z.to_nat arrayLen - Z.to_nat length)) s Hs)
      as [E1 E2].
    rewrite E1. auto.
Qed.

Lemma yields_decodeArray (n : nat) (arr : list value) (tag : string) :
  forallb wt arr = true ->
  yields (fun v => exists ys, v = VArray ys
                              /\ length ys = length arr
                              /\ forallb wt ys = true)
         (decodeArray dec z n arr tag).
Proof.
  intros Ha. unfold decodeArray. cbv zeta. apply yields_tagged.
  - intros k Hk. apply yields_decodeArray_loop, Ha.
  - eapply yields_bindD; [apply yields_read_uint32|].
    intros k Hk. apply yields_decodeArray_loop, Ha.
Qed.

End TypedContainers.

Lemma yields_impl {A} (P Q : A -> Prop) (d : Dec A) :
  (forall a, P a -> Q a) -> yields P d -> yields Q d.
Proof. intros H Hd r a r' E. exact (H a (Hd _ _ _ E)). Qed.

Lemma is_uint8_inv (e : ty) : is_uint8 e = true -> e = TScalar Uint8.
Proof.
  destruct e as [[]| | | | | |]; try discriminate. reflexivity.
Qed.

Lemma yields_decodeString (tag : string) :
  yields (fun v => has_type TString v = true) (decodeString tag).
Proof.
  unfold decodeString. cbv zeta. apply yields_tagged.
  - intros n Hn. eapply yields_bindD; [apply yields_Read|].
    cbv beta. intros data Hd. apply yields_ret.
    cbn [has_type]. apply Z.ltb_lt.
    pose proof (TrimRight_zeros_length data). unfold len. lia.
  - eapply yields_bindD; [apply yields_read_prefixed|].
    cbv beta. intros data Hd. apply yields_ret.
    cbn [has_type]. apply Z.ltb_lt. exact Hd.
Qed.

Lemma byte_slice_typed (data : list byte) :
  len data < 2 ^ 32 ->
  has_type (TSlice (TScalar Uint8)) (VSlice (Some (values_of data))) = true.
Proof.
  intros H. cbn [has_type elems]. apply andb_true_intro. split.
  - apply Z.ltb_lt. unfold len in *. rewrite values_of_length. exact H.
  - exact (values_of_typed data).
Qed.

Lemma yields_decodeBytes (tag : string) :
  yields (fun v => has_type (TSlice (TScalar Uint8)) v = true)
         (decodeBytes tag).
Proof.
  unfold decodeBytes. cbv zeta. apply yields_tagged.
  - intros n Hn. eapply yields_bindD; [apply yields_Read|].
    cbv beta. intros data Hd. apply yields_ret.
    apply byte_slice_typed. unfold len. lia.
  - eapply yields_bindD; [apply yields_read_prefixed|].
    cbv beta. intros data Hd. apply yields_ret.
    apply byte_slice_typed. exact Hd.
Qed.

Lemma fill_array_typed (N : nat) (data : list byte) :
  has_type (TArray N (TScalar Uint8)) (fill_array N data) = true.
Proof.
  unfold fill_array. cbv zeta. cbn [has_type].
  apply andb_true_intro. split.
  - apply Nat.eqb_eq.
    rewrite length_app, values_of_length, length_firstn, repeat_length. lia.
  - rewrite forallb_app. apply andb_true_intro. split.
    + exact (values_of_typed _).
    + apply forallb_repeat. reflexivity.
Qed.

Lemma yields_decodeByteArray (N : nat) (tag : string) :
  yields (fun v => has_type (TArray N (TScalar Uint8)) v = true)
         (decodeByteArray N tag).
Proof.
  unfold decodeByteArray. cbv zeta. apply yields_tagged.
  - intros n Hn. eapply yields_bindD; [apply yields_Read|].
    cbv beta. intros data Hd. apply yields_ret, fill_array_typed.
  - eapply yields_bindD; [apply yields_read_prefixed|].
    cbv beta. intros data Hd. apply yields_ret, fill_array_typed.
Qed.

Section TypedDecoding.

Variable u : ty -> option (list byte -> value -> result value).

(** Every [UnmarshalBinary] leaves its receiver a value of its type. *)
Hypothesis Hu : forall t f data v w,
    u t = Some f -> has_type t v = true -> f data v = Ok w ->
    has_type t w = true.

Lemma typed_mutual :
  (forall t tag cur,
      has_type t cur = true ->
      yields (fun v => has_type t v = true) (decodeField u t cur tag))
  /\ (forall fs cs,
        have_types fs cs = true ->
        yields (fun vs => have_types fs vs = true) (decodeStruct u fs cs)).
Proof.
  apply ty_mutind.
  - (* scalars *)
    intros k tag cur Hc. destruct k; cbn [decodeField];
      try apply yields_fail; apply yields_read_scalar.
  - (* strings *)
    intros tag cur Hc. apply yields_decodeString.
  - (* slices *)
    intros e IH tag cur Hc. cbn [decodeField].
    destruct (is_uint8 e) eqn:E8.
    + apply is_uint8_inv in E8. subst e. apply yields_decodeBytes.
    + eapply yields_impl;
        [|apply (yields_decodeSlice (fun c => decodeField u e c "")
                   (has_type e) (zero e)
                   (fun c Hcc => IH "" c Hcc) (zero_has_type e) tag)].
      intros v (ys & -> & Hl & Hys). cbn [has_type elems].
      apply andb_true_intro. split; [apply Z.ltb_lt, Hl | exact Hys].
  - (* arrays *)
    intros n e IH tag cur Hc. cbn [decodeField].
    destruct (is_uint8 e) eqn:E8.
    + apply is_uint8_inv in E8. subst e. apply yields_decodeByteArray.
    + destruct cur as [| | | | |arr| | |]; try discriminate Hc.
      cbn [has_type] in Hc. apply andb_prop in Hc. destruct Hc as [Hl Ha].
      apply Nat.eqb_eq in Hl.
      eapply yields_impl;
        [|apply (yields_decodeArray (fun c => decodeField u e c "")
                   (has_type e) (zero e)
                   (fun c Hcc => IH "" c Hcc) (zero_has_type e) n arr tag
                   Ha)].
      intros v (ys & -> & Hly & Hys). cbn [has_type].
      apply andb_true_intro. split; [apply Nat.eqb_eq; lia | exact Hys].
  - (* structs *)
    intros name fs IH tag cur Hc. cbn [decodeField].
    destruct cur as [| | | | | |vs| |]; try discriminate Hc.
    cbn [has_type] in Hc.
    eapply yields_bindD; [apply IH, Hc|].
    cbv beta. intros vs' Hvs. apply yields_ret. exact Hvs.
  - (* pointers *)
    intros e IH tag cur Hc. cbn [decodeField].
    destruct cur as [| | | | | | |[c|]|]; try discriminate Hc.
    + cbn [has_type] in Hc. eapply yields_bindD; [apply IH, Hc|].
      cbv beta. intros x Hx. apply yields_ret. exact Hx.
    + eapply yields_bindD; [apply IH, zero_has_type|].
      cbv beta. intros x Hx. apply yields_ret. exact Hx.
  - (* unsupported kinds *)
    intros kind tag cur Hc. apply yields_fail.
  - (* no field *)
    intros cs Hc. destruct cs; [|discriminate Hc].
    apply yields_ret. reflexivity.
  - (* a field and the fields after it *)
    intros name exported tag t IHt rest IHr cs Hc.
    destruct cs as [|c cs]; [discriminate Hc|].
    cbn [have_types] in Hc. apply andb_prop in Hc. destruct Hc as [Hc Hcs].
    cbn [decodeStruct].
    assert (K : forall x, has_type t x = true ->
                yields (fun vs => have_types (FCons name exported tag t rest)
                                    vs = true)
                  (bindD (decodeStruct u rest cs)
                         (fun vs'' => ret (x :: vs'')))).
    { intros x Hx. eapply yields_bindD; [apply IHr, Hcs|].
      cbv beta. intros vs'' Hvs. apply yields_ret.
      cbn [have_types]. rewrite Hx, Hvs. reflexivity. }
    destruct (negb exported); [apply K, Hc|].
    destruct (if is_struct t then u (TPtr t) else None) as [UB|] eqn:Eu.
    + assert (Eu' : u (TPtr t) = Some UB)
        by (destruct (is_struct t); [exact Eu | discriminate Eu]).
      eapply yields_bindD; [apply yields_read_uint32|].
      cbv beta. intros L _.
      eapply yields_bindD; [apply yields_Read|].
      cbv beta. intros data _.
      destruct (UB data (VPtr (Some c))) as [[| | | | | | |[v'|]|]|e]
        eqn:EUB; try apply yields_fail.
      apply K. exact (Hu (TPtr t) UB data (VPtr (Some c)) _ Eu' Hc EUB).
    + destruct (String.eqb tag "-"); [apply K, Hc|].
      eapply yields_bindD; [apply yields_mapErr, IHt, Hc|].
      cbv beta. intros v' Hv'. apply K, Hv'.
Qed.

End TypedDecoding.

(** Decoding keeps the target a value of its type.  Whatever the input
    holds, when every custom [UnmarshalBinary] leaves its receiver a value
    of its type: a target that holds a value of its type holds one again
    after a successful [UnmarshalPartial].  Every integer is in the range
    of its kind, every array has kept its length, every string, slice and
    byte slice is shorter than [2^32], and every record has its fields. *)
Theorem decoding_preserves_types
  (u : ty -> option (list byte -> value -> result value))
  (t : ty) (target w : value) (data : list byte) (remaining : nat) :
  (forall t' f data' v v',
      u t' = Some f -> has_type t' v = true -> f data' v = Ok v' ->
      has_type t' v' = true) ->
  has_type t target = true ->
  UnmarshalPartial u data t target = (remaining, Ok w) ->
  has_type t w = true.
Proof.
  intros Hu Ht E. unfold UnmarshalPartial in E.
  destruct (u t) as [UB|] eqn:EU.
  - inversion E; subst. eapply Hu; eauto.
  - destruct t as [| | | | |e|]; try discriminate E.
    destruct target as [| | | | | | |[c|]|]; try discriminate E.
    cbn [has_type] in Ht.
    destruct (decodeField u e c "" data) as [[x|err] buf] eqn:Ed;
      [|discriminate E].
    inversion E; subst. cbn [has_type].
    destruct (typed_mutual u Hu) as [T _].
    exact (T e "" c Ht _ _ _ Ed).
Qed.

Lemma decoding_preserves_types_witness :
  has_type (TPtr Mixed) (VPtr (Some mixed_back)) = true.
Proof.
  apply (decoding_preserves_types no_unmarshaler (TPtr Mixed)
           (VPtr (Some (zero Mixed))) (VPtr (Some mixed_back))
           mixed_bytes 0).
  - intros t' f data' v v' H. discriminate H.
  - reflexivity.
  - reflexivity.
Defined.

(** ** Encodings are self-delimiting *)

(** Without custom codecs, on values that hold no nil slice and of types
    with no length tag and no skipped field: the encoding determines the
    value, and no encoding is the beginning of another.  When the bytes of
    one value followed by [s1] are the bytes of another followed by [s2],
    the two values are the same and so are [s1] and [s2]. *)
Theorem encoding_is_prefix_free
  (m : ty -> option (value -> result (list byte)))
  (t : ty) (v1 v2 : value) (e1 e2 s1 s2 : list byte) :
  (forall t', m t' = None) ->
  plain t = true ->
  has_type t v1 = true -> has_type t v2 = true ->
  exact t v1 = true -> exact t v2 = true ->
  Marshal m t v1 = Ok e1 -> Marshal m t v2 = Ok e2 ->
  e1 ++ s1 = e2 ++ s2 ->
  v1 = v2 /\ s1 = s2.
Proof.
  intros Hm Hp H1 H2 X1 X2 M1 M2 E.
  assert (N : forall s : list byte, s ++ [x00] <> [])
    by (intros [|? ?]; discriminate).
  pose proof (UnmarshalPartial_roundtrip m no_unmarshaler t v1 (zero t)
                e1 (s1 ++ [x00]) Hm (fun _ => eq_refl) Hp H1
                (zero_has_type t) M1 (or_introl (N s1))) as R1.
  pose proof (UnmarshalPartial_roundtrip m no_unmarshaler t v2 (zero t)
                e2 (s2 ++ [x00]) Hm (fun _ => eq_refl) Hp H2
                (zero_has_type t) M2 (or_introl (N s2))) as R2.
  rewrite (app_assoc e1 s1), E, <- app_assoc in R1. rewrite R1 in R2.
  rewrite !expected_exact in R2 by auto using zero_has_type.
  assert (Ev : v1 = v2) by congruence.
  split; [exact Ev|]. subst v2.
  assert (Ee : e1 = e2) by congruence. subst e2.
  apply app_inv_head in E. exact E.
Qed.

Lemma encoding_is_prefix_free_witness :
  plain3_value = plain3_value /\ [x07] = [x07].
Proof.
  apply (encoding_is_prefix_free no_marshaler Plain3 plain3_value
           plain3_value
           (put_uint32 5 ++ bytes "hello"
              ++ put_uint32 3 ++ le_bytes 4 1 ++ le_bytes 4 (2 ^ 32 - 2)
              ++ le_bytes 4 3
              ++ put_uint32 2 ++ [x04; x05])
           (put_uint32 5 ++ bytes "hello"
              ++ put_uint32 3 ++ le_bytes 4 1 ++ le_bytes 4 (2 ^ 32 - 2)
              ++ le_bytes 4 3
              ++ put_uint32 2 ++ [x04; x05])
           [x07] [x07]);
    try reflexivity; intros; reflexivity.
Defined.

Lemma nil_slice_roundtrip_witness :
  Marshal no_marshaler (TSlice (TScalar Uint32)) (VSlice None)
  = Ok [x00; x00; x00; x00]
  /\ Marshal no_marshaler (TSlice (TScalar Uint32)) (VSlice (Some []))
     = Ok [x00; x00; x00; x00]
  /\ Unmarshal no_unmarshaler [x00; x00; x00; x00]
       (TPtr (TSlice (TScalar Uint32)))
       (VPtr (Some (VSlice (Some [VInt 1]))))
     = Ok (VPtr (Some (VSlice (Some [])))).
Proof.
  apply (nil_slice_roundtrips_to_empty no_marshaler no_unmarshaler
           (TScalar Uint32) (VSlice (Some [VInt 1])));
    reflexivity.
Defined.
